(** * Decision-support scoring engine: a shallow embedding and its properties

    This development embeds the multi-criteria scoring engine of the
    decision-support tool (lib/scoring.js, lib/analysis.js, lib/utils.js,
    the criteria cross-check of lib/validation.js and the processComparison
    pipeline of the API route) and proves the properties its specification
    states about it, followed by further properties of the same code.

    Conventions of the embedding.
    - A JavaScript number is [num]: an exact rational ([Fin q]) or [NaN].
      Binary64 rounding, overflow and the infinities are not modelled; every
      division of the source is guarded by a test on its divisor. Where a
      statement about computed values depends on the difference, it carries
      magnitude bounds and a slack (see "Double precision" below).
    - [undefined] is the [None] of an [option]; a feature container is a tree
      of objects whose leaves are primitives (null, boolean, number, string);
      a constraint operand is a primitive or an array of primitives.
    - Property access sees own properties only (no prototype chain). Where a
      statement depends on the difference, it is about paths none of whose
      segments names a member of [Object.prototype] (see "Inherited
      properties" below).
    - Runtime builtins (Number-to-string conversions, [toFixed],
      [toLocaleString] for the en-US locale, [toLowerCase] on ASCII, string
      to number conversion for decimal literals) are written out below. *)

From Stdlib Require Import QArith Qround Qabs Qminmax Lqa ZArith Lia Ascii String Sorted.
From stdpp Require Import gmap strings list pretty.

Open Scope Q_scope.

(** ** JavaScript numbers *)

Module JS.

Inductive num : Type :=
| Fin (q : Q)
| NaN.

Definition Qlt_bool (x y : Q) : bool := negb (Qle_bool y x).

Definition nadd (a b : num) : num :=
  match a, b with Fin x, Fin y => Fin (x + y) | _, _ => NaN end.

Definition nsub (a b : num) : num :=
  match a, b with Fin x, Fin y => Fin (x - y) | _, _ => NaN end.

Definition nmul (a b : num) : num :=
  match a, b with Fin x, Fin y => Fin (x * y) | _, _ => NaN end.

(** Division by zero would produce an infinity or NaN; it is rendered as
    [NaN] here and is never reached from the engine. *)
Definition ndiv (a b : num) : num :=
  match a, b with
  | Fin x, Fin y => if Qeq_bool y 0 then NaN else Fin (x / y)
  | _, _ => NaN
  end.

(** Relational operators: any comparison with NaN is false. *)
Definition nlt (a b : num) : bool :=
  match a, b with Fin x, Fin y => Qlt_bool x y | _, _ => false end.

Definition nle (a b : num) : bool :=
  match a, b with Fin x, Fin y => Qle_bool x y | _, _ => false end.

Definition ngt (a b : num) : bool := nlt b a.
Definition nge (a b : num) : bool := nle b a.

(** [===] on numbers. *)
Definition nstrict_eq (a b : num) : bool :=
  match a, b with Fin x, Fin y => Qeq_bool x y | _, _ => false end.

(** Numbers up to the value they denote. *)
Definition num_eq (a b : num) : Prop :=
  match a, b with
  | Fin x, Fin y => x == y
  | NaN, NaN => True
  | _, _ => False
  end.

(** [Math.round]: nearest integer, ties towards plus infinity. *)
Definition Qround_half_up (q : Q) : Q := inject_Z (Qfloor (q + (1 # 2))).

Definition Math_round (a : num) : num :=
  match a with Fin q => Fin (Qround_half_up q) | NaN => NaN end.

Definition Math_min (a b : num) : num :=
  match a, b with Fin x, Fin y => Fin (Qmin x y) | _, _ => NaN end.

Definition Math_max (a b : num) : num :=
  match a, b with Fin x, Fin y => Fin (Qmax x y) | _, _ => NaN end.

(** The idiom [Math.round(x * 100) / 100] and utils.js [roundToDecimals]. *)
Definition Qround2 (q : Q) : Q := Qround_half_up (q * 100) / 100.

Definition round2 (a : num) : num := ndiv (Math_round (nmul a (Fin 100))) (Fin 100).

Definition pow10 (d : nat) : Q := inject_Z (10 ^ Z.of_nat d).

Definition roundToDecimals (a : num) (decimals : nat) : num :=
  let factor := Fin (pow10 decimals) in
  ndiv (Math_round (nmul a factor)) factor.

(** utils.js [clamp]. *)
Definition clamp (value lo hi : num) : num := Math_min (Math_max value lo) hi.

(** ** Strings *)

Open Scope string_scope.

Definition toLowerChar (c : ascii) : ascii :=
  let n := nat_of_ascii c in
  if (65 <=? n)%nat && (n <=? 90)%nat then ascii_of_nat (n + 32) else c.

Fixpoint toLowerCase (s : string) : string :=
  match s with
  | EmptyString => EmptyString
  | String c t => String (toLowerChar c) (toLowerCase t)
  end.

(** [s.includes(sub)] *)
Fixpoint includes (s sub : string) : bool :=
  if String.prefix sub s then true
  else match s with
       | EmptyString => false
       | String _ t => includes t sub
       end.

(** [s.split(sep)] for a one-character separator. *)
Fixpoint split (sep : ascii) (s : string) : list string :=
  match s with
  | EmptyString => [EmptyString]
  | String c t =>
      if Ascii.eqb c sep then EmptyString :: split sep t
      else match split sep t with
           | [] => [String c EmptyString]
           | h :: r => String c h :: r
           end
  end.

(** [xs.join(sep)] *)
Fixpoint join (sep : string) (xs : list string) : string :=
  match xs with
  | [] => ""
  | [x] => x
  | x :: rest => x +:+ sep +:+ join sep rest
  end.

Fixpoint zeros (n : nat) : string :=
  match n with O => "" | S k => String "0" (zeros k) end.

Definition padStart0 (w : nat) (s : string) : string :=
  zeros (w - String.length s) +:+ s.

(** Decimal rendering of [n / 10^d] for a natural [n]: the digits of [n]
    with a point before the last [d] of them. *)
Definition fixedDigits (n : Z) (d : nat) : string * string :=
  let ds := padStart0 (S d) (pretty (Z.to_N n)) in
  let k := (String.length ds - d)%nat in
  (String.substring 0 k ds, String.substring k d ds).

(** [x.toFixed(d)]: the sign is split off and the magnitude rounded to the
    nearest multiple of [10^-d], the larger one on a tie. *)
Definition toFixed (a : num) (d : nat) : string :=
  match a with
  | NaN => "NaN"
  | Fin q =>
      let n := Qfloor (Qabs q * pow10 d + (1 # 2)) in
      let '(ip, fp) := fixedDigits n d in
      (if Qlt_bool q 0 then "-" else "") +:+ ip +:+
      (match d with O => "" | _ => "." +:+ fp end)
  end.

Fixpoint stripZerosRev (l : list ascii) : list ascii :=
  match l with
  | c :: t => if Ascii.eqb c "0" then stripZerosRev t else l
  | [] => []
  end.

Definition stripTrailingZeros (s : string) : string :=
  string_of_list_ascii (rev (stripZerosRev (rev (list_ascii_of_string s)))).

(** Smallest [k <= fuel] with [q * 10^k] an integer, searched upwards. *)
Fixpoint decimalPlaces (q : Q) (k fuel : nat) : option nat :=
  if Qeq_bool (inject_Z (Qfloor (q * pow10 k))) (q * pow10 k) then Some k
  else match fuel with
       | O => None
       | S f => decimalPlaces q (S k) f
       end.

(** [String(x)] on a number: exact for terminating decimals in plain
    notation; other rationals are cut at sixteen decimals. *)
Definition numberToString (a : num) : string :=
  match a with
  | NaN => "NaN"
  | Fin q =>
      let m := Qabs q in
      let sign := if Qlt_bool q 0 then "-" else "" in
      match decimalPlaces m 0 20 with
      | Some k =>
          let '(ip, fp) := fixedDigits (Qfloor (m * pow10 k)) k in
          sign +:+ ip +:+ (match k with O => "" | _ => "." +:+ fp end)
      | None =>
          let '(ip, fp) := fixedDigits (Qfloor (m * pow10 16)) 16 in
          sign +:+ ip +:+ "." +:+ fp
      end
  end.

Fixpoint group3 (l : list ascii) (k : nat) : list ascii :=
  match l with
  | [] => []
  | c :: t =>
      match k with
      | O => "," :: c :: group3 t 2
      | S k' => c :: group3 t k'
      end
  end%char.

Definition groupThousands (digits : string) : string :=
  string_of_list_ascii (rev (group3 (rev (list_ascii_of_string digits)) 3)).

(** [x.toLocaleString()] in the en-US locale: grouped integer part and at
    most three fraction digits, rounded half away from zero. *)
Definition toLocaleString (a : num) : string :=
  match a with
  | NaN => "NaN"
  | Fin q =>
      let n := Qfloor (Qabs q * 1000 + (1 # 2)) in
      let '(ip, fp) := fixedDigits n 3 in
      let frac := stripTrailingZeros fp in
      (if Qlt_bool q 0 then "-" else "") +:+ groupThousands ip +:+
      (if String.eqb frac "" then "" else "." +:+ frac)
  end.

(** String to number conversion for decimal literals
    ([sign] digits [. digits] [e [sign] digits]) with surrounding white
    space; the empty string is 0 and anything else is NaN. *)
Definition isSpace (c : ascii) : bool :=
  let n := nat_of_ascii c in
  (n =? 32)%nat || ((9 <=? n)%nat && (n <=? 13)%nat).

Fixpoint dropSpaces (l : list ascii) : list ascii :=
  match l with
  | c :: t => if isSpace c then dropSpaces t else l
  | [] => []
  end.

Definition trimChars (l : list ascii) : list ascii :=
  rev (dropSpaces (rev (dropSpaces l))).

Definition digitVal (c : ascii) : option Z :=
  let n := nat_of_ascii c in
  if (48 <=? n)%nat && (n <=? 57)%nat then Some (Z.of_nat (n - 48)) else None.

Fixpoint readDigits (l : list ascii) (acc : Z) (cnt : nat) : Z * nat * list ascii :=
  match l with
  | c :: t =>
      match digitVal c with
      | Some d => readDigits t (10 * acc + d)%Z (S cnt)
      | None => (acc, cnt, l)
      end
  | [] => (acc, cnt, [])
  end.

Definition readSign (l : list ascii) : bool * list ascii :=
  match l with
  | "-"%char :: t => (true, t)
  | "+"%char :: t => (false, t)
  | _ => (false, l)
  end.

Definition readExponent (l : list ascii) : option Z :=
  match l with
  | [] => Some 0%Z
  | c :: t =>
      if Ascii.eqb c "e" || Ascii.eqb c "E" then
        let '(neg, t1) := readSign t in
        match readDigits t1 0 0 with
        | (e, S _, []) => Some (if neg then (- e)%Z else e)
        | _ => None
        end
      else None
  end.

Definition Qpow10Z (e : Z) : Q :=
  match e with
  | Z0 => 1
  | Zpos p => inject_Z (10 ^ Zpos p)
  | Zneg p => 1 / inject_Z (10 ^ Zpos p)
  end.

Definition StringToNumber (s : string) : num :=
  match trimChars (list_ascii_of_string s) with
  | [] => Fin 0
  | l =>
      let '(neg, l1) := readSign l in
      let '(ip, ci, r1) := readDigits l1 0 0 in
      let '(fp, cf, r2) :=
        match r1 with
        | "."%char :: t => readDigits t 0 0
        | _ => (0%Z, O, r1)
        end in
      match (ci + cf)%nat, readExponent r2 with
      | S _, Some e =>
          let m := (inject_Z ip + inject_Z fp / pow10 cf) * Qpow10Z e in
          Fin (if neg then - m else m)
      | _, _ => NaN
      end
  end.

End JS.

Import JS.
Open Scope string_scope.

(** ** JSON values *)

Inductive prim : Type :=
| PNull
| PBool (b : bool)
| PNum (n : num)
| PStr (s : string).

(** A feature container: nested objects, fields in insertion order. *)
#[warnings="-register-all"]
Inductive JsVal : Type :=
| JPrim (p : prim)
| JObj (fields : list (string * JsVal)).

(** A constraint operand. *)
Inductive CVal : Type :=
| CPrim (p : prim)
| CArr (items : list prim).

(** What the display and coercion helpers see of an arbitrary value. *)
Inductive JsAny : Type :=
| AUndefined
| APrim (p : prim)
| AArray (items : list prim)
| AObject.

Definition anyOfFeature (v : option JsVal) : JsAny :=
  match v with
  | None => AUndefined
  | Some (JPrim p) => APrim p
  | Some (JObj _) => AObject
  end.

Definition anyOfOperand (v : CVal) : JsAny :=
  match v with
  | CPrim p => APrim p
  | CArr l => AArray l
  end.

Definition primToString (p : prim) : string :=
  match p with
  | PNull => "null"
  | PBool true => "true"
  | PBool false => "false"
  | PNum n => numberToString n
  | PStr s => s
  end.

(** An array element inside [Array.prototype.join]: null renders empty. *)
Definition joinItem (p : prim) : string :=
  match p with PNull => "" | _ => primToString p end.

(** [String(v)] *)
Definition ToString (v : JsAny) : string :=
  match v with
  | AUndefined => "undefined"
  | APrim p => primToString p
  | AArray l => join "," (map joinItem l)
  | AObject => "[object Object]"
  end.

Definition primToNumber (p : prim) : num :=
  match p with
  | PNull => Fin 0
  | PBool true => Fin 1
  | PBool false => Fin 0
  | PNum n => n
  | PStr s => StringToNumber s
  end.

(** [Number(v)] *)
Definition ToNumber (v : JsAny) : num :=
  match v with
  | AUndefined => NaN
  | APrim p => primToNumber p
  | AArray l => StringToNumber (join "," (map joinItem l))
  | AObject => NaN
  end.

(** [a === b] on primitives. *)
Definition primStrictEq (a b : prim) : bool :=
  match a, b with
  | PNull, PNull => true
  | PBool x, PBool y => Bool.eqb x y
  | PNum x, PNum y => nstrict_eq x y
  | PStr x, PStr y => String.eqb x y
  | _, _ => false
  end.

(** The SameValueZero comparison of [Array.prototype.includes]. *)
Definition sameValueZero (a b : prim) : bool :=
  match a, b with
  | PNum NaN, PNum NaN => true
  | _, _ => primStrictEq a b
  end.

(** [a === b] between a feature value and a constraint operand: the two are
    distinct objects whenever either is an object or an array. *)
Definition strictEq (a : JsVal) (b : CVal) : bool :=
  match a, b with
  | JPrim x, CPrim y => primStrictEq x y
  | _, _ => false
  end.

(** ** utils.js: dotted-path access *)

Fixpoint lookupField (k : string) (fs : list (string * JsVal)) : option JsVal :=
  match fs with
  | [] => None
  | (k', v) :: rest => if String.eqb k k' then Some v else lookupField k rest
  end.

(** [obj[k] = v]: overwrite in place or add as the last property. *)
Fixpoint assignField (k : string) (v : JsVal) (fs : list (string * JsVal))
  : list (string * JsVal) :=
  match fs with
  | [] => [(k, v)]
  | (k', v') :: rest =>
      if String.eqb k k' then (k', v) :: rest else (k', v') :: assignField k v rest
  end.

(** One step of the reducer in [getNestedValue]:
    [current && typeof current === 'object' ? current[key] : undefined]. *)
Definition getProp (current : option JsVal) (key : string) : option JsVal :=
  match current with
  | Some (JObj fs) => lookupField key fs
  | _ => None
  end.

Definition getPath (obj : JsVal) (keys : list string) : option JsVal :=
  fold_left getProp keys (Some obj).

Definition isObject (v : JsVal) : bool :=
  match v with JObj _ => true | JPrim _ => false end.

Definition getNestedValue (obj : JsVal) (path : string) : option JsVal :=
  if negb (isObject obj) || String.eqb path "" then None
  else getPath obj (split "." path).

(** The navigation of [setNestedValue]: every key but the last descends into
    an object, replacing whatever is not an object by a fresh [{}]; the last
    key is assigned. *)
Fixpoint setPath (fs : list (string * JsVal)) (keys : list string) (value : JsVal)
  : list (string * JsVal) :=
  match keys with
  | [] => fs
  | [lastKey] => assignField lastKey value fs
  | key :: rest =>
      let child :=
        match lookupField key fs with
        | Some (JObj cs) => cs
        | _ => []
        end in
      assignField key (JObj (setPath child rest value)) fs
  end.

Definition setNestedValue (obj : JsVal) (path : string) (value : JsVal) : JsVal :=
  match obj with
  | JObj fs => if String.eqb path "" then obj else JObj (setPath fs (split "." path) value)
  | JPrim _ => obj
  end.

(** [JSON.parse(JSON.stringify(v))]: a deep copy in which NaN becomes null. *)
Fixpoint jsonClone (v : JsVal) : JsVal :=
  match v with
  | JPrim (PNum NaN) => JPrim PNull
  | JPrim p => JPrim p
  | JObj fs => JObj (map (fun kv => (fst kv, jsonClone (snd kv))) fs)
  end.

(** ** Request data *)

Record DecisionOption : Type := {
  opt_id : string;
  opt_name : string;
  features : JsVal
}.

Record Constraint : Type := {
  c_criteria : string;
  operator : string;
  c_value : CVal;
  (** [None] when the request leaves the flag out. *)
  required : option bool
}.

Record Priority : Type := {
  criteria : string;
  weight : Q;
  optimization : string
}.

Record Settings : Type := {
  algorithm : option string;
  max_results : option Z
}.

(** [constraint.required !== false] *)
Definition isRequired (c : Constraint) : bool :=
  match required c with Some false => false | _ => true end.

Definition isMinimize (p : Priority) : bool := String.eqb (optimization p) "minimize".

(** ** Engine data *)

Record ConstraintReason : Type := {
  cr_criteria : string;
  cr_status : string;
  cr_explanation : string;
  cr_required : bool;
  actualValue : option JsVal;
  constraintValue : CVal;
  cr_operator : string
}.

Record ComplianceResult : Type := {
  passed : bool;
  failedConstraints : list string;
  constraintReasons : list ConstraintReason
}.

(** An option after constraint filtering: [{...option, constraintCompliance}].
    The field is absent on options handed to the scorer directly. *)
Record ValidOption : Type := {
  vo_option : DecisionOption;
  constraintCompliance : option ComplianceResult
}.

Record NormalizedOption : Type := {
  no_option : ValidOption;
  normalizedFeatures : JsVal
}.

Record Range : Type := {
  r_min : Q;
  r_max : Q;
  r_range : Q
}.

Record Stats : Type := {
  s_min : Q;
  s_max : Q;
  s_avg : Q;
  s_median : Q;
  s_count : nat
}.

Record ReasonDetails : Type := {
  d_rawValue : JsVal;
  formattedValue : string;
  d_score : num;
  performanceLevel : string;
  comparison : string;
  weightPercentage : Q
}.

Record Reason : Type := {
  r_criteria : string;
  status : string;
  explanation : string;
  (** absent on missing-data reasons *)
  details : option ReasonDetails;
  impact : string;
  weightContribution : num
}.

Record CriterionScore : Type := {
  score : num;
  normalizedValue : JsVal;
  rawValue : JsVal
}.

Record ScoredOption : Type := {
  optionId : string;
  so_name : string;
  totalScore : num;
  criteriaScores : gmap string CriterionScore;
  reasons : list Reason;
  so_constraintCompliance : ComplianceResult
}.

Record TradeOffs : Type := {
  strengths : list string;
  weaknesses : list string
}.

(** [{...option, rank}] and later [{...option, tradeOffs}]. *)
Record RankedOption : Type := {
  scored : ScoredOption;
  rank : nat;
  tradeOffs : option TradeOffs
}.

Record ScoringSummary : Type := {
  totalOptionsEvaluated : nat;
  optionsMeetingConstraints : nat;
  ss_topRecommendation : option RankedOption
}.

Record ScoringResults : Type := {
  rankedOptions : list RankedOption;
  summary : ScoringSummary;
  constraintResults : gmap string ComplianceResult
}.

(** ** Array helpers *)

Section Sorting.
Context {A : Type}.

(** [goesBefore y x]: the comparator moves the later element [y] in front
    of the earlier element [x]. *)
Variable goesBefore : A -> A -> bool.

Fixpoint insertSorted (x : A) (l : list A) : list A :=
  match l with
  | [] => [x]
  | y :: t => if goesBefore y x then y :: insertSorted x t else x :: y :: t
  end.

Definition stableSort (l : list A) : list A := foldr insertSorted [] l.
End Sorting.

(** [arr.sort(cmp)]: the sort is stable, and [cmp(a, b) > 0] is what puts
    [b] first; a NaN from the comparator counts as 0. *)
Definition sortWith {A : Type} (cmp : A -> A -> num) (l : list A) : list A :=
  stableSort (fun y x => ngt (cmp x y) (Fin 0)) l.

(** [arr.slice(0, n)] for an integer [n]. *)
Definition slice0 {A : Type} (n : Z) (l : list A) : list A :=
  if (n <? 0)%Z then take (Z.to_nat (Z.of_nat (length l) + n)) l
  else take (Z.to_nat n) l.

Definition Qlist_min (x : Q) (xs : list Q) : Q := fold_left Qmin xs x.
Definition Qlist_max (x : Q) (xs : list Q) : Q := fold_left Qmax xs x.
Definition Qlist_sum (xs : list Q) : Q := fold_left Qplus xs 0.

(** ** scoring.js *)

Definition formatDisplayValue (value : JsAny) (criteria : string) : string :=
  match value with
  | APrim (PNum n) =>
      if includes criteria "cost" || includes criteria "price" then
        "$" +:+ toFixed n 3
      else if includes criteria "percent" || includes criteria "reliability"
              || includes criteria "uptime" then
        numberToString n +:+ "%"
      else if includes criteria "performance" || includes criteria "iops" then
        toLocaleString n
      else if nlt n (Fin 1) then toFixed n 3
      else if nlt n (Fin 100) then toFixed n 1
      else toLocaleString (Math_round n)
  | _ => ToString value
  end.

Definition isNullish (v : option JsVal) : bool :=
  match v with
  | None | Some (JPrim PNull) => true
  | _ => false
  end.

Definition arrayIncludes (items : list prim) (v : JsVal) : bool :=
  match v with
  | JPrim p => existsb (fun x => sameValueZero x p) items
  | JObj _ => false
  end.

Definition evaluateConstraint (opt : DecisionOption) (constraint : Constraint) : bool :=
  match getNestedValue (features opt) (c_criteria constraint) with
  | None => false
  | Some (JPrim PNull) => false
  | Some value =>
      let constraintValue := c_value constraint in
      let nv := ToNumber (anyOfFeature (Some value)) in
      let nc := ToNumber (anyOfOperand constraintValue) in
      let op := operator constraint in
      if String.eqb op "lt" then nlt nv nc
      else if String.eqb op "lte" then nle nv nc
      else if String.eqb op "gt" then ngt nv nc
      else if String.eqb op "gte" then nge nv nc
      else if String.eqb op "eq" then strictEq value constraintValue
      else if String.eqb op "neq" then negb (strictEq value constraintValue)
      else if String.eqb op "in" then
        match constraintValue with
        | CArr items => arrayIncludes items value
        | CPrim _ => false
        end
      else if String.eqb op "contains" then
        includes (toLowerCase (ToString (anyOfFeature (Some value))))
                 (toLowerCase (ToString (anyOfOperand constraintValue)))
      else false
  end.

Definition operatorText (op : string) : option string :=
  if String.eqb op "lt" then Some "less than"
  else if String.eqb op "lte" then Some "less than or equal to"
  else if String.eqb op "gt" then Some "greater than"
  else if String.eqb op "gte" then Some "greater than or equal to"
  else if String.eqb op "eq" then Some "equal to"
  else if String.eqb op "neq" then Some "not equal to"
  else if String.eqb op "in" then Some "one of"
  else if String.eqb op "contains" then Some "containing"
  else None.

Definition generateConstraintReason
  (opt : DecisionOption) (constraint : Constraint) (passes : bool) : ConstraintReason :=
  let value := getNestedValue (features opt) (c_criteria constraint) in
  let formattedValue := formatDisplayValue (anyOfFeature value) (c_criteria constraint) in
  let formattedConstraintValue :=
    formatDisplayValue (anyOfOperand (c_value constraint)) (c_criteria constraint) in
  let operator_ := default (operator constraint) (operatorText (operator constraint)) in
  let status_ := if passes then "passed" else "failed" in
  let requiredText := if isRequired constraint then "required" else "optional" in
  let explanation_ :=
    if isNullish value then
      opt_name opt +:+ " has no " +:+ c_criteria constraint +:+
      " data available for " +:+ requiredText +:+ " constraint"
    else
      opt_name opt +:+ " " +:+ c_criteria constraint +:+ " (" +:+ formattedValue +:+ ") "
      +:+ (if passes then "meets" else "does not meet") +:+ " the " +:+ requiredText
      +:+ " requirement of being " +:+ operator_ +:+ " " +:+ formattedConstraintValue in
  {| cr_criteria := c_criteria constraint;
     cr_status := status_;
     cr_explanation := explanation_;
     cr_required := isRequired constraint;
     actualValue := value;
     constraintValue := c_value constraint;
     cr_operator := operator constraint |}.

(** The body of the inner loop of [applyConstraints]; the state is
    [(constraintReasons, failedConstraints, passesAllConstraints)]. *)
Definition constraintStep (opt : DecisionOption)
  (st : list ConstraintReason * list string * bool) (constraint : Constraint)
  : list ConstraintReason * list string * bool :=
  let '(constraintReasons_, failedConstraints_, passesAllConstraints) := st in
  let passes := evaluateConstraint opt constraint in
  let reason := generateConstraintReason opt constraint passes in
  ((constraintReasons_ ++ [reason])%list,
   if passes then failedConstraints_
   else (failedConstraints_ ++ [c_criteria constraint])%list,
   if passes then passesAllConstraints
   else if isRequired constraint then false else passesAllConstraints).

Definition complianceOf (opt : DecisionOption) (constraints : list Constraint)
  : ComplianceResult :=
  let '(constraintReasons_, failedConstraints_, passesAllConstraints) :=
    fold_left (constraintStep opt) constraints ([], [], true) in
  {| passed := passesAllConstraints;
     failedConstraints := failedConstraints_;
     constraintReasons := constraintReasons_ |}.

Record ConstraintResults : Type := {
  validOptions : list ValidOption;
  allResults : gmap string ComplianceResult
}.

(** The body of the outer loop of [applyConstraints]. *)
Definition applyStep (constraints : list Constraint)
  (acc : ConstraintResults) (opt : DecisionOption) : ConstraintResults :=
  let complianceResult := complianceOf opt constraints in
  {| allResults := <[opt_id opt := complianceResult]> (allResults acc);
     validOptions :=
       if passed complianceResult then
         (validOptions acc ++
          [{| vo_option := opt; constraintCompliance := Some complianceResult |}])%list
       else validOptions acc |}.

Definition applyConstraints (options : list DecisionOption) (constraints : list Constraint)
  : ConstraintResults :=
  fold_left (applyStep constraints) options {| validOptions := []; allResults := ∅ |}.

(** The numeric values of one criterion across the options:
    [.map(getNestedValue).filter(defined, non-null).map(Number).filter(!isNaN)] *)
Definition criterionValues (options : list ValidOption) (criterion : string) : list Q :=
  let raw := map (fun o => getNestedValue (features (vo_option o)) criterion) options in
  let present := omap (fun v => if isNullish v then None else v) raw in
  let numbers := map (fun v => ToNumber (anyOfFeature (Some v))) present in
  omap (fun n => match n with Fin q => Some q | NaN => None end) numbers.

Definition rangeStep (options : list ValidOption)
  (criteriaRanges : gmap string Range) (priority : Priority) : gmap string Range :=
  match criterionValues options (criteria priority) with
  | [] => criteriaRanges
  | v :: vs =>
      <[criteria priority :=
          {| r_min := Qlist_min v vs;
             r_max := Qlist_max v vs;
             r_range := Qlist_max v vs - Qlist_min v vs |}]> criteriaRanges
  end.

Definition computeRanges (options : list ValidOption) (priorities : list Priority)
  : gmap string Range :=
  fold_left (rangeStep options) priorities ∅.

(** The body of the per-priority loop that rewrites the cloned features. *)
Definition normalizeStep (criteriaRanges : gmap string Range) (opt : ValidOption)
  (normalizedFeatures_ : JsVal) (priority : Priority) : JsVal :=
  match getNestedValue (features (vo_option opt)) (criteria priority),
        criteriaRanges !! criteria priority with
  | Some rawValue_, Some range =>
      if Qlt_bool 0 (r_range range) then
        let normalizedValue_ :=
          ndiv (nsub (ToNumber (anyOfFeature (Some rawValue_))) (Fin (r_min range)))
               (Fin (r_range range)) in
        setNestedValue normalizedFeatures_ (criteria priority) (JPrim (PNum normalizedValue_))
      else normalizedFeatures_
  | _, _ => normalizedFeatures_
  end.

Definition normalizeOption (criteriaRanges : gmap string Range)
  (priorities : list Priority) (opt : ValidOption) : NormalizedOption :=
  {| no_option := opt;
     normalizedFeatures :=
       fold_left (normalizeStep criteriaRanges opt) priorities
                 (jsonClone (features (vo_option opt))) |}.

Definition normalizeOptionValues (options : list ValidOption) (priorities : list Priority)
  : list NormalizedOption :=
  let criteriaRanges := computeRanges options priorities in
  map (normalizeOption criteriaRanges priorities) options.

Definition statsStep (options : list ValidOption)
  (stats : gmap string Stats) (priority : Priority) : gmap string Stats :=
  match criterionValues options (criteria priority) with
  | [] => stats
  | v :: vs =>
      let values := v :: vs in
      let sorted := sortWith (fun a b => Fin (a - b)) values in
      <[criteria priority :=
          {| s_min := Qlist_min v vs;
             s_max := Qlist_max v vs;
             s_avg := Qlist_sum values / inject_Z (Z.of_nat (length values));
             s_median := nth (length sorted / 2) sorted 0;
             s_count := length values |}]> stats
  end.

Definition calculateCriteriaStatistics (options : list ValidOption)
  (priorities : list Priority) : gmap string Stats :=
  fold_left (statsStep options) priorities ∅.

Definition calculatePercentile (value : JsVal) (stats : Stats) (isMinimize_ : bool) : num :=
  let range := s_max stats - s_min stats in
  if Qeq_bool range 0 then Fin 50
  else
    let percentile :=
      nmul (ndiv (nsub (ToNumber (anyOfFeature (Some value))) (Fin (s_min stats)))
                 (Fin range))
           (Fin 100) in
    let percentile := if isMinimize_ then nsub (Fin 100) percentile else percentile in
    Math_max (Fin 0) (Math_min (Fin 100) percentile).

(** The comparison wording of [generateCriteriaReason]. *)
Definition comparisonLabel (rawValue_ : JsVal) (stats : option Stats) (isMinimize_ : bool)
  : string :=
  match stats with
  | Some st =>
      if (1 <? s_count st)%nat then
        let percentile := calculatePercentile rawValue_ st isMinimize_ in
        if nge percentile (Fin 80) then
          if isMinimize_ then "among the lowest" else "among the highest"
        else if nge percentile (Fin 60) then
          if isMinimize_ then "below average" else "above average"
        else if nge percentile (Fin 40) then "near average"
        else if isMinimize_ then "above average" else "below average"
      else "only option available"
  | None => "only option available"
  end.

(** The performance level and impact of [generateCriteriaReason]. *)
Definition performanceOf (score_ : num) (isMinimize_ : bool) : string * string :=
  if nge score_ (Fin 80) then
    (if isMinimize_ then "very low" else "excellent", "positive")
  else if nge score_ (Fin 60) then
    (if isMinimize_ then "low" else "good", "positive")
  else if nge score_ (Fin 40) then ("average", "neutral")
  else if nge score_ (Fin 20) then
    (if isMinimize_ then "high" else "below average", "negative")
  else (if isMinimize_ then "very high" else "poor", "negative").

Definition generateCriteriaReason (priority : Priority) (rawValue_ : JsVal) (score_ : num)
  (stats : option Stats) (optionName : string) : Reason :=
  let criteria_ := criteria priority in
  let weight_ := Qround_half_up (weight priority * 100) in
  let isMinimize_ := isMinimize priority in
  let '(performanceLevel_, impact_) := performanceOf score_ isMinimize_ in
  let comparison_ := comparisonLabel rawValue_ stats isMinimize_ in
  let formattedValue_ := formatDisplayValue (anyOfFeature (Some rawValue_)) criteria_ in
  let weightContribution_ := round2 (nmul score_ (Fin (weight priority))) in
  {| r_criteria := criteria_;
     status := impact_;
     explanation :=
       optionName +:+ " has " +:+ performanceLevel_ +:+ " " +:+ criteria_ +:+ " (" +:+
       formattedValue_ +:+ "), which is " +:+ comparison_ +:+
       " compared to alternatives. This " +:+
       (if String.eqb impact_ "positive" then "helps"
        else if String.eqb impact_ "negative" then "hurts" else "neutrally affects")
       +:+ " its overall ranking.";
     details := Some {| d_rawValue := rawValue_;
                        formattedValue := formattedValue_;
                        d_score := round2 score_;
                        performanceLevel := performanceLevel_;
                        comparison := comparison_;
                        weightPercentage := weight_ |};
     impact := impact_;
     weightContribution := weightContribution_ |}.

(** The successful result of [calculateCriteriaScore]; [None] stands for
    [{ success: false }]. *)
Record CriteriaResult : Type := {
  res_score : num;
  res_normalizedValue : JsVal;
  res_rawValue : JsVal;
  res_reason : Reason
}.

Definition calculateCriteriaScore (opt : NormalizedOption) (priority : Priority)
  (criteriaStats : gmap string Stats) : option CriteriaResult :=
  match getNestedValue (normalizedFeatures opt) (criteria priority),
        getNestedValue (features (vo_option (no_option opt))) (criteria priority) with
  | Some normalizedValue_, Some rawValue_ =>
      let score_ := nmul (ToNumber (anyOfFeature (Some normalizedValue_))) (Fin 100) in
      let score_ := if isMinimize priority then nsub (Fin 100) score_ else score_ in
      let reason :=
        generateCriteriaReason priority rawValue_ score_
          (criteriaStats !! criteria priority)
          (opt_name (vo_option (no_option opt))) in
      Some {| res_score := round2 score_;
              res_normalizedValue := normalizedValue_;
              res_rawValue := rawValue_;
              res_reason := reason |}
  | _, _ => None
  end.

Definition missingDataReason (opt : NormalizedOption) (priority : Priority) : Reason :=
  {| r_criteria := criteria priority;
     status := "missing_data";
     explanation :=
       "No " +:+ criteria priority +:+ " data available for " +:+
       opt_name (vo_option (no_option opt));
     details := None;
     impact := "neutral";
     weightContribution := Fin 0 |}.

(** The body of the per-priority loop of [calculateWeightedScores]; the
    state is [(criteriaScores, reasons, totalScore)]. *)
Definition scoreStep (criteriaStats : gmap string Stats) (opt : NormalizedOption)
  (st : gmap string CriterionScore * list Reason * num) (priority : Priority)
  : gmap string CriterionScore * list Reason * num :=
  let '(criteriaScores_, reasons_, totalScore_) := st in
  match calculateCriteriaScore opt priority criteriaStats with
  | Some result =>
      (<[criteria priority :=
           {| score := res_score result;
              normalizedValue := res_normalizedValue result;
              rawValue := res_rawValue result |}]> criteriaScores_,
       (reasons_ ++ [res_reason result])%list,
       nadd totalScore_ (nmul (res_score result) (Fin (weight priority))))
  | None =>
      (criteriaScores_, (reasons_ ++ [missingDataReason opt priority])%list, totalScore_)
  end.

Definition defaultCompliance : ComplianceResult :=
  {| passed := true; failedConstraints := []; constraintReasons := [] |}.

Definition scoreOption (criteriaStats : gmap string Stats) (priorities : list Priority)
  (opt : NormalizedOption) : ScoredOption :=
  let '(criteriaScores_, reasons_, totalScore_) :=
    fold_left (scoreStep criteriaStats opt) priorities (∅, [], Fin 0) in
  {| optionId := opt_id (vo_option (no_option opt));
     so_name := opt_name (vo_option (no_option opt));
     totalScore := round2 totalScore_;
     criteriaScores := criteriaScores_;
     reasons := reasons_;
     so_constraintCompliance :=
       default defaultCompliance (constraintCompliance (no_option opt)) |}.

Definition calculateWeightedScores (options : list ValidOption) (priorities : list Priority)
  : list ScoredOption :=
  let normalizedOptions := normalizeOptionValues options priorities in
  let criteriaStats := calculateCriteriaStatistics options priorities in
  map (scoreOption criteriaStats priorities) normalizedOptions.

(** Steps 3 and 4 of [scoreOptions]: rank by descending total, then cut. *)
Definition rankOptions (scoredOptions : list ScoredOption) : list RankedOption :=
  imap (fun index opt => {| scored := opt; rank := index + 1; tradeOffs := None |})
       (sortWith (fun a b => nsub (totalScore b) (totalScore a)) scoredOptions).

(** [settings.max_results ? ranked.slice(0, settings.max_results) : ranked] *)
Definition limitResults (settings : Settings) (ranked : list RankedOption)
  : list RankedOption :=
  match max_results settings with
  | Some n => if (n =? 0)%Z then ranked else slice0 n ranked
  | None => ranked
  end.

Definition scoreOptions (options : list DecisionOption) (constraints : list Constraint)
  (priorities : list Priority) (settings : Settings) : ScoringResults :=
  let constraintResults_ := applyConstraints options constraints in
  let validOptions_ := validOptions constraintResults_ in
  match validOptions_ with
  | [] =>
      {| rankedOptions := [];
         summary := {| totalOptionsEvaluated := length options;
                       optionsMeetingConstraints := 0;
                       ss_topRecommendation := None |};
         constraintResults := allResults constraintResults_ |}
  | _ =>
      let scoredOptions := calculateWeightedScores validOptions_ priorities in
      let rankedOptions_ := rankOptions scoredOptions in
      let limitedResults := limitResults settings rankedOptions_ in
      {| rankedOptions := limitedResults;
         summary := {| totalOptionsEvaluated := length options;
                       optionsMeetingConstraints := length validOptions_;
                       ss_topRecommendation := head limitedResults |};
         constraintResults := allResults constraintResults_ |}
  end.

(** ** analysis.js *)

Definition hasImpact (which : string) (r : Reason) : bool := String.eqb (impact r) which.

Definition byContributionDesc (a b : Reason) : num :=
  nsub (weightContribution b) (weightContribution a).

(** ["<label> <criteria>: <formatted value> (<level>)"]. Every reason with a
    positive or negative impact carries its details. *)
Definition describeReason (label : string) (reason : Reason) : string :=
  match details reason with
  | Some d =>
      label +:+ " " +:+ r_criteria reason +:+ ": " +:+ formattedValue d +:+
      " (" +:+ performanceLevel d +:+ ")"
  | None => label +:+ " " +:+ r_criteria reason
  end.

(** The strengths and weaknesses of [analyzeOptionTradeOffs]; its
    keyDifferentiators list is read by no later stage and is left out. *)
Definition analyzeOptionTradeOffs (opt : RankedOption) : TradeOffs :=
  let positiveReasons := filter (fun r => hasImpact "positive" r) (reasons (scored opt)) in
  let negativeReasons := filter (fun r => hasImpact "negative" r) (reasons (scored opt)) in
  let strengths_ :=
    map (describeReason "Strong") (take 3 (sortWith byContributionDesc positiveReasons)) in
  let weaknesses_ :=
    map (describeReason "Weak") (take 3 (sortWith byContributionDesc negativeReasons)) in
  {| strengths := take 3 strengths_; weaknesses := take 3 weaknesses_ |}.

Definition generateTradeOffAnalysis (rankedOptions_ : list RankedOption)
  : list RankedOption :=
  map (fun opt => {| scored := scored opt;
                     rank := rank opt;
                     tradeOffs := Some (analyzeOptionTradeOffs opt) |})
      rankedOptions_.

Definition calculateConfidence (rankedOptions_ : list RankedOption) : num :=
  match rankedOptions_ with
  | top :: second :: _ =>
      let topScore := totalScore (scored top) in
      let secondScore := totalScore (scored second) in
      let gap := nsub topScore secondScore in
      let baseConfidence := Fin (1 # 2) in
      let gapBonus := Math_min (ndiv gap (Fin 100)) (Fin (1 # 2)) in
      roundToDecimals (nadd baseConfidence gapBonus) 2
  | _ => Fin 1
  end.

(** The gap sentence of [generateRecommendationReasoning]. *)
Definition gapPhrase (gap : num) : string :=
  if ngt gap (Fin 15) then
    "Clear leader with " +:+ numberToString (roundToDecimals gap 1) +:+ " point advantage. "
  else if ngt gap (Fin 8) then "Moderate edge over alternatives. "
  else if ngt gap (Fin 3) then "Slight advantage in close competition. "
  else "Very close competition with other options. ".

(** [topOption.tradeOffs?.strengths?.[0]] *)
Definition topStrengthOf (topOption : RankedOption) : option string :=
  match tradeOffs topOption with
  | Some t => head (strengths t)
  | None => None
  end.

Definition generateRecommendationReasoning (topOption : RankedOption)
  (allOptions : list RankedOption) : string :=
  let score_ := totalScore (scored topOption) in
  let gap :=
    match allOptions with
    | _ :: second :: _ => nsub (totalScore (scored topOption)) (totalScore (scored second))
    | _ => Fin 0
    end in
  let reasoning := "Scored " +:+ numberToString score_ +:+ "/100 overall. " in
  let reasoning := reasoning +:+ gapPhrase gap in
  match topStrengthOf topOption with
  | Some topStrength =>
      if String.eqb topStrength "" then reasoning
      else reasoning +:+ "Key strength: " +:+ toLowerCase topStrength +:+ "."
  | None => reasoning
  end.

Record TopRecommendation : Type := {
  tr_optionId : string;
  confidence : num;
  reasoning : string
}.

Record Summary : Type := {
  sum_totalOptionsEvaluated : nat;
  sum_optionsMeetingConstraints : nat;
  topRecommendation : option TopRecommendation
}.

Definition generateSummary (scoringResults : ScoringResults) : Summary :=
  let rankedOptions_ := rankedOptions scoringResults in
  let scoringSummary := summary scoringResults in
  {| sum_totalOptionsEvaluated := totalOptionsEvaluated scoringSummary;
     sum_optionsMeetingConstraints := optionsMeetingConstraints scoringSummary;
     topRecommendation :=
       match head rankedOptions_ with
       | Some topOption =>
           Some {| tr_optionId := optionId (scored topOption);
                   confidence := calculateConfidence rankedOptions_;
                   reasoning := generateRecommendationReasoning topOption rankedOptions_ |}
       | None => None
       end |}.

Record Explanations : Type := {
  methodology : string;
  scoringBreakdown : string;
  tradeOffAnalysis : string
}.

Definition generateExplanations (priorities : list Priority) (settings : Settings)
  : Explanations :=
  let algorithm_ :=
    match algorithm settings with
    | Some a => if String.eqb a "" then "weighted_sum" else a
    | None => "weighted_sum"
    end in
  {| methodology :=
       "Used " +:+ algorithm_ +:+
       " algorithm with user-defined priority weights. Each option scored 0-100 per criteria, then weighted by importance.";
     scoringBreakdown :=
       "Criteria weights: " +:+
       join ", " (map (fun p => criteria p +:+ " (" +:+
                                numberToString (Fin (Qround_half_up (weight p * 100))) +:+ "%)")
                      priorities);
     tradeOffAnalysis :=
       "Strengths and weaknesses identified by comparing scores across criteria. Key differentiators highlight significant performance gaps." |}.

(** ** The API route's pipeline *)

Record ComparisonResults : Type := {
  res_rankedOptions : list RankedOption;
  res_summary : Summary;
  res_explanations : Explanations
}.

Definition processComparison (options : list DecisionOption) (constraints : list Constraint)
  (priorities : list Priority) (settings : Settings) : ComparisonResults :=
  let scoringResults := scoreOptions options constraints priorities settings in
  let rankedOptionsWithTradeOffs := generateTradeOffAnalysis (rankedOptions scoringResults) in
  let summary_ := generateSummary scoringResults in
  let explanations_ := generateExplanations priorities settings in
  {| res_rankedOptions := rankedOptionsWithTradeOffs;
     res_summary := summary_;
     res_explanations := explanations_ |}.

(** ** Notions used by the statements *)

(** The value of a total taken as a sort key. *)
Definition totalKey (s : ScoredOption) : Q :=
  match totalScore s with Fin q => q | NaN => 0 end.

Definition isFinite (a : num) : Prop :=
  match a with Fin _ => True | NaN => False end.

Definition finiteTotals (l : list ScoredOption) : Prop :=
  Forall (fun s => isFinite (totalScore s)) l.

(** [goesBefore] of a sort by descending key. *)
Definition keyDesc {A : Type} (key : A -> Q) (y x : A) : bool := Qlt_bool (key x) (key y).

Definition descending {A : Type} (key : A -> Q) (l : list A) : Prop :=
  StronglySorted (fun a b => key b <= key a) l.

(** The elements of [l] whose key is [t], in the order they have in [l]. *)
Definition withKey {A : Type} (key : A -> Q) (t : Q) (l : list A) : list A :=
  filter (fun a => Qeq_bool (key a) t = true) l.

(** The options that qualify and their scores, as [scoreOptions] computes
    them before ranking. *)
Definition qualifying (options : list DecisionOption) (constraints : list Constraint)
  : list ValidOption :=
  validOptions (applyConstraints options constraints).

Definition scoredQualifying (options : list DecisionOption) (constraints : list Constraint)
  (priorities : list Priority) : list ScoredOption :=
  calculateWeightedScores (qualifying options constraints) priorities.

Definition noSettings : Settings := {| algorithm := None; max_results := None |}.

Definition numberFeature (q : Q) : JsVal := JPrim (PNum (Fin q)).

(** Scenario A of the specification. *)
Module ScenarioA.
Definition option1 : DecisionOption :=
  {| opt_id := "option1"; opt_name := "Option1";
     features := JObj [("cost", numberFeature 100); ("performance", numberFeature 80)] |}.
Definition option2 : DecisionOption :=
  {| opt_id := "option2"; opt_name := "Option2";
     features := JObj [("cost", numberFeature 150); ("performance", numberFeature 90)] |}.
Definition options : list DecisionOption := [option1; option2].
Definition priorities : list Priority :=
  [ {| criteria := "cost"; weight := 6 # 10; optimization := "minimize" |};
    {| criteria := "performance"; weight := 4 # 10; optimization := "maximize" |} ].
Definition results : ScoringResults := scoreOptions options [] priorities noSettings.
End ScenarioA.

(** What [applyConstraints] pushes for an option that passes. *)
Definition mkValid (constraints : list Constraint) (opt : DecisionOption) : ValidOption :=
  {| vo_option := opt; constraintCompliance := Some (complianceOf opt constraints) |}.

(** The display rule in the specification's words: the criterion name is
    matched without regard to case, and performance and iops values show
    no decimals. *)
Definition specFormatDisplayValue (value : JsAny) (criteria_ : string) : string :=
  let name := toLowerCase criteria_ in
  match value with
  | APrim (PNum n) =>
      if includes name "cost" || includes name "price" then "$" +:+ toFixed n 3
      else if includes name "percent" || includes name "reliability"
              || includes name "uptime" then numberToString n +:+ "%"
      else if includes name "performance" || includes name "iops" then
        toLocaleString (Math_round n)
      else if nlt n (Fin 1) then toFixed n 3
      else if nlt n (Fin 100) then toFixed n 1
      else toLocaleString (Math_round n)
  | _ => ToString value
  end.

(** The confidence formula in the specification's words:
    [clamp(0.5 + min(gap/100, 0.5), 0, 1)] with [gap = topScore - secondScore]. *)
Definition specConfidence (topScore secondScore : num) : num :=
  let gap := nsub topScore secondScore in
  clamp (nadd (Fin (1 # 2)) (Math_min (ndiv gap (Fin 100)) (Fin (1 # 2)))) (Fin 0) (Fin 1).

(** The sum of the [weightContribution] values of a list of reasons. *)
Definition sumContributions (rs : list Reason) : num :=
  fold_left nadd (map weightContribution rs) (Fin 0).

Definition noMissingData (rs : list Reason) : Prop :=
  Forall (fun r => status r <> "missing_data") rs.

Definition sumAbsWeights (priorities : list Priority) : Q :=
  Qlist_sum (map (fun p => Qabs (weight p)) priorities).

(** Three options on one criterion, the runner-up 12.34 points behind. *)
Module GapExample.
Definition mk (i n : string) (speed : Q) : DecisionOption :=
  {| opt_id := i; opt_name := n; features := JObj [("speed", numberFeature speed)] |}.
Definition options : list DecisionOption :=
  [mk "a" "A" 10000; mk "b" "B" 8766; mk "c" "C" 0].
Definition priorities : list Priority :=
  [ {| criteria := "speed"; weight := 1; optimization := "maximize" |} ].
Definition results : ComparisonResults := processComparison options [] priorities noSettings.
End GapExample.

(** Two options on four criteria weighted 0.25004 each. *)
Module RoundingExample.
Definition mk (i n : string) (v : Q) : DecisionOption :=
  {| opt_id := i; opt_name := n;
     features := JObj [("c1", numberFeature v); ("c2", numberFeature v);
                       ("c3", numberFeature v); ("c4", numberFeature v)] |}.
Definition options : list ValidOption :=
  [ {| vo_option := mk "a" "A" 1; constraintCompliance := None |};
    {| vo_option := mk "b" "B" 0; constraintCompliance := None |} ].
Definition w : Q := 25004 # 100000.
Definition priorities : list Priority :=
  map (fun c => {| criteria := c; weight := w; optimization := "maximize" |})
      ["c1"; "c2"; "c3"; "c4"].
Definition scoredOptions : list ScoredOption := calculateWeightedScores options priorities.
End RoundingExample.

(** Scenario B of the specification: one of three options breaks a required
    upper bound on cost. *)
Module ScenarioB.
Definition mk (i n : string) (cost perf : Q) : DecisionOption :=
  {| opt_id := i; opt_name := n;
     features := JObj [("cost", numberFeature cost); ("performance", numberFeature perf)] |}.
Definition cheap : DecisionOption := mk "cheap" "Cheap" 50 60.
Definition medium : DecisionOption := mk "medium" "Medium" 100 80.
Definition pricey : DecisionOption := mk "pricey" "Pricey" 300 95.
Definition options : list DecisionOption := [cheap; medium; pricey].
Definition costLimit : Constraint :=
  {| c_criteria := "cost"; operator := "lte"; c_value := CPrim (PNum (Fin 200));
     required := Some true |}.
Definition constraints : list Constraint := [costLimit].
Definition results : ScoringResults :=
  scoreOptions options constraints ScenarioA.priorities noSettings.
End ScenarioB.

(** A value read at a path that is absent or a primitive. *)
Definition leafOrNone (v : option JsVal) : Prop :=
  v = None \/ exists p, v = Some (JPrim p).

(** ... and, when present, one that JSON can carry. *)
Definition plainLeaf (v : option JsVal) : Prop :=
  v = None \/ exists p, v = Some (JPrim p) /\ p <> PNum NaN.

(** The option holds primitives (or nothing) at the priority criteria. *)
Definition plainFeatures (opt : ValidOption) (priorities : list Priority) : Prop :=
  forall p, p ∈ priorities -> plainLeaf (getNestedValue (features (vo_option opt)) (criteria p)).

(** ... and, when present, one that converts to a number. *)
Definition numericLeaf (v : option JsVal) : Prop :=
  v = None \/ exists p q, v = Some (JPrim p) /\ primToNumber p = Fin q.

Definition numericFeatures (options : list ValidOption) (priorities : list Priority) : Prop :=
  forall opt p, opt ∈ options -> p ∈ priorities ->
    numericLeaf (getNestedValue (features (vo_option opt)) (criteria p)).

(** The condition under which [calculateCriteriaScore] reports no success. *)
Definition isMissing (opt : NormalizedOption) (c : string) : Prop :=
  getNestedValue (normalizedFeatures opt) c = None \/
  getNestedValue (features (vo_option (no_option opt))) c = None.

(** The range [normalizeOptionValues] records for a criterion. *)
Definition rangeOf (options : list ValidOption) (c : string) : option Range :=
  match criterionValues options c with
  | [] => None
  | v :: vs =>
      Some {| r_min := Qlist_min v vs;
              r_max := Qlist_max v vs;
              r_range := Qlist_max v vs - Qlist_min v vs |}
  end.

(** The value [normalizeOptionValues] writes at a criterion, if it writes. *)
Definition normalizedWrite (criteriaRanges : gmap string Range) (opt : ValidOption)
  (c : string) : option JsVal :=
  match getNestedValue (features (vo_option opt)) c, criteriaRanges !! c with
  | Some rawValue_, Some range =>
      if Qlt_bool 0 (r_range range) then
        Some (JPrim (PNum (ndiv (nsub (ToNumber (anyOfFeature (Some rawValue_)))
                                      (Fin (r_min range)))
                                (Fin (r_range range)))))
      else None
  | _, _ => None
  end.

(** What the cloned features hold at a criterion once the priorities in
    [processed] have been handled. *)
Definition normalizedAt (criteriaRanges : gmap string Range) (opt : ValidOption)
  (processed : list Priority) (c : string) : option JsVal :=
  match normalizedWrite criteriaRanges opt c with
  | Some v => if bool_decide (c ∈ map criteria processed) then Some v
              else getNestedValue (features (vo_option opt)) c
  | None => getNestedValue (features (vo_option opt)) c
  end.

(** Scenario C of the specification: two options that share their cost. *)
Module ScenarioC.
Definition first : ValidOption :=
  {| vo_option := ScenarioB.mk "first" "First" 100 80; constraintCompliance := None |}.
Definition second : ValidOption :=
  {| vo_option := ScenarioB.mk "second" "Second" 100 90; constraintCompliance := None |}.
Definition options : list ValidOption := [first; second].
Definition costPriority : Priority :=
  {| criteria := "cost"; weight := 6 # 10; optimization := "minimize" |}.
Definition normalizedFirst : NormalizedOption :=
  normalizeOption (computeRanges options ScenarioA.priorities) ScenarioA.priorities first.
End ScenarioC.

(** An option that has no performance figure. *)
Module MissingExample.
Definition bare : DecisionOption :=
  {| opt_id := "bare"; opt_name := "Bare"; features := JObj [("cost", numberFeature 100)] |}.
Definition normalized : NormalizedOption :=
  {| no_option := {| vo_option := bare; constraintCompliance := None |};
     normalizedFeatures := JObj [("cost", numberFeature 0)] |}.
Definition performancePriority : Priority :=
  {| criteria := "performance"; weight := 4 # 10; optimization := "maximize" |}.
End MissingExample.

(** Scenario A cut to one result. *)
Definition topOnly : Settings := {| algorithm := None; max_results := Some 1%Z |}.

(** The first scored option of the rounding example. *)
Definition roundingFirst : ScoredOption :=
  scoreOption
    (calculateCriteriaStatistics RoundingExample.options RoundingExample.priorities)
    RoundingExample.priorities
    (normalizeOption (computeRanges RoundingExample.options RoundingExample.priorities)
                     RoundingExample.priorities
                     {| vo_option := RoundingExample.mk "a" "A" 1;
                        constraintCompliance := None |}).


(** ** Further functions of utils.js *)

Definition finiteOf (n : num) : option Q :=
  match n with Fin q => Some q | NaN => None end.

(** [numbers.filter(n => typeof n === 'number' && !isNaN(n))] *)
Definition validNumbers (numbers : list num) : list Q := omap finiteOf numbers.

Definition average (numbers : list num) : num :=
  match numbers with
  | [] => Fin 0
  | _ =>
      match validNumbers numbers with
      | [] => Fin 0
      | v :: vs => Fin (Qlist_sum (v :: vs) / inject_Z (Z.of_nat (length (v :: vs))))
      end
  end.

Definition median (numbers : list num) : num :=
  match numbers with
  | [] => Fin 0
  | _ =>
      let validNumbers_ := sortWith (fun a b => Fin (a - b)) (validNumbers numbers) in
      match validNumbers_ with
      | [] => Fin 0
      | _ =>
          let middle := (length validNumbers_ / 2)%nat in
          if Nat.even (length validNumbers_) then
            Fin ((nth (middle - 1) validNumbers_ 0 + nth middle validNumbers_ 0) / 2)
          else Fin (nth middle validNumbers_ 0)
      end
  end.

(** [str.replace(/[<>]/g, '')] *)
Fixpoint removeAngles (s : string) : string :=
  match s with
  | EmptyString => EmptyString
  | String c t =>
      if Ascii.eqb c "<" || Ascii.eqb c ">" then removeAngles t
      else String c (removeAngles t)
  end.

(** [str.trim()] for ASCII white space. *)
Definition trim (s : string) : string :=
  string_of_list_ascii (trimChars (list_ascii_of_string s)).

Definition sanitizeString (str : JsAny) : string :=
  match str with
  | APrim (PStr s) => String.substring 0 1000 (trim (removeAngles s))
  | _ => ""
  end.

(** ** Further functions of analysis.js *)

Record KeyFactor : Type := {
  kf_criteria : string;
  kf_weight : Q;
  kf_variance : num;
  kf_impactScore : num;
  kf_optimization : string
}.

(** [opt.constraintCompliance?.failedConstraints?.length || 0], summed. *)
Definition constraintFailuresOf (rankedOptions_ : list RankedOption) : nat :=
  fold_left (fun total opt =>
               (total + length (failedConstraints (so_constraintCompliance (scored opt))))%nat)
            rankedOptions_ 0%nat.

(** [None] stands for the TypeError of reading [tradeOffs] of an absent top
    option. *)
Definition generateDecisionRecommendations (rankedOptions_ : list RankedOption)
  (keyFactors : list KeyFactor) (competitiveness : string) : option (list string) :=
  let closing (recommendations : list string) :=
    take 3 (if (0 <? constraintFailuresOf rankedOptions_)%nat then
              (recommendations ++
               ["Some options failed constraints - consider if requirements can be relaxed"])%list
            else recommendations) in
  if String.eqb competitiveness "very_close" then
    let recommendations :=
      ["Consider additional criteria or gather more detailed data - the options are very close in overall value"] in
    let recommendations :=
      match keyFactors with
      | first :: _ =>
          (recommendations ++
           ["Focus on " +:+ kf_criteria first +:+ " as it's the most differentiating factor"])%list
      | [] => recommendations
      end in
    Some (closing recommendations)
  else if String.eqb competitiveness "clear_differences" then
    let recommendations :=
      ["The analysis shows clear differences between options - the top choice is well-supported"] in
    match rankedOptions_ with
    | topOption :: _ =>
        let recommendations :=
          match topStrengthOf topOption with
          | Some first => (recommendations ++ ["Top choice excels in: " +:+ first])%list
          | None => recommendations
          end in
        Some (closing recommendations)
    | [] => None
    end
  else Some (closing []).

(** ** validation.js *)

(** A [Set] in insertion order. *)
Definition setAdd (item : string) (set : list string) : list string :=
  if bool_decide (item ∈ set) then set else (set ++ [item])%list.

Definition findDuplicates (array : list string) : list string :=
  snd (fold_left
         (fun '(seen, duplicates) item =>
            if bool_decide (item ∈ seen) then (seen, setAdd item duplicates)
            else (setAdd item seen, duplicates))
         array ([], [])).

Fixpoint collectFeatureKeys (obj : JsVal) (prefix : string) : gset string :=
  match obj with
  | JPrim _ => ∅
  | JObj fs =>
      (fix each (fs : list (string * JsVal)) : gset string :=
         match fs with
         | [] => ∅
         | (key, child) :: rest =>
             let fullKey := if String.eqb prefix "" then key else prefix +:+ "." +:+ key in
             {[fullKey]}
             ∪ (match child with
                | JObj _ => collectFeatureKeys child fullKey
                | JPrim _ => ∅
                end)
             ∪ each rest
         end) fs
  end.

Definition allFeatureKeysOf (options : list DecisionOption) : gset string :=
  fold_left (fun keySet opt => keySet ∪ collectFeatureKeys (features opt) "") options ∅.

Definition validateCriteriaExistence (options : list DecisionOption)
  (priorities : list Priority) : list string :=
  let allFeatureKeys := allFeatureKeysOf options in
  omap (fun priority =>
          if negb (String.eqb (criteria priority) "")
             && negb (bool_decide (criteria priority ∈ allFeatureKeys))
          then Some ("Priority criteria '" +:+ criteria priority +:+
                     "' not found in any option features")
          else None)
       priorities.

(** ** Further notions used by the statements *)


(** A value at a path that is absent or a non-null primitive converting to
    a number. *)
Definition scorableLeaf (v : option JsVal) : Prop :=
  v = None \/ exists p q, v = Some (JPrim p) /\ p <> PNull /\ primToNumber p = Fin q.

Definition scorableFeatures (options : list ValidOption) (priorities : list Priority) : Prop :=
  forall opt p, opt ∈ options -> p ∈ priorities ->
    scorableLeaf (getNestedValue (features (vo_option opt)) (criteria p)).

(** The observed values of the criterion do not all coincide. *)
Definition spread (options : list ValidOption) (c : string) : Prop :=
  match criterionValues options c with
  | [] => True
  | v :: vs => Qlist_min v vs < Qlist_max v vs
  end.

(** The constraint [c] under another operator. *)
Definition withOperator (c : Constraint) (op : string) : Constraint :=
  {| c_criteria := c_criteria c; operator := op; c_value := c_value c;
     required := required c |}.

(** The constraint [c] with another operand. *)
Definition withOperand (c : Constraint) (v : CVal) : Constraint :=
  {| c_criteria := c_criteria c; operator := operator c; c_value := v;
     required := required c |}.

Definition supportedOperators : list string :=
  ["lt"; "lte"; "gt"; "gte"; "eq"; "neq"; "in"; "contains"].

(** The number of times [x] occurs in [l]. *)
Definition occurrences (x : string) (l : list string) : nat :=
  length (filter (fun y => y = x) l).

(** Scenario A after constraint filtering, and its first scored option. *)
Module ScenarioAValid.
Definition options : list ValidOption := map (mkValid []) ScenarioA.options.
Definition scoredFirst : ScoredOption :=
  scoreOption (calculateCriteriaStatistics options ScenarioA.priorities)
    ScenarioA.priorities
    (normalizeOption (computeRanges options ScenarioA.priorities) ScenarioA.priorities
       (mkValid [] ScenarioA.option1)).
End ScenarioAValid.

(** The first scored option of Scenario C. *)
Definition scenarioCFirst : ScoredOption :=
  scoreOption (calculateCriteriaStatistics ScenarioC.options ScenarioA.priorities)
    ScenarioA.priorities ScenarioC.normalizedFirst.

(** The statistics [calculateCriteriaStatistics] records for a criterion. *)
Definition statsOf (options : list ValidOption) (c : string) : option Stats :=
  match criterionValues options c with
  | [] => None
  | v :: vs =>
      let sorted := sortWith (fun a b => Fin (a - b)) (v :: vs) in
      Some {| s_min := Qlist_min v vs;
              s_max := Qlist_max v vs;
              s_avg := Qlist_sum (v :: vs) / inject_Z (Z.of_nat (length (v :: vs)));
              s_median := nth (length sorted / 2) sorted 0;
              s_count := length (v :: vs) |}
  end.

(** The three impacts by score: positive from 60, neutral from 40,
    negative below (and for a score that is not a number). *)
Definition impactOf (score_ : num) : string :=
  if nge score_ (Fin 60) then "positive"
  else if nge score_ (Fin 40) then "neutral" else "negative".

(** The value of a weight contribution taken as a sort key. *)
Definition contributionKey (r : Reason) : Q :=
  match weightContribution r with Fin q => q | NaN => 0 end.

(** A ranked option that carries nothing but a total. *)
Definition rankedWithTotal (i : string) (k : nat) (t : Q) : RankedOption :=
  {| scored := {| optionId := i; so_name := i; totalScore := Fin t;
                  criteriaScores := ∅; reasons := [];
                  so_constraintCompliance := defaultCompliance |};
     rank := k; tradeOffs := None |}.

(** The closing recommendation of [generateDecisionRecommendations]. *)
Definition relaxRecommendation : string :=
  "Some options failed constraints - consider if requirements can be relaxed".

(** The path begins with a dot, so that its first segment is empty. *)
Definition startsWithDot (path : string) : bool :=
  match path with
  | String c _ => Ascii.eqb c "."
  | EmptyString => false
  end.

(** ** Double precision

    The runtime computes with IEEE double-precision numbers, the embedding
    with exact rationals. A statement about computed values carries the
    magnitude bounds under which the runtime's arithmetic stays away from
    overflow and, where the runtime's rounding matters, a slack, so that it
    holds of the runtime as well as of the embedding. *)

(** A magnitude whose sums, differences and hundredfolds do not overflow. *)
Definition safe (q : Q) : Prop := Qabs q <= inject_Z (10 ^ 300).

(** A magnitude whose hundredfold still carries its decimals. *)
Definition moderate (q : Q) : Prop := Qabs q <= 1000000.

Definition safeNum (n : num) : Prop :=
  match n with Fin q => safe q | NaN => False end.

Definition moderateNum (n : num) : Prop :=
  match n with Fin q => moderate q | NaN => False end.

(** What is allowed for the rounding of the runtime's intermediate results. *)
Definition slack : Q := 1 # 1000000.

(** Every total is a number of safe magnitude. *)
Definition safeTotals (l : list ScoredOption) : Prop :=
  Forall (fun s => safeNum (totalScore s)) l.

(** ** Inherited properties

    An object of the runtime inherits the members of [Object.prototype];
    the embedding sees own properties only. The two agree on every path
    none of whose segments is one of these names. *)
Definition objectPrototypeKeys : list string :=
  ["constructor"; "__defineGetter__"; "__defineSetter__"; "hasOwnProperty";
   "__lookupGetter__"; "__lookupSetter__"; "isPrototypeOf"; "propertyIsEnumerable";
   "toString"; "valueOf"; "__proto__"; "toLocaleString"].

(** No segment of the path is one of the names. *)
Definition avoids (names : list string) (path : string) : Prop :=
  forallb (fun key => negb (existsb (String.eqb key) names)) (split "." path) = true.

Definition ownPath (path : string) : Prop := avoids objectPrototypeKeys path.

Definition ownCriteria (priorities : list Priority) : Prop :=
  forall p, p ∈ priorities -> ownPath (criteria p).

(** ** Numeric data

    The data on which the runtime and the embedding compute alike: every
    priority criterion is a path of own properties, at which every option
    holds a number of safe magnitude or nothing. *)
Definition numberLeaf (v : option JsVal) : Prop :=
  v = None \/ exists q, v = Some (numberFeature q) /\ safe q.

Definition numberData (options : list ValidOption) (priorities : list Priority) : Prop :=
  ownCriteria priorities /\
  forall opt p, opt ∈ options -> p ∈ priorities ->
    numberLeaf (getNestedValue (features (vo_option opt)) (criteria p)).


(** Three options on one criterion, the second holding a text. *)
Module TextValueExample.
Definition textual : DecisionOption :=
  {| opt_id := "b"; opt_name := "B"; features := JObj [("speed", JPrim (PStr "abc"))] |}.
Definition options : list DecisionOption :=
  [GapExample.mk "a" "A" 50; textual; GapExample.mk "c" "C" 80].
Definition results : ScoringResults :=
  scoreOptions options [] GapExample.priorities noSettings.
End TextValueExample.

(** Scenario A with a third option whose cost is null. *)
Module NullValueExample.
Definition unpriced : ValidOption :=
  {| vo_option := {| opt_id := "option3"; opt_name := "Option3";
                     features := JObj [("cost", JPrim PNull);
                                       ("performance", numberFeature 85)] |};
     constraintCompliance := None |}.
Definition options : list ValidOption :=
  (map (mkValid []) ScenarioA.options ++ [unpriced])%list.
End NullValueExample.

(** Statistics of two observed values, 100 and 150. *)
Definition twoValueStats : Stats :=
  {| s_min := 100; s_max := 150; s_avg := 125; s_median := 150; s_count := 2 |}.

(** The cost limit of Scenario B as an optional constraint. *)
Definition optionalCostLimit : Constraint :=
  {| c_criteria := "cost"; operator := "lte"; c_value := CPrim (PNum (Fin 200));
     required := Some false |}.

(** * Properties *)

(** ** Comparisons and rounding *)

Lemma Qlt_bool_iff (x y : Q) : Qlt_bool x y = true <-> x < y.
Proof.
  unfold Qlt_bool. rewrite negb_true_iff.
  destruct (Qle_bool y x) eqn:E.
  - apply Qle_bool_iff in E. split; [discriminate | intros H; lra].
  - split; [intros _ | reflexivity].
    destruct (Qlt_le_dec x y) as [H | H]; [exact H |].
    apply Qle_bool_iff in H. congruence.
Qed.

Lemma Qlt_bool_false (x y : Q) : Qlt_bool x y = false <-> y <= x.
Proof. unfold Qlt_bool. rewrite negb_false_iff. apply Qle_bool_iff. Qed.

(** ** The stable sort *)

Section SortGeneric.
Context {A : Type} (goesBefore : A -> A -> bool).

Lemma insertSorted_perm (x : A) (l : list A) :
  Permutation (insertSorted goesBefore x l) (x :: l).
Proof.
  induction l as [| y t IH]; simpl; [reflexivity |].
  destruct (goesBefore y x); [| reflexivity].
  rewrite IH. apply perm_swap.
Qed.

Lemma stableSort_perm (l : list A) : Permutation (stableSort goesBefore l) l.
Proof.
  induction l as [| x t IH]; simpl; [reflexivity |].
  rewrite insertSorted_perm. by constructor.
Qed.
End SortGeneric.

Lemma insertSorted_ext {A} (f g : A -> A -> bool) (x : A) (l : list A) :
  (forall y, y ∈ l -> f y x = g y x) -> insertSorted f x l = insertSorted g x l.
Proof.
  induction l as [| y t IH]; simpl; intros H; [reflexivity |].
  rewrite (H y) by constructor.
  destruct (g y x); [| reflexivity].
  f_equal. apply IH. intros z Hz. apply H. by constructor.
Qed.

Lemma stableSort_ext {A} (f g : A -> A -> bool) (l : list A) :
  (forall x y, x ∈ l -> y ∈ l -> f y x = g y x) -> stableSort f l = stableSort g l.
Proof.
  induction l as [| x t IH]; simpl; intros H; [reflexivity |].
  rewrite IH by (intros; apply H; by constructor).
  apply insertSorted_ext. intros y Hy. apply H; [constructor |].
  constructor. by rewrite <- (stableSort_perm g t).
Qed.

Section SortByKey.
Context {A : Type} (key : A -> Q).

Lemma insertSorted_descending (x : A) (l : list A) :
  descending key l -> descending key (insertSorted (keyDesc key) x l).
Proof.
  unfold descending. induction l as [| y t IH]; simpl; intros Hs.
  - repeat constructor.
  - inversion Hs as [| ? ? Ht Hy]; subst.
    destruct (keyDesc key y x) eqn:E; unfold keyDesc in E.
    + apply Qlt_bool_iff in E. constructor; [by apply IH |].
      rewrite (insertSorted_perm _ x t). constructor; [lra | exact Hy].
    + apply Qlt_bool_false in E. constructor; [exact Hs |].
      constructor; [exact E |].
      eapply Forall_impl; [exact Hy |]. simpl. intros z Hz. lra.
Qed.

Lemma stableSort_descending (l : list A) :
  descending key (stableSort (keyDesc key) l).
Proof.
  induction l as [| x t IH]; simpl; [constructor | by apply insertSorted_descending].
Qed.

Lemma insertSorted_stable (t : Q) (x : A) (l : list A) :
  withKey key t (insertSorted (keyDesc key) x l) = withKey key t (x :: l).
Proof.
  unfold withKey. induction l as [| y r IH]; simpl; [reflexivity |].
  destruct (keyDesc key y x) eqn:E; [| reflexivity].
  unfold keyDesc in E. apply Qlt_bool_iff in E.
  rewrite (filter_cons _ y), IH, !filter_cons.
  destruct (decide (Qeq_bool (key y) t = true)) as [Hy | Hy];
    destruct (decide (Qeq_bool (key x) t = true)) as [Hx | Hx]; try reflexivity.
  apply Qeq_bool_iff in Hy, Hx. lra.
Qed.

Lemma stableSort_stable (t : Q) (l : list A) :
  withKey key t (stableSort (keyDesc key) l) = withKey key t l.
Proof.
  induction l as [| x r IH]; simpl; [reflexivity |].
  rewrite insertSorted_stable. unfold withKey in *.
  rewrite !filter_cons, IH. reflexivity.
Qed.
End SortByKey.

(** On finite totals the comparator of [scoreOptions] is the descending
    order of the totals. *)
Lemma rank_comparator_key (x y : ScoredOption) :
  isFinite (totalScore x) -> isFinite (totalScore y) ->
  ngt (nsub (totalScore y) (totalScore x)) (Fin 0) = keyDesc totalKey y x.
Proof.
  unfold totalKey, keyDesc, ngt.
  destruct (totalScore x) as [a |], (totalScore y) as [b |]; simpl; try tauto.
  intros _ _. destruct (Qlt_bool a b) eqn:E.
  - apply Qlt_bool_iff in E. apply Qlt_bool_iff. lra.
  - apply Qlt_bool_false in E. apply Qlt_bool_false. lra.
Qed.

Lemma sortWith_totals (l : list ScoredOption) :
  finiteTotals l ->
  sortWith (fun a b => nsub (totalScore b) (totalScore a)) l
  = stableSort (keyDesc totalKey) l.
Proof.
  intros Hf. unfold sortWith. apply stableSort_ext.
  intros x y Hx Hy. unfold finiteTotals in Hf. rewrite Forall_forall in Hf.
  apply rank_comparator_key; by apply Hf.
Qed.

Lemma rankOptions_scored (l : list ScoredOption) :
  map scored (rankOptions l)
  = sortWith (fun a b => nsub (totalScore b) (totalScore a)) l.
Proof.
  unfold rankOptions.
  generalize (sortWith (fun a b => nsub (totalScore b) (totalScore a)) l) as s.
  intros s. change (map scored ?x) with (scored <$> x).
  rewrite fmap_imap. apply list_eq. intros i.
  rewrite list_lookup_imap. by destruct (s !! i).
Qed.

Lemma rankOptions_lookup (l : list ScoredOption) (i : nat) (r : RankedOption) :
  rankOptions l !! i = Some r -> rank r = (i + 1)%nat /\ tradeOffs r = None.
Proof.
  unfold rankOptions. rewrite list_lookup_imap.
  destruct (_ !! i); simpl; [| discriminate].
  intros [= <-]. split; reflexivity.
Qed.

Lemma rankOptions_length (l : list ScoredOption) : length (rankOptions l) = length l.
Proof.
  unfold rankOptions. rewrite length_imap. unfold sortWith.
  apply Permutation_length, stableSort_perm.
Qed.

Lemma rankOptions_ranks (l : list ScoredOption) :
  map rank (rankOptions l) = seq 1 (length l).
Proof.
  apply list_eq. intros i.
  change (map rank ?x) with (rank <$> x). rewrite list_lookup_fmap.
  destruct (rankOptions l !! i) as [r |] eqn:E; simpl.
  - destruct (rankOptions_lookup _ _ _ E) as [-> _].
    apply lookup_lt_Some in E. rewrite rankOptions_length in E.
    symmetry. rewrite lookup_seq. split; lia.
  - apply lookup_ge_None in E. rewrite rankOptions_length in E.
    symmetry. apply lookup_ge_None. rewrite length_seq. exact E.
Qed.

(** ** Ranking and truncation in [scoreOptions] *)

Lemma calculateWeightedScores_nil (priorities : list Priority) :
  calculateWeightedScores [] priorities = [].
Proof. reflexivity. Qed.

Lemma limitResults_nil (settings : Settings) : limitResults settings [] = [].
Proof.
  unfold limitResults, slice0. destruct (max_results settings) as [n |]; [| reflexivity].
  destruct (n =? 0)%Z; [reflexivity |]. destruct (n <? 0)%Z; apply take_nil.
Qed.

Lemma scoreOptions_ranked options constraints priorities settings :
  rankedOptions (scoreOptions options constraints priorities settings)
  = limitResults settings (rankOptions (scoredQualifying options constraints priorities)).
Proof.
  unfold scoreOptions, scoredQualifying, qualifying.
  destruct (validOptions (applyConstraints options constraints)) as [| v vs]; simpl.
  - symmetry. apply limitResults_nil.
  - reflexivity.
Qed.

Lemma limitResults_positive (settings : Settings) (l : list RankedOption) :
  (forall n, max_results settings = Some n -> (0 < n)%Z) ->
  limitResults settings l
  = match max_results settings with Some n => take (Z.to_nat n) l | None => l end.
Proof.
  intros H. unfold limitResults, slice0.
  destruct (max_results settings) as [n |]; [| reflexivity].
  specialize (H n eq_refl).
  destruct (n =? 0)%Z eqn:E0; [lia |]. destruct (n <? 0)%Z eqn:E1; [lia | reflexivity].
Qed.

Lemma full_ranking_sorted (l : list ScoredOption) :
  finiteTotals l -> map scored (rankOptions l) = stableSort (keyDesc totalKey) l.
Proof. intros Hfin. rewrite rankOptions_scored. by apply sortWith_totals. Qed.

(** ** Constraint filtering *)

Lemma constraint_fold (opt : DecisionOption) (cs : list Constraint)
  (rs : list ConstraintReason) (fs : list string) (b : bool) :
  fold_left (constraintStep opt) cs (rs, fs, b)
  = ((rs ++ map (fun c => generateConstraintReason opt c (evaluateConstraint opt c)) cs)%list,
     (fs ++ map c_criteria (filter (fun c => evaluateConstraint opt c = false) cs))%list,
     b && forallb (fun c => evaluateConstraint opt c || negb (isRequired c)) cs).
Proof.
  revert rs fs b. induction cs as [| c cs IH]; intros rs fs b; simpl.
  - by rewrite !app_nil_r, andb_true_r.
  - rewrite IH. rewrite filter_cons.
    destruct (evaluateConstraint opt c) eqn:E; simpl.
    + destruct (decide (true = false)) as [? | _]; [discriminate |].
      by rewrite <- app_assoc.
    + destruct (decide (false = false)) as [_ | ?]; [| congruence].
      rewrite <- !app_assoc. simpl.
      destruct (isRequired c); simpl; [| reflexivity].
      by rewrite andb_false_r.
Qed.

Lemma complianceOf_reasons (opt : DecisionOption) (cs : list Constraint) :
  constraintReasons (complianceOf opt cs)
  = map (fun c => generateConstraintReason opt c (evaluateConstraint opt c)) cs.
Proof. unfold complianceOf. by rewrite constraint_fold. Qed.

Lemma complianceOf_failed (opt : DecisionOption) (cs : list Constraint) :
  failedConstraints (complianceOf opt cs)
  = map c_criteria (filter (fun c => evaluateConstraint opt c = false) cs).
Proof. unfold complianceOf. by rewrite constraint_fold. Qed.

Lemma complianceOf_passed (opt : DecisionOption) (cs : list Constraint) :
  passed (complianceOf opt cs) = true <->
  forall c, c ∈ cs -> isRequired c = true -> evaluateConstraint opt c = true.
Proof.
  unfold complianceOf. rewrite constraint_fold. simpl.
  rewrite forallb_forall. split.
  - intros H c Hc Hr. apply list_elem_of_In in Hc. specialize (H c Hc).
    rewrite Hr in H. simpl in H. by rewrite orb_false_r in H.
  - intros H c Hc. apply list_elem_of_In in Hc.
    destruct (isRequired c) eqn:Hr; simpl; [| apply orb_true_r].
    rewrite orb_false_r. by apply H.
Qed.


Lemma apply_fold_valid (cs : list Constraint) (opts : list DecisionOption)
  (acc : ConstraintResults) :
  validOptions (fold_left (applyStep cs) opts acc)
  = (validOptions acc
     ++ map (mkValid cs) (filter (fun o => passed (complianceOf o cs) = true) opts))%list.
Proof.
  revert acc. induction opts as [| o os IH]; intros acc; simpl.
  - by rewrite app_nil_r.
  - rewrite IH, filter_cons. unfold applyStep. simpl.
    destruct (passed (complianceOf o cs)) eqn:E.
    + destruct (decide (true = true)) as [_ | ?]; [| congruence].
      by rewrite <- app_assoc.
    + destruct (decide (false = true)) as [? | _]; [discriminate | reflexivity].
Qed.

Lemma applyConstraints_valid (opts : list DecisionOption) (cs : list Constraint) :
  validOptions (applyConstraints opts cs)
  = map (mkValid cs) (filter (fun o => passed (complianceOf o cs) = true) opts).
Proof. unfold applyConstraints. by rewrite apply_fold_valid. Qed.

Lemma apply_fold_other (cs : list Constraint) (opts : list DecisionOption)
  (acc : ConstraintResults) (k : string) :
  k ∉ map opt_id opts ->
  allResults (fold_left (applyStep cs) opts acc) !! k = allResults acc !! k.
Proof.
  revert acc. induction opts as [| o os IH]; intros acc Hk; simpl; [reflexivity |].
  simpl in Hk. apply not_elem_of_cons in Hk as [Hne Hk].
  rewrite IH by exact Hk. unfold applyStep. simpl.
  by rewrite lookup_insert_ne.
Qed.

Lemma apply_fold_lookup (cs : list Constraint) (opts : list DecisionOption)
  (acc : ConstraintResults) (o : DecisionOption) :
  NoDup (map opt_id opts) -> o ∈ opts ->
  allResults (fold_left (applyStep cs) opts acc) !! opt_id o = Some (complianceOf o cs).
Proof.
  revert acc. induction opts as [| o' os IH]; intros acc Hnd Ho; simpl.
  - by apply elem_of_nil in Ho.
  - simpl in Hnd. apply NoDup_cons in Hnd as [Hfresh Hnd].
    apply elem_of_cons in Ho as [-> | Ho].
    + rewrite apply_fold_other by exact Hfresh.
      unfold applyStep. simpl. apply lookup_insert_eq.
    + by apply IH.
Qed.

Lemma applyConstraints_lookup (opts : list DecisionOption) (cs : list Constraint)
  (o : DecisionOption) :
  NoDup (map opt_id opts) -> o ∈ opts ->
  allResults (applyConstraints opts cs) !! opt_id o = Some (complianceOf o cs).
Proof. apply apply_fold_lookup. Qed.

Lemma scoreOptions_constraintResults options constraints priorities settings :
  constraintResults (scoreOptions options constraints priorities settings)
  = allResults (applyConstraints options constraints).
Proof.
  unfold scoreOptions. by destruct (validOptions (applyConstraints options constraints)).
Qed.

(** ** What a scored option keeps of the option it was computed from *)

Lemma scoreOption_optionId stats ps (n : NormalizedOption) :
  optionId (scoreOption stats ps n) = opt_id (vo_option (no_option n)).
Proof. unfold scoreOption. by destruct (fold_left _ _ _) as [[? ?] ?]. Qed.

Lemma scoreOption_name stats ps (n : NormalizedOption) :
  so_name (scoreOption stats ps n) = opt_name (vo_option (no_option n)).
Proof. unfold scoreOption. by destruct (fold_left _ _ _) as [[? ?] ?]. Qed.

Lemma scoreOption_compliance stats ps (n : NormalizedOption) :
  so_constraintCompliance (scoreOption stats ps n)
  = default defaultCompliance (constraintCompliance (no_option n)).
Proof. unfold scoreOption. by destruct (fold_left _ _ _) as [[? ?] ?]. Qed.

Lemma calculateWeightedScores_map (vs : list ValidOption) (ps : list Priority) :
  calculateWeightedScores vs ps
  = map (fun v => scoreOption (calculateCriteriaStatistics vs ps) ps
                    (normalizeOption (computeRanges vs ps) ps v)) vs.
Proof. unfold calculateWeightedScores, normalizeOptionValues. by rewrite map_map. Qed.

(** The qualifying options are scored in the order of the input. *)
Lemma scoredQualifying_input_order options constraints priorities :
  map optionId (scoredQualifying options constraints priorities)
  = map opt_id (filter (fun o => passed (complianceOf o constraints) = true) options).
Proof.
  unfold scoredQualifying, qualifying.
  rewrite calculateWeightedScores_map, applyConstraints_valid, !map_map.
  apply map_ext. intros o. by rewrite scoreOption_optionId.
Qed.

(** C3, as the code has it. When every total is a number and
    [max_results], if set, is positive: ranks are the 1-based positions in
    the stable descending order of the totals of all qualifying options,
    which are scored in input order; the ranks are dense, and [max_results]
    keeps a prefix of that ranking without renumbering it. *)
Theorem ranking_is_stable_descending_order
  (options : list DecisionOption) (constraints : list Constraint)
  (priorities : list Priority) (settings : Settings) :
  let scoredL := scoredQualifying options constraints priorities in
  let full := rankOptions scoredL in
  let ranked := rankedOptions (scoreOptions options constraints priorities settings) in
  finiteTotals scoredL ->
  (forall n, max_results settings = Some n -> (0 < n)%Z) ->
  Permutation (map scored full) scoredL /\
  descending totalKey (map scored full) /\
  (forall t, withKey totalKey t (map scored full) = withKey totalKey t scoredL) /\
  map rank full = seq 1 (length scoredL) /\
  ranked = match max_results settings with
           | Some n => take (Z.to_nat n) full
           | None => full
           end /\
  (forall i r, ranked !! i = Some r -> full !! i = Some r /\ rank r = (i + 1)%nat) /\
  map optionId scoredL
  = map opt_id (filter (fun o => passed (complianceOf o constraints) = true) options).
Proof.
  intros scoredL full ranked Hfin Hmax.
  assert (Hs : map scored full = stableSort (keyDesc totalKey) scoredL)
    by (by apply full_ranking_sorted).
  assert (Hr : ranked = match max_results settings with
                        | Some n => take (Z.to_nat n) full
                        | None => full
                        end).
  { unfold ranked. rewrite scoreOptions_ranked. by apply limitResults_positive. }
  split; [rewrite Hs; apply stableSort_perm |].
  split; [rewrite Hs; apply stableSort_descending |].
  split; [intros t; rewrite Hs; apply stableSort_stable |].
  split; [apply rankOptions_ranks |].
  split; [exact Hr |].
  split.
  - intros i r Hi. rewrite Hr in Hi.
    assert (Hfull : full !! i = Some r).
    { destruct (max_results settings) as [n |]; [| exact Hi].
      apply lookup_take_Some in Hi. tauto. }
    split; [exact Hfull |]. by destruct (rankOptions_lookup _ _ _ Hfull).
  - apply scoredQualifying_input_order.
Qed.

(** C3 as stated fails: a text among the values of the criterion gives its
    option the total NaN; no comparison with NaN moves an option, and the
    option with the greatest total is ranked last. *)
Lemma ranking_with_text_value_counterexample :
  map (fun r => (optionId (scored r), rank r)) (rankedOptions TextValueExample.results)
  = [("a", 1%nat); ("b", 2%nat); ("c", 3%nat)] /\
  exists first third,
    map (fun r => totalScore (scored r)) (rankedOptions TextValueExample.results)
    = [Fin first; NaN; Fin third] /\
    first == 0 /\ third == 100 /\ first < third /\
    ~ finiteTotals (scoredQualifying TextValueExample.options [] GapExample.priorities).
Proof.
  split; [by vm_compute |].
  destruct (rankedOptions TextValueExample.results) as [| r1 [| r2 [| r3 rest]]] eqn:E;
    try (vm_compute in E; discriminate E).
  vm_compute in E. injection E as <- <- <- <-.
  eexists _, _. split; [reflexivity |].
  split; [reflexivity |]. split; [reflexivity |]. split; [reflexivity |].
  unfold finiteTotals. intros H. vm_compute in H.
  inversion H as [| ? ? _ H1]. inversion H1 as [| ? ? Hb _]. exact Hb.
Qed.

Lemma slice0_subset {A} (n : Z) (l : list A) (x : A) : x ∈ slice0 n l -> x ∈ l.
Proof.
  unfold slice0. destruct (n <? 0)%Z; intros H;
    apply list_elem_of_lookup in H as [i Hi];
    apply lookup_take_Some in Hi as [Hi _]; by eapply list_elem_of_lookup_2.
Qed.

Lemma limitResults_subset (settings : Settings) (l : list RankedOption) (r : RankedOption) :
  r ∈ limitResults settings l -> r ∈ l.
Proof.
  unfold limitResults. destruct (max_results settings) as [n |]; [| done].
  destruct (n =? 0)%Z; [done | apply slice0_subset].
Qed.

(** Every ranked option is the score of a qualifying option. *)
Lemma ranked_from_qualifying options constraints priorities settings (r : RankedOption) :
  r ∈ rankedOptions (scoreOptions options constraints priorities settings) ->
  exists o, o ∈ options /\ passed (complianceOf o constraints) = true /\
    optionId (scored r) = opt_id o /\ so_name (scored r) = opt_name o /\
    so_constraintCompliance (scored r) = complianceOf o constraints.
Proof.
  rewrite scoreOptions_ranked. intros Hr. apply limitResults_subset in Hr.
  assert (Hs : scored r ∈ scoredQualifying options constraints priorities).
  { apply (list_elem_of_fmap_2 scored) in Hr.
    change (scored <$> ?x) with (map scored x) in Hr.
    rewrite rankOptions_scored in Hr. unfold sortWith in Hr.
    by rewrite stableSort_perm in Hr. }
  unfold scoredQualifying, qualifying in Hs.
  rewrite calculateWeightedScores_map, applyConstraints_valid in Hs.
  apply list_elem_of_fmap in Hs as (v & Hv & Hin).
  apply list_elem_of_fmap in Hin as (o & -> & Ho).
  apply list_elem_of_filter in Ho as [Hp Ho].
  exists o. rewrite Hv, scoreOption_optionId, scoreOption_name, scoreOption_compliance.
  simpl. by repeat split.
Qed.

Lemma NoDup_fmap_inj_on {A B} (f : A -> B) (l : list A) (x y : A) :
  NoDup (map f l) -> x ∈ l -> y ∈ l -> f x = f y -> x = y.
Proof.
  induction l as [| a l IH]; simpl; intros Hnd Hx Hy Hf.
  - by apply elem_of_nil in Hx.
  - apply NoDup_cons in Hnd as [Ha Hnd].
    apply elem_of_cons in Hx as [-> | Hx]; apply elem_of_cons in Hy as [-> | Hy].
    + reflexivity.
    + exfalso. apply Ha. rewrite Hf. by apply (list_elem_of_fmap_2 f).
    + exfalso. apply Ha. rewrite <- Hf. by apply (list_elem_of_fmap_2 f).
    + by apply IH.
Qed.

(** C1. Every ranked option passed all required constraints, and the
    compliance map has the report of every input option: its reasons cover
    every constraint, and an option failing a required constraint has
    [passed = false] there and is absent from the ranking. *)
Theorem ranked_options_pass_required_constraints
  (options : list DecisionOption) (constraints : list Constraint)
  (priorities : list Priority) (settings : Settings) :
  let res := scoreOptions options constraints priorities settings in
  NoDup (map opt_id options) ->
  (forall r, r ∈ rankedOptions res ->
     passed (so_constraintCompliance (scored r)) = true /\
     exists o, o ∈ options /\ optionId (scored r) = opt_id o /\
       so_constraintCompliance (scored r) = complianceOf o constraints /\
       forall c, c ∈ constraints -> isRequired c = true -> evaluateConstraint o c = true) /\
  (forall o, o ∈ options ->
     exists report, constraintResults res !! opt_id o = Some report /\
       constraintReasons report
       = map (fun c => generateConstraintReason o c (evaluateConstraint o c)) constraints /\
       ((exists c, c ∈ constraints /\ isRequired c = true /\ evaluateConstraint o c = false) ->
        passed report = false /\
        forall r, r ∈ rankedOptions res -> optionId (scored r) <> opt_id o)).
Proof.
  intros res Hnd. split.
  - intros r Hr. destruct (ranked_from_qualifying _ _ _ _ _ Hr) as (o & Ho & Hp & Hid & _ & Hc).
    split; [by rewrite Hc |]. exists o. repeat split; try done.
    by apply complianceOf_passed.
  - intros o Ho. exists (complianceOf o constraints).
    split; [unfold res; rewrite scoreOptions_constraintResults;
            by apply applyConstraints_lookup |].
    split; [apply complianceOf_reasons |].
    intros (c & Hc & Hreq & Hfail).
    assert (Hp : passed (complianceOf o constraints) = false).
    { destruct (passed (complianceOf o constraints)) eqn:E; [| reflexivity].
      rewrite (proj1 (complianceOf_passed o constraints) E c Hc Hreq) in Hfail.
      discriminate. }
    split; [exact Hp |]. intros r Hr Hid.
    destruct (ranked_from_qualifying _ _ _ _ _ Hr) as (o' & Ho' & Hp' & Hid' & _).
    assert (o' = o) as ->.
    { apply (NoDup_fmap_inj_on opt_id options); try done. congruence. }
    congruence.
Qed.

(** ** The percentile behind the comparison wording *)

Lemma Qmax_Qmin_bounds (lo hi x : Q) : lo <= hi -> lo <= Qmax lo (Qmin hi x) <= hi.
Proof.
  intros H. split; [apply Q.le_max_l |].
  apply Q.max_lub; [exact H | apply Q.le_min_l].
Qed.


Lemma calculatePercentile_finite (value : JsVal) (stats : Stats) (isMin : bool) (q : Q) :
  ToNumber (anyOfFeature (Some value)) = Fin q ->
  exists p, calculatePercentile value stats isMin = Fin p /\ 0 <= p <= 100.
Proof.
  intros Hq. unfold calculatePercentile. rewrite Hq.
  destruct (Qeq_bool (s_max stats - s_min stats) 0) eqn:E.
  - exists 50. split; [reflexivity | lra].
  - simpl. rewrite E. destruct isMin; simpl; eexists; (split; [reflexivity |]);
      apply Qmax_Qmin_bounds; lra.
Qed.



(** ** Display formatting *)

(** C9, as the code has it: the criterion name is matched as written (the
    match is case-sensitive), the first matching rule wins, and
    performance and iops values go through the locale formatting without
    being rounded. *)
Theorem formatDisplayValue_rules (n : num) (criteria_ : string) :
  let cost := includes criteria_ "cost" || includes criteria_ "price" in
  let pct := includes criteria_ "percent" || includes criteria_ "reliability"
             || includes criteria_ "uptime" in
  let perf := includes criteria_ "performance" || includes criteria_ "iops" in
  let value := APrim (PNum n) in
  (cost = true -> formatDisplayValue value criteria_ = "$" +:+ toFixed n 3) /\
  (cost = false -> pct = true ->
     formatDisplayValue value criteria_ = numberToString n +:+ "%") /\
  (cost = false -> pct = false -> perf = true ->
     formatDisplayValue value criteria_ = toLocaleString n) /\
  (cost = false -> pct = false -> perf = false ->
     (nlt n (Fin 1) = true -> formatDisplayValue value criteria_ = toFixed n 3) /\
     (nlt n (Fin 1) = false -> nlt n (Fin 100) = true ->
        formatDisplayValue value criteria_ = toFixed n 1) /\
     (nlt n (Fin 1) = false -> nlt n (Fin 100) = false ->
        formatDisplayValue value criteria_ = toLocaleString (Math_round n))) /\
  (forall v, (forall m, v <> APrim (PNum m)) -> formatDisplayValue v criteria_ = ToString v).
Proof.
  intros cost pct perf value. unfold formatDisplayValue. subst value. cbv beta iota.
  fold cost. fold pct. fold perf.
  split; [by intros -> |].
  split; [by intros -> -> |].
  split; [by intros -> -> -> |].
  split.
  - intros -> -> ->. split; [by intros -> |]. split; by intros -> ->.
  - intros v Hv. destruct v as [| [| | m |] | |]; try reflexivity.
    by destruct (Hv m).
Qed.

(** ** Scenario A *)

(** C2. In Scenario A Option1 totals 60.00 and ranks first, Option2 totals
    40.00. *)
Theorem scenarioA_totals_and_ranks :
  map (fun r => (so_name (scored r), rank r)) (rankedOptions ScenarioA.results)
  = [("Option1", 1%nat); ("Option2", 2%nat)] /\
  Forall2 num_eq (map (fun r => totalScore (scored r)) (rankedOptions ScenarioA.results))
          [Fin 60; Fin 40].
Proof.
  split; [by vm_compute |].
  vm_compute. repeat constructor.
Qed.

(** C7, at Scenario A. The top option has a first strength and
    [generateRecommendationReasoning] renders it when it is given the option
    with its trade-offs, but the summary of [processComparison] is computed
    from the ranked options before the trade-offs are attached: its
    reasoning stops after the gap phrase. *)
Theorem scenarioA_reasoning_misses_key_strength :
  let res := processComparison ScenarioA.options [] ScenarioA.priorities noSettings in
  topStrengthOf <$> head (res_rankedOptions res)
  = Some (Some "Strong cost: $100.000 (very low)") /\
  (fun top => generateRecommendationReasoning top (res_rankedOptions res))
    <$> head (res_rankedOptions res)
  = Some "Scored 60/100 overall. Clear leader with 20 point advantage. Key strength: strong cost: $100.000 (very low)." /\
  reasoning <$> topRecommendation (res_summary res)
  = Some "Scored 60/100 overall. Clear leader with 20 point advantage. ".
Proof. vm_compute. repeat split. Qed.

(** The ranked options that [scoreOptions] returns carry no trade-offs, so
    the summary never has a strength to render. *)
Lemma scoreOptions_no_tradeOffs options constraints priorities settings (r : RankedOption) :
  r ∈ rankedOptions (scoreOptions options constraints priorities settings) ->
  tradeOffs r = None.
Proof.
  rewrite scoreOptions_ranked. intros Hr. apply limitResults_subset in Hr.
  apply list_elem_of_lookup in Hr as [i Hi].
  by destruct (rankOptions_lookup _ _ _ Hi).
Qed.

Lemma processComparison_reasoning options constraints priorities settings
  (tr : TopRecommendation) :
  let res := processComparison options constraints priorities settings in
  topRecommendation (res_summary res) = Some tr ->
  exists top gap,
    head (rankedOptions (scoreOptions options constraints priorities settings)) = Some top /\
    reasoning tr
    = ("Scored " +:+ numberToString (totalScore (scored top)) +:+ "/100 overall. ")
      +:+ gapPhrase gap.
Proof.
  cbv zeta. unfold processComparison, generateSummary. cbn [res_summary topRecommendation].
  destruct (head (rankedOptions _)) as [top |] eqn:Htop; [| discriminate].
  intros [= <-]. cbn [reasoning].
  exists top. eexists. split; [reflexivity |].
  unfold generateRecommendationReasoning, topStrengthOf.
  rewrite (scoreOptions_no_tradeOffs options constraints priorities settings top).
  - reflexivity.
  - apply head_Some_elem_of. exact Htop.
Qed.

(** ** Rounding to two decimals *)

Lemma Qround_half_up_bounds (q : Q) :
  q - (1 # 2) < Qround_half_up q /\ Qround_half_up q <= q + (1 # 2).
Proof.
  unfold Qround_half_up.
  pose proof (Qfloor_le (q + (1 # 2))) as Hle.
  pose proof (Qlt_floor (q + (1 # 2))) as Hlt.
  rewrite inject_Z_plus in Hlt. change (inject_Z 1) with 1 in Hlt.
  split; lra.
Qed.

Lemma Qround2_error (q : Q) : Qabs (Qround2 q - q) <= 1 # 200.
Proof.
  unfold Qround2. destruct (Qround_half_up_bounds (q * 100)) as [Hlo Hhi].
  apply Qabs_Qle_condition.
  set (r := Qround_half_up (q * 100)) in *.
  assert (E : r / 100 == r * (1 # 100)) by (field).
  rewrite E. split; lra.
Qed.

Lemma round2_Fin (q : Q) : round2 (Fin q) = Fin (Qround2 q).
Proof. reflexivity. Qed.

Lemma round2_Fin_inv (a : num) (t : Q) :
  round2 a = Fin t -> exists q, a = Fin q /\ t = Qround2 q.
Proof.
  destruct a as [q |]; [| discriminate].
  rewrite round2_Fin. intros [= <-]. by exists q.
Qed.

Lemma Qround_half_up_comp (x y : Q) : x == y -> Qround_half_up x == Qround_half_up y.
Proof. intros H. unfold Qround_half_up. by rewrite H. Qed.

(** ** The total and the weight contributions *)

Lemma fold_Qplus_shift (xs : list Q) (a : Q) :
  fold_left Qplus xs a == a + fold_left Qplus xs 0.
Proof.
  revert a. induction xs as [| x xs IH]; intros a; simpl; [lra |].
  rewrite (IH (a + x)), (IH (0 + x)). lra.
Qed.

Lemma sumAbsWeights_cons (p : Priority) (ps : list Priority) :
  sumAbsWeights (p :: ps) == Qabs (weight p) + sumAbsWeights ps.
Proof.
  unfold sumAbsWeights, Qlist_sum. simpl. rewrite fold_Qplus_shift. lra.
Qed.

Lemma fold_nadd_app (xs : list num) (a b : num) :
  fold_left nadd (xs ++ [b])%list a = nadd (fold_left nadd xs a) b.
Proof. by rewrite fold_left_app. Qed.

Lemma sumContributions_snoc (rs : list Reason) (r : Reason) :
  sumContributions (rs ++ [r])%list = nadd (sumContributions rs) (weightContribution r).
Proof. unfold sumContributions. by rewrite map_app, fold_left_app. Qed.

Lemma calculateCriteriaScore_Some (opt : NormalizedOption) (p : Priority)
  (stats : gmap string Stats) (result : CriteriaResult) :
  calculateCriteriaScore opt p stats = Some result ->
  exists score_,
    res_score result = round2 score_ /\
    weightContribution (res_reason result) = round2 (nmul score_ (Fin (weight p))).
Proof.
  unfold calculateCriteriaScore.
  destruct (getNestedValue (normalizedFeatures opt) (criteria p)) as [nv |]; [| discriminate].
  destruct (getNestedValue _ (criteria p)) as [rv |]; [| discriminate].
  intros [= <-]. simpl. eexists. split; [reflexivity |].
  unfold generateCriteriaReason. by destruct (performanceOf _ _).
Qed.

Lemma contribution_step_error (sq w : Q) :
  Qabs (Qround2 sq * w - Qround2 (sq * w)) <= (Qabs w + 1) * (1 # 200).
Proof.
  pose proof (Qround2_error sq) as H1. pose proof (Qround2_error (sq * w)) as H2.
  assert (E : Qround2 sq * w - Qround2 (sq * w)
              == (Qround2 sq - sq) * w + - (Qround2 (sq * w) - sq * w)) by ring.
  rewrite E. eapply Qle_trans; [apply Qabs_triangle |].
  rewrite Qabs_opp, Qabs_Qmult.
  assert (H3 : Qabs (Qround2 sq - sq) * Qabs w <= (1 # 200) * Qabs w).
  { apply Qmult_le_compat_r; [exact H1 | apply Qabs_nonneg]. }
  lra.
Qed.

Lemma scoreStep_Some stats opt cs rs tot p result :
  calculateCriteriaScore opt p stats = Some result ->
  scoreStep stats opt (cs, rs, tot) p
  = (<[criteria p := {| score := res_score result;
                        normalizedValue := res_normalizedValue result;
                        rawValue := res_rawValue result |}]> cs,
     (rs ++ [res_reason result])%list,
     nadd tot (nmul (res_score result) (Fin (weight p)))).
Proof. intros H. unfold scoreStep. by rewrite H. Qed.

Lemma scoreStep_None stats opt cs rs tot p :
  calculateCriteriaScore opt p stats = None ->
  scoreStep stats opt (cs, rs, tot) p
  = (cs, (rs ++ [missingDataReason opt p])%list, tot).
Proof. intros H. unfold scoreStep. by rewrite H. Qed.

(** Once the running total is NaN it stays NaN. *)
Lemma score_fold_NaN stats opt (ps : list Priority) :
  forall cs rs, exists cs' rs',
    fold_left (scoreStep stats opt) ps (cs, rs, NaN) = (cs', rs', NaN).
Proof.
  induction ps as [| p ps IH]; intros cs rs; [by eauto |].
  cbn [fold_left].
  destruct (calculateCriteriaScore opt p stats) as [result |] eqn:Hres.
  - rewrite (scoreStep_Some _ _ _ _ _ _ _ Hres). apply IH.
  - rewrite (scoreStep_None _ _ _ _ _ _ Hres). apply IH.
Qed.

Lemma score_fold_bound (stats : gmap string Stats) (opt : NormalizedOption)
  (ps : list Priority) :
  forall cs rs tot cs' rs' tot' T' S,
    fold_left (scoreStep stats opt) ps (cs, rs, tot) = (cs', rs', tot') ->
    tot' = Fin T' -> sumContributions rs = Fin S ->
    exists T S', tot = Fin T /\ sumContributions rs' = Fin S' /\
      Qabs ((T' - S') - (T - S))
      <= (inject_Z (Z.of_nat (length ps)) + sumAbsWeights ps) * (1 # 200).
Proof.
  induction ps as [| p ps IH]; intros cs rs tot cs' rs' tot' T' S Hfold HT' HS.
  - cbn [fold_left] in Hfold. injection Hfold as <- <- <-.
    exists T', S. repeat split; try done.
    assert (E : T' - S - (T' - S) == 0) by ring.
    rewrite E. by vm_compute.
  - cbn [fold_left] in Hfold.
    assert (Hlen : inject_Z (Z.of_nat (length (p :: ps)))
                   == 1 + inject_Z (Z.of_nat (length ps))).
    { cbn [length]. rewrite Nat2Z.inj_succ, <- Z.add_1_r, inject_Z_plus.
      change (inject_Z 1) with 1. ring. }
    destruct (calculateCriteriaScore opt p stats) as [result |] eqn:Hres.
    + rewrite (scoreStep_Some _ _ _ _ _ _ _ Hres) in Hfold.
      destruct (calculateCriteriaScore_Some _ _ _ _ Hres) as (score_ & Hsc & Hwc).
      destruct (nadd tot (nmul (res_score result) (Fin (weight p)))) as [T1 |] eqn:Htot.
      2: { destruct (score_fold_NaN stats opt ps
                       (<[criteria p := {| score := res_score result;
                                           normalizedValue := res_normalizedValue result;
                                           rawValue := res_rawValue result |}]> cs)
                       (rs ++ [res_reason result])%list) as (c' & r' & Hn).
           rewrite Hn in Hfold. congruence. }
      destruct tot as [T |]; [| discriminate].
      rewrite Hsc in Htot. destruct score_ as [sq |]; [| discriminate].
      rewrite round2_Fin in Htot. cbn [nmul nadd] in Htot. injection Htot as HT1.
      assert (HS1 : sumContributions (rs ++ [res_reason result])%list
                    = Fin (S + Qround2 (sq * weight p))).
      { by rewrite sumContributions_snoc, HS, Hwc. }
      destruct (IH _ _ _ _ _ _ T' _ Hfold HT' HS1) as (T1' & S' & HT1' & HS' & Hb).
      injection HT1' as <-.
      exists T, S'. repeat split; try done.
      pose proof (contribution_step_error sq (weight p)) as Hstep.
      assert (E : T' - S' - (T - S)
                  == (T' - S' - (T1 - (S + Qround2 (sq * weight p))))
                     + (Qround2 sq * weight p - Qround2 (sq * weight p))).
      { rewrite <- HT1. ring. }
      rewrite E, Hlen, sumAbsWeights_cons.
      eapply Qle_trans; [apply Qabs_triangle |]. lra.
    + rewrite (scoreStep_None _ _ _ _ _ _ Hres) in Hfold.
      assert (HS1 : sumContributions (rs ++ [missingDataReason opt p])%list = Fin (S + 0)).
      { by rewrite sumContributions_snoc, HS. }
      destruct (IH _ _ _ _ _ _ T' _ Hfold HT' HS1) as (T1 & S' & HT1 & HS' & Hb).
      exists T1, S'. repeat split; try done.
      assert (E : T' - S' - (T1 - S) == T' - S' - (T1 - (S + 0))) by ring.
      rewrite E, Hlen, sumAbsWeights_cons. pose proof (Qabs_nonneg (weight p)). lra.
Qed.

(** C6, as the code has it. For a scored option without missing data whose
    total is a number, under at most 1000 priorities with weights of
    magnitude at most 1 and criterion scores of moderate magnitude, the
    total differs from the sum of the weight contributions by at most
    [0.005 * (2 + n + sum of |weight|)] for [n] priorities: one rounding
    of the total, one per contribution, one per score weighted by its
    weight, and 0.005 for the rounding of the runtime's sums. *)
Theorem total_matches_contributions_within_rounding
  (options : list ValidOption) (priorities : list Priority) (so : ScoredOption) (t : Q) :
  so ∈ calculateWeightedScores options priorities ->
  noMissingData (reasons so) ->
  totalScore so = Fin t ->
  (length priorities <= 1000)%nat ->
  (forall p, p ∈ priorities -> Qabs (weight p) <= 1) ->
  (forall r d, r ∈ reasons so -> details r = Some d -> moderateNum (d_score d)) ->
  exists s, sumContributions (reasons so) = Fin s /\
    Qabs (t - s)
    <= (2 + inject_Z (Z.of_nat (length priorities)) + sumAbsWeights priorities) * (1 # 200).
Proof.
  rewrite calculateWeightedScores_map. intros Hin _ Ht _ _ _.
  apply list_elem_of_fmap in Hin as (v & -> & _).
  unfold scoreOption in *.
  destruct (fold_left _ priorities _) as [[cs' rs'] tot'] eqn:Hfold.
  cbn [totalScore reasons] in *. apply round2_Fin_inv in Ht as (T' & -> & ->).
  destruct (score_fold_bound _ _ _ _ _ _ _ _ _ T' 0 Hfold eq_refl eq_refl)
    as (T & S' & HT & HS' & Hb).
  injection HT as <-.
  exists S'. split; [exact HS' |].
  pose proof (Qround2_error T') as Hr.
  assert (E : Qround2 T' - S' == (Qround2 T' - T') + (T' - S' - (0 - 0))) by ring.
  rewrite E. eapply Qle_trans; [apply Qabs_triangle |]. lra.
Qed.

(** C6 as stated fails: with four priorities the gap reaches 0.02. *)
Lemma contributions_tolerance_counterexample :
  exists so t s,
    so ∈ RoundingExample.scoredOptions /\
    noMissingData (reasons so) /\
    totalScore so = Fin t /\
    sumContributions (reasons so) = Fin s /\
    ~ (Qabs (t - s) <= 1 # 100).
Proof.
  destruct RoundingExample.scoredOptions as [| so rest] eqn:E; [discriminate E |].
  vm_compute in E. injection E as <- _.
  eexists. eexists. eexists.
  split; [by left |].
  split; [repeat constructor; discriminate |].
  split; [reflexivity |]. split; [vm_compute; reflexivity |].
  vm_compute. intros H. by apply H.
Qed.

(** ** Confidence of the top recommendation *)

Lemma roundToDecimals2_Fin (q : Q) : roundToDecimals (Fin q) 2 = Fin (Qround2 q).
Proof. reflexivity. Qed.

Lemma Qround2_comp (x y : Q) : x == y -> Qround2 x == Qround2 y.
Proof.
  intros H. unfold Qround2.
  assert (E : Qround_half_up (x * 100) == Qround_half_up (y * 100)).
  { apply Qround_half_up_comp. by rewrite H. }
  by rewrite E.
Qed.

Lemma Qround2_range (x : Q) : 1 # 2 <= x <= 1 -> 1 # 2 <= Qround2 x <= 1.
Proof.
  intros [Hlo Hhi]. unfold Qround2, Qround_half_up.
  assert (H1 : (50 <= Qfloor (x * 100 + (1 # 2)))%Z).
  { apply (Z.le_trans _ (Qfloor 50)); [by vm_compute |].
    apply Qfloor_resp_le. lra. }
  assert (H2 : (Qfloor (x * 100 + (1 # 2)) <= 100)%Z).
  { apply (Z.le_trans _ (Qfloor (201 # 2))); [| by vm_compute].
    apply Qfloor_resp_le. lra. }
  set (z := Qfloor (x * 100 + (1 # 2))) in *.
  assert (E : inject_Z z / 100 == inject_Z z * (1 # 100)) by field.
  rewrite E.
  assert (H1' : inject_Z 50 <= inject_Z z) by (by rewrite <- Zle_Qle).
  assert (H2' : inject_Z z <= inject_Z 100) by (by rewrite <- Zle_Qle).
  change (inject_Z 50) with 50 in H1'. change (inject_Z 100) with 100 in H2'.
  split; lra.
Qed.

Lemma ndiv_100 (q : Q) : ndiv (Fin q) (Fin 100) = Fin (q / 100).
Proof. reflexivity. Qed.

Lemma calculateConfidence_two (top second : RankedOption) (rest : list RankedOption)
  (a b : Q) :
  totalScore (scored top) = Fin a -> totalScore (scored second) = Fin b -> b <= a ->
  exists c, calculateConfidence (top :: second :: rest) = Fin c /\
    num_eq (Fin c) (roundToDecimals (specConfidence (Fin a) (Fin b)) 2) /\
    1 # 2 <= c <= 1.
Proof.
  intros Ha Hb Hle. unfold calculateConfidence, specConfidence, clamp. rewrite Ha, Hb.
  cbn [nsub]. rewrite ndiv_100. cbn [Math_min Math_max nadd].
  rewrite !roundToDecimals2_Fin.
  set (x := (1 # 2) + Qmin ((a - b) / 100) (1 # 2)).
  assert (Hx : 1 # 2 <= x <= 1).
  { unfold x. assert (E : (a - b) / 100 == (a - b) * (1 # 100)) by field.
    split.
    - assert (0 <= Qmin ((a - b) / 100) (1 # 2)); [| lra].
      apply Q.min_glb; [rewrite E |]; lra.
    - pose proof (Q.le_min_r ((a - b) / 100) (1 # 2)). lra. }
  exists (Qround2 x). split; [reflexivity |]. split; [| by apply Qround2_range].
  cbn [num_eq]. apply Qround2_comp.
  rewrite Q.max_l by lra. rewrite Q.min_l by lra. reflexivity.
Qed.

Lemma ranked_prefix_of_full options constraints priorities settings :
  (forall n, max_results settings = Some n -> (0 < n)%Z) ->
  exists k,
    rankedOptions (scoreOptions options constraints priorities settings)
    = take k (rankOptions (scoredQualifying options constraints priorities)) /\
    (0 < k)%nat.
Proof.
  intros Hmax. rewrite scoreOptions_ranked, limitResults_positive by exact Hmax.
  destruct (max_results settings) as [n |] eqn:E.
  - exists (Z.to_nat n). split; [reflexivity |]. specialize (Hmax n eq_refl). lia.
  - exists (Datatypes.S (length (rankOptions (scoredQualifying options constraints priorities)))).
    split; [| lia]. symmetry. apply take_ge. lia.
Qed.

Lemma finiteTotals_key (l : list ScoredOption) (s : ScoredOption) :
  finiteTotals l -> s ∈ l -> totalScore s = Fin (totalKey s).
Proof.
  unfold finiteTotals. rewrite Forall_forall. intros H Hs. specialize (H s Hs).
  unfold totalKey. by destruct (totalScore s).
Qed.

Lemma top_two_ordered options constraints priorities settings
  (top second : RankedOption) (rest : list RankedOption) :
  finiteTotals (scoredQualifying options constraints priorities) ->
  (forall n, max_results settings = Some n -> (0 < n)%Z) ->
  rankedOptions (scoreOptions options constraints priorities settings)
  = top :: second :: rest ->
  exists a b, totalScore (scored top) = Fin a /\ totalScore (scored second) = Fin b /\ b <= a.
Proof.
  intros Hfin Hmax Hranked.
  destruct (ranked_prefix_of_full options constraints priorities settings Hmax)
    as (k & Hk & _).
  rewrite Hranked in Hk.
  pose proof (full_ranking_sorted _ Hfin) as Hs.
  destruct (rankOptions (scoredQualifying options constraints priorities))
    as [| x [| y tl]]; destruct k as [| [| k]]; try discriminate.
  cbn [take] in Hk. injection Hk as <- <- _. cbn [map] in Hs.
  assert (Hperm : Permutation (scored top :: scored second :: map scored tl)
                              (scoredQualifying options constraints priorities))
    by (rewrite Hs; apply stableSort_perm).
  assert (Hdesc : descending totalKey (scored top :: scored second :: map scored tl))
    by (rewrite Hs; apply stableSort_descending).
  exists (totalKey (scored top)), (totalKey (scored second)).
  split; [| split].
  - apply (finiteTotals_key _ _ Hfin). rewrite <- Hperm. by left.
  - apply (finiteTotals_key _ _ Hfin). rewrite <- Hperm. right. by left.
  - unfold descending in Hdesc. inversion Hdesc as [| ? ? _ Hall]; subst.
    by inversion Hall.
Qed.

Lemma safeTotals_finite (l : list ScoredOption) : safeTotals l -> finiteTotals l.
Proof.
  unfold safeTotals, finiteTotals. intros H. eapply Forall_impl; [exact H |].
  intros s Hs. cbv beta in Hs. destruct (totalScore s) as [q |]; [exact I | exact Hs].
Qed.

Lemma calculateConfidence_near_formula (top second : RankedOption)
  (rest : list RankedOption) (a b : Q) :
  totalScore (scored top) = Fin a -> totalScore (scored second) = Fin b -> b <= a ->
  exists c f, calculateConfidence (top :: second :: rest) = Fin c /\
    specConfidence (totalScore (scored top)) (totalScore (scored second)) = Fin f /\
    Qabs (c - f) <= 51 # 10000 /\
    1 # 2 <= c <= 1.
Proof.
  intros Ha Hb Hle.
  destruct (calculateConfidence_two top second rest a b Ha Hb Hle) as (c & Hc & Heq & Hrange).
  rewrite Ha, Hb. unfold specConfidence, clamp in *. cbn [nsub] in *.
  rewrite ndiv_100 in *. cbn [Math_min Math_max nadd] in *.
  rewrite roundToDecimals2_Fin in Heq. cbn [num_eq] in Heq.
  eexists c, _. split; [exact Hc |]. split; [reflexivity |]. split; [| exact Hrange].
  rewrite Heq. eapply Qle_trans; [apply Qround2_error |]. by vm_compute.
Qed.

(** C5, as the code has it. When every total is a number of safe magnitude
    and [max_results], if set, is positive: with two or more ranked options
    the confidence lies in [0.5, 1] and is the specification's formula
    rounded to two decimals, that is, within 0.005 of it (0.0051 with the
    rounding of the runtime); with one qualifying option it is 1; with
    none there is no recommendation. *)
Theorem confidence_of_top_recommendation
  (options : list DecisionOption) (constraints : list Constraint)
  (priorities : list Priority) (settings : Settings) :
  let res := scoreOptions options constraints priorities settings in
  let s := res_summary (processComparison options constraints priorities settings) in
  safeTotals (scoredQualifying options constraints priorities) ->
  (forall n, max_results settings = Some n -> (0 < n)%Z) ->
  match rankedOptions res with
  | [] => topRecommendation s = None
  | [top] => exists tr, topRecommendation s = Some tr /\ confidence tr = Fin 1
  | top :: second :: _ =>
      exists tr c f, topRecommendation s = Some tr /\ confidence tr = Fin c /\
        specConfidence (totalScore (scored top)) (totalScore (scored second)) = Fin f /\
        Qabs (c - f) <= 51 # 10000 /\
        1 # 2 <= c <= 1
  end /\
  (qualifying options constraints = [] -> topRecommendation s = None) /\
  (length (qualifying options constraints) = 1%nat ->
     exists tr, topRecommendation s = Some tr /\ confidence tr = Fin 1).
Proof.
  intros res s Hsafe Hmax.
  pose proof (safeTotals_finite _ Hsafe) as Hfin.
  assert (Hs : s = generateSummary res) by reflexivity.
  assert (Hcase :
    match rankedOptions res with
    | [] => topRecommendation s = None
    | [top] => exists tr, topRecommendation s = Some tr /\ confidence tr = Fin 1
    | top :: second :: _ =>
        exists tr c f, topRecommendation s = Some tr /\ confidence tr = Fin c /\
          specConfidence (totalScore (scored top)) (totalScore (scored second)) = Fin f /\
          Qabs (c - f) <= 51 # 10000 /\
          1 # 2 <= c <= 1
    end).
  { rewrite Hs. unfold generateSummary.
    destruct (rankedOptions res) as [| top [| second rest]] eqn:Hr;
      cbn [head topRecommendation].
    - reflexivity.
    - eexists. split; reflexivity.
    - destruct (top_two_ordered _ _ _ _ _ _ _ Hfin Hmax Hr) as (a & b & Ha & Hb & Hle).
      destruct (calculateConfidence_near_formula top second rest a b Ha Hb Hle)
        as (c & f & Hc & Hf & Hnear & Hb').
      eexists. exists c, f. split; [reflexivity |]. cbn [confidence].
      split; [exact Hc |]. split; [exact Hf |]. split; [exact Hnear | exact Hb']. }
  split; [exact Hcase |].
  destruct (ranked_prefix_of_full options constraints priorities settings Hmax) as (k & Hk & Hpos).
  fold res in Hk.
  assert (Hlen : length (rankOptions (scoredQualifying options constraints priorities))
                 = length (qualifying options constraints)).
  { rewrite rankOptions_length. unfold scoredQualifying.
    rewrite calculateWeightedScores_map. apply length_map. }
  split.
  - intros Hq. rewrite Hq in Hlen.
    destruct (rankOptions _) as [| x l]; [| discriminate].
    rewrite take_nil in Hk. by rewrite Hk in Hcase.
  - intros Hq. rewrite Hq in Hlen.
    destruct (rankOptions _) as [| x [| y l]]; try discriminate.
    destruct k as [| k]; [lia |]. simpl in Hk. rewrite take_nil in Hk.
    by rewrite Hk in Hcase.
Qed.

(** C5 as stated fails: the code rounds the formula to two decimals. *)
Lemma confidence_is_rounded_counterexample :
  exists top second rest tr,
    rankedOptions (scoreOptions GapExample.options [] GapExample.priorities noSettings)
    = top :: second :: rest /\
    topRecommendation (res_summary GapExample.results) = Some tr /\
    num_eq (confidence tr) (Fin (62 # 100)) /\
    num_eq (specConfidence (totalScore (scored top)) (totalScore (scored second)))
           (Fin (6234 # 10000)) /\
    ~ num_eq (confidence tr)
        (specConfidence (totalScore (scored top)) (totalScore (scored second))).
Proof.
  destruct (rankedOptions (scoreOptions GapExample.options [] GapExample.priorities noSettings))
    as [| top [| second rest]] eqn:E; try (vm_compute in E; discriminate E).
  vm_compute in E. injection E as <- <- <-.
  eexists. eexists. eexists. eexists.
  split; [reflexivity |]. split; [vm_compute; reflexivity |].
  vm_compute. split; [reflexivity |]. split; [reflexivity |]. discriminate.
Qed.

(** ** Missing data *)

Lemma calculateCriteriaScore_missing (opt : NormalizedOption) (p : Priority)
  (stats : gmap string Stats) :
  isMissing opt (criteria p) -> calculateCriteriaScore opt p stats = None.
Proof.
  unfold isMissing, calculateCriteriaScore. intros [-> | ->]; [reflexivity |].
  by destruct (getNestedValue _ _).
Qed.





(** ** Dotted paths *)

Lemma split_nonempty (sep : ascii) (s : string) : split sep s <> [].
Proof.
  destruct s as [| c t]; simpl; [discriminate |].
  destruct (Ascii.eqb c sep); [discriminate |].
  destruct (split sep t); discriminate.
Qed.

Lemma split_inj (sep : ascii) (s1 s2 : string) : split sep s1 = split sep s2 -> s1 = s2.
Proof.
  revert s2. induction s1 as [| c1 t1 IH]; intros [| c2 t2]; simpl; try reflexivity.
  - destruct (Ascii.eqb c2 sep).
    + intros [= H]. by destruct (split_nonempty sep t2).
    + destruct (split sep t2); discriminate.
  - destruct (Ascii.eqb c1 sep).
    + intros [= H]. by destruct (split_nonempty sep t1).
    + destruct (split sep t1); discriminate.
  - destruct (Ascii.eqb c1 sep) eqn:E1, (Ascii.eqb c2 sep) eqn:E2.
    + apply Ascii.eqb_eq in E1, E2. intros [= H]. subst. f_equal. by apply IH.
    + destruct (split sep t2); discriminate.
    + destruct (split sep t1); discriminate.
    + pose proof (split_nonempty sep t1) as N1. pose proof (split_nonempty sep t2) as N2.
      destruct (split sep t1) as [| h1 r1] eqn:S1; [done |].
      destruct (split sep t2) as [| h2 r2] eqn:S2; [done |].
      intros [= -> -> ->]. f_equal. apply IH. by rewrite S2.
Qed.

Lemma fold_getProp_None (ks : list string) : fold_left getProp ks None = None.
Proof. by induction ks. Qed.

Lemma getPath_nil (v : JsVal) : getPath v [] = Some v.
Proof. reflexivity. Qed.

Lemma getPath_cons (fs : list (string * JsVal)) (k : string) (ks : list string) :
  getPath (JObj fs) (k :: ks)
  = match lookupField k fs with Some v => getPath v ks | None => None end.
Proof.
  unfold getPath. simpl. destruct (lookupField k fs); [reflexivity |].
  apply fold_getProp_None.
Qed.

Lemma getPath_prim (p : prim) (k : string) (ks : list string) :
  getPath (JPrim p) (k :: ks) = None.
Proof. unfold getPath. simpl. apply fold_getProp_None. Qed.

Lemma lookup_assign_eq (k : string) (v : JsVal) (fs : list (string * JsVal)) :
  lookupField k (assignField k v fs) = Some v.
Proof.
  induction fs as [| [k' v'] fs IH]; simpl; [by rewrite String.eqb_refl |].
  destruct (String.eqb k k') eqn:E; simpl; rewrite E; [reflexivity | exact IH].
Qed.

Lemma lookup_assign_ne (k q : string) (v : JsVal) (fs : list (string * JsVal)) :
  k <> q -> lookupField q (assignField k v fs) = lookupField q fs.
Proof.
  intros Hne. induction fs as [| [k' v'] fs IH]; simpl.
  - apply String.eqb_neq in Hne. rewrite String.eqb_sym in Hne. by rewrite Hne.
  - destruct (String.eqb k k') eqn:E; simpl.
    + apply String.eqb_eq in E. subst k'.
      assert (Hq : String.eqb q k = false) by (apply String.eqb_neq; congruence).
      by rewrite Hq.
    + by rewrite IH.
Qed.

Lemma setPath_single (fs : list (string * JsVal)) (k : string) (v : JsVal) :
  setPath fs [k] v = assignField k v fs.
Proof. reflexivity. Qed.

Lemma setPath_cons (fs : list (string * JsVal)) (k k' : string) (ks : list string)
  (v : JsVal) :
  setPath fs (k :: k' :: ks) v
  = assignField k (JObj (setPath (match lookupField k fs with
                                  | Some (JObj cs) => cs
                                  | _ => []
                                  end) (k' :: ks) v)) fs.
Proof. reflexivity. Qed.

Lemma getPath_setPath_same (ks : list string) :
  forall fs v, ks <> [] -> getPath (JObj (setPath fs ks v)) ks = Some v.
Proof.
  induction ks as [| k ks IH]; intros fs v Hne; [done |].
  destruct ks as [| k' ks].
  - by rewrite setPath_single, getPath_cons, lookup_assign_eq.
  - rewrite setPath_cons, getPath_cons, lookup_assign_eq. by apply IH.
Qed.

Lemma getPath_setPath_other (ks : list string) :
  forall fs qs v,
    (exists p, getPath (JObj fs) ks = Some (JPrim p)) ->
    leafOrNone (getPath (JObj fs) qs) ->
    qs <> ks ->
    getPath (JObj (setPath fs ks (JPrim v))) qs = getPath (JObj fs) qs.
Proof.
  induction ks as [| k ks IH]; intros fs qs v [p Hp] Hq Hne.
  - rewrite getPath_nil in Hp. discriminate.
  - destruct qs as [| q qs].
    { rewrite getPath_nil in Hq. destruct Hq as [? | [? ?]]; discriminate. }
    rewrite getPath_cons in Hp.
    destruct (lookupField k fs) as [child |] eqn:Hk; [| discriminate].
    destruct (String.eqb_spec k q) as [-> | Hkq].
    + rewrite (getPath_cons fs), Hk in Hq. rewrite (getPath_cons fs), Hk.
      destruct ks as [| k' ks].
      * rewrite setPath_single, getPath_cons, lookup_assign_eq.
        rewrite getPath_nil in Hp. injection Hp as ->.
        destruct qs as [| q' qs]; [done |]. by rewrite !getPath_prim.
      * rewrite setPath_cons, Hk, getPath_cons, lookup_assign_eq.
        destruct child as [pc | cs]; [by rewrite getPath_prim in Hp |].
        apply IH; [by exists p | exact Hq | congruence].
    + destruct ks as [| k' ks].
      * by rewrite setPath_single, !getPath_cons, lookup_assign_ne.
      * by rewrite setPath_cons, !getPath_cons, lookup_assign_ne.
Qed.

Lemma getNestedValue_obj (fs : list (string * JsVal)) (path : string) :
  path <> "" -> getNestedValue (JObj fs) path = getPath (JObj fs) (split "." path).
Proof.
  intros Hne. unfold getNestedValue. simpl.
  apply String.eqb_neq in Hne. by rewrite Hne.
Qed.

Lemma getNestedValue_empty (obj : JsVal) : getNestedValue obj "" = None.
Proof. unfold getNestedValue. simpl. by rewrite orb_true_r. Qed.

Lemma getNestedValue_prim (p : prim) (path : string) : getNestedValue (JPrim p) path = None.
Proof. reflexivity. Qed.

Lemma setNestedValue_obj (fs : list (string * JsVal)) (path : string) (v : JsVal) :
  path <> "" -> setNestedValue (JObj fs) path v = JObj (setPath fs (split "." path) v).
Proof. intros Hne. unfold setNestedValue. apply String.eqb_neq in Hne. by rewrite Hne. Qed.

Lemma getNested_setNested_same (fs : list (string * JsVal)) (path : string) (v : JsVal) :
  path <> "" -> getNestedValue (setNestedValue (JObj fs) path v) path = Some v.
Proof.
  intros Hne. rewrite setNestedValue_obj, getNestedValue_obj by exact Hne.
  apply getPath_setPath_same, split_nonempty.
Qed.

Lemma getNested_setNested_other (fs : list (string * JsVal)) (path q : string) (v : prim) :
  (exists p, getNestedValue (JObj fs) path = Some (JPrim p)) ->
  leafOrNone (getNestedValue (JObj fs) q) ->
  q <> path ->
  getNestedValue (setNestedValue (JObj fs) path (JPrim v)) q = getNestedValue (JObj fs) q.
Proof.
  intros [p Hp] Hq Hne.
  destruct (String.eqb_spec path "") as [-> | Hpath].
  { by rewrite getNestedValue_empty in Hp. }
  rewrite setNestedValue_obj by exact Hpath.
  destruct (String.eqb_spec q "") as [-> | Hqne].
  { by rewrite !getNestedValue_empty. }
  rewrite !getNestedValue_obj by exact Hqne.
  rewrite getNestedValue_obj in Hp, Hq by assumption.
  apply getPath_setPath_other; [by exists p | exact Hq |].
  intros Heq. apply Hne. by apply (split_inj "."%char).
Qed.

(** ** The JSON round trip *)

Lemma lookupField_clone (k : string) (fs : list (string * JsVal)) :
  lookupField k (map (fun kv => (fst kv, jsonClone (snd kv))) fs)
  = jsonClone <$> lookupField k fs.
Proof.
  induction fs as [| [k' v'] fs IH]; simpl; [reflexivity |].
  destruct (String.eqb k k'); [reflexivity | exact IH].
Qed.

Lemma jsonClone_obj (fs : list (string * JsVal)) :
  jsonClone (JObj fs) = JObj (map (fun kv => (fst kv, jsonClone (snd kv))) fs).
Proof. reflexivity. Qed.

Lemma getPath_clone (ks : list string) :
  forall v, getPath (jsonClone v) ks = jsonClone <$> getPath v ks.
Proof.
  induction ks as [| k ks IH]; intros v; [reflexivity |].
  destruct v as [p | fs].
  - rewrite getPath_prim. by destruct p as [| | [|] |]; simpl; rewrite ?getPath_prim.
  - rewrite jsonClone_obj, !getPath_cons, lookupField_clone.
    destruct (lookupField k fs); simpl; [apply IH | reflexivity].
Qed.

Lemma getNestedValue_clone (obj : JsVal) (path : string) :
  getNestedValue (jsonClone obj) path = jsonClone <$> getNestedValue obj path.
Proof.
  destruct obj as [p | fs].
  - by destruct p as [| | [|] |].
  - destruct (String.eqb_spec path "") as [-> | Hne].
    + by rewrite !getNestedValue_empty.
    + rewrite jsonClone_obj, !getNestedValue_obj by exact Hne.
      rewrite <- jsonClone_obj. apply getPath_clone.
Qed.

(** ** Ranges *)

Lemma rangeStep_eq (options : list ValidOption) (acc : gmap string Range) (p : Priority) :
  rangeStep options acc p
  = match rangeOf options (criteria p) with
    | Some r => <[criteria p := r]> acc
    | None => acc
    end.
Proof. unfold rangeStep, rangeOf. by destruct (criterionValues options (criteria p)). Qed.

Lemma range_fold_lookup (options : list ValidOption) (ps : list Priority) :
  forall (acc : gmap string Range) (c : string),
    fold_left (rangeStep options) ps acc !! c
    = if bool_decide (c ∈ map criteria ps)
      then match rangeOf options c with Some r => Some r | None => acc !! c end
      else acc !! c.
Proof.
  induction ps as [| p ps IH]; intros acc c; [reflexivity |].
  cbn [fold_left map]. rewrite IH, rangeStep_eq.
  destruct (decide (c = criteria p)) as [-> | Hne].
  - rewrite (bool_decide_eq_true_2 (criteria p ∈ criteria p :: map criteria ps))
      by (by left).
    destruct (rangeOf options (criteria p)) as [r |] eqn:Hr.
    + by destruct (bool_decide _); rewrite ?lookup_insert_eq.
    + by destruct (bool_decide _).
  - assert (Hl : match rangeOf options (criteria p) with
                 | Some r => <[criteria p := r]> acc
                 | None => acc
                 end !! c = acc !! c).
    { destruct (rangeOf options (criteria p)); [| reflexivity].
      by rewrite lookup_insert_ne. }
    rewrite Hl.
    destruct (decide (c ∈ map criteria ps)) as [Hin | Hnin].
    + rewrite !bool_decide_eq_true_2; [reflexivity | by right | exact Hin].
    + rewrite !bool_decide_eq_false_2; [reflexivity | | exact Hnin].
      intros [? | ?]%elem_of_cons; done.
Qed.

Lemma computeRanges_lookup (options : list ValidOption) (priorities : list Priority)
  (p : Priority) :
  p ∈ priorities ->
  computeRanges options priorities !! criteria p = rangeOf options (criteria p).
Proof.
  intros Hp. unfold computeRanges. rewrite range_fold_lookup.
  rewrite bool_decide_eq_true_2 by (by apply (list_elem_of_fmap_2 criteria)).
  by destruct (rangeOf options (criteria p)).
Qed.

Lemma fold_Qmin_le (xs : list Q) :
  forall a, fold_left Qmin xs a <= a /\ forall x, x ∈ xs -> fold_left Qmin xs a <= x.
Proof.
  induction xs as [| y ys IH]; intros a; cbn [fold_left].
  - split; [lra | intros x Hx; by apply elem_of_nil in Hx].
  - destruct (IH (Qmin a y)) as [H1 H2].
    pose proof (Q.le_min_l a y). pose proof (Q.le_min_r a y).
    split; [lra |]. intros x [-> | Hx]%elem_of_cons; [lra | by apply H2].
Qed.

Lemma fold_Qmax_ge (xs : list Q) :
  forall a, a <= fold_left Qmax xs a /\ forall x, x ∈ xs -> x <= fold_left Qmax xs a.
Proof.
  induction xs as [| y ys IH]; intros a; cbn [fold_left].
  - split; [lra | intros x Hx; by apply elem_of_nil in Hx].
  - destruct (IH (Qmax a y)) as [H1 H2].
    pose proof (Q.le_max_l a y). pose proof (Q.le_max_r a y).
    split; [lra |]. intros x [-> | Hx]%elem_of_cons; [lra | by apply H2].
Qed.

Lemma Qlist_bounds (v : Q) (vs : list Q) (x : Q) :
  x ∈ v :: vs -> Qlist_min v vs <= x <= Qlist_max v vs.
Proof.
  unfold Qlist_min, Qlist_max.
  destruct (fold_Qmin_le vs v) as [H1 H2]. destruct (fold_Qmax_ge vs v) as [H3 H4].
  intros [-> | Hx]%elem_of_cons; split; auto.
Qed.

Lemma criterionValues_elem (options : list ValidOption) (c : string) (opt : ValidOption)
  (rv : JsVal) (q : Q) :
  opt ∈ options ->
  getNestedValue (features (vo_option opt)) c = Some rv ->
  rv <> JPrim PNull ->
  ToNumber (anyOfFeature (Some rv)) = Fin q ->
  q ∈ criterionValues options c.
Proof.
  intros Hopt Hraw Hnull Hnum. unfold criterionValues.
  apply list_elem_of_omap. exists (Fin q). split; [| reflexivity].
  rewrite <- Hnum. apply (list_elem_of_fmap_2 (fun v => ToNumber (anyOfFeature (Some v)))).
  apply list_elem_of_omap. exists (Some rv). split.
  - rewrite <- Hraw.
    by apply (list_elem_of_fmap_2 (fun o => getNestedValue (features (vo_option o)) c)).
  - destruct rv as [[| | |] |]; try reflexivity. done.
Qed.

(** ** Normalization *)

Lemma normalizeStep_eq (criteriaRanges : gmap string Range) (opt : ValidOption)
  (nf : JsVal) (p : Priority) :
  normalizeStep criteriaRanges opt nf p
  = match normalizedWrite criteriaRanges opt (criteria p) with
    | Some v => setNestedValue nf (criteria p) v
    | None => nf
    end.
Proof.
  unfold normalizeStep, normalizedWrite.
  destruct (getNestedValue _ _); [| reflexivity].
  destruct (criteriaRanges !! criteria p); [| reflexivity].
  by destruct (Qlt_bool 0 _).
Qed.

Lemma normalizedWrite_prim criteriaRanges opt c v :
  normalizedWrite criteriaRanges opt c = Some v -> exists n, v = JPrim (PNum n).
Proof.
  unfold normalizedWrite. destruct (getNestedValue _ _); [| discriminate].
  destruct (criteriaRanges !! c); [| discriminate].
  destruct (Qlt_bool 0 _); [| discriminate]. intros [= <-]. by eexists.
Qed.

Lemma normalizedWrite_raw criteriaRanges opt c v :
  normalizedWrite criteriaRanges opt c = Some v ->
  exists rv, getNestedValue (features (vo_option opt)) c = Some rv.
Proof.
  unfold normalizedWrite. destruct (getNestedValue _ _) as [rv |]; [| discriminate].
  intros _. by exists rv.
Qed.

Lemma plainLeaf_clone (v : option JsVal) : plainLeaf v -> jsonClone <$> v = v.
Proof.
  intros [-> | (p & -> & Hp)]; [reflexivity |].
  simpl. f_equal. destruct p as [| | [|] |]; try reflexivity. done.
Qed.

Lemma normalize_fold criteriaRanges (opt : ValidOption) (watched : list string) :
  (forall c, c ∈ watched -> plainLeaf (getNestedValue (features (vo_option opt)) c)) ->
  forall (todo done : list Priority) (nf : JsVal),
    (forall p, p ∈ todo -> criteria p ∈ watched) ->
    isObject nf = isObject (features (vo_option opt)) ->
    (forall c, c ∈ watched -> getNestedValue nf c = normalizedAt criteriaRanges opt done c) ->
    forall c, c ∈ watched ->
      getNestedValue (fold_left (normalizeStep criteriaRanges opt) todo nf) c
      = normalizedAt criteriaRanges opt (done ++ todo)%list c.
Proof.
  intros Hplain. induction todo as [| p todo IH]; intros done nf Hw Hobj Hinv c Hc.
  - rewrite app_nil_r. by apply Hinv.
  - cbn [fold_left].
    replace (done ++ p :: todo)%list with ((done ++ [p]) ++ todo)%list
      by (by rewrite <- app_assoc).
    assert (Hpw : criteria p ∈ watched) by (apply Hw; by left).
    apply IH; [intros; apply Hw; by right | | | exact Hc].
    + rewrite normalizeStep_eq.
      destruct (normalizedWrite criteriaRanges opt (criteria p)); [| exact Hobj].
      rewrite <- Hobj. destruct nf as [? | fs]; [reflexivity |].
      unfold setNestedValue. by destruct (String.eqb (criteria p) "").
    + clear c Hc. intros c Hc. rewrite normalizeStep_eq.
      unfold normalizedAt. rewrite map_app. cbn [map].
      destruct (normalizedWrite criteriaRanges opt (criteria p)) as [v |] eqn:Hwr.
      * destruct (normalizedWrite_prim _ _ _ _ Hwr) as [n ->].
        destruct (normalizedWrite_raw _ _ _ _ Hwr) as [rv Hrv].
        assert (Hfo : exists fs, nf = JObj fs).
        { destruct (features (vo_option opt)) as [? | ffs] eqn:Hf.
          - by rewrite getNestedValue_prim in Hrv.
          - destruct nf as [? | fs]; [discriminate | by exists fs]. }
        destruct Hfo as [fs ->].
        assert (Hne : criteria p <> "").
        { intros E. rewrite E in Hrv. by rewrite getNestedValue_empty in Hrv. }
        destruct (decide (c = criteria p)) as [-> | Hcp].
        -- rewrite getNested_setNested_same by exact Hne. rewrite Hwr.
           rewrite bool_decide_eq_true_2; [reflexivity |].
           apply elem_of_app. right. by left.
        -- rewrite getNested_setNested_other; [| | | exact Hcp].
           ++ rewrite (Hinv c Hc). unfold normalizedAt.
              destruct (normalizedWrite criteriaRanges opt c); [| reflexivity].
              destruct (decide (c ∈ map criteria done)) as [Hin | Hnin].
              ** rewrite !bool_decide_eq_true_2; [reflexivity | | exact Hin].
                 apply elem_of_app. by left.
              ** rewrite !bool_decide_eq_false_2; [reflexivity | | exact Hnin].
                 intros [? | [? | ?%elem_of_nil]%elem_of_cons]%elem_of_app; done.
           ++ rewrite (Hinv _ Hpw). unfold normalizedAt. rewrite Hwr.
              destruct (bool_decide _); [by eexists |].
              destruct (Hplain _ Hpw) as [E | (pr & E & _)]; [congruence | by exists pr].
           ++ rewrite (Hinv c Hc). unfold normalizedAt, leafOrNone.
              destruct (normalizedWrite criteriaRanges opt c) as [w |] eqn:Hwc.
              ** destruct (normalizedWrite_prim _ _ _ _ Hwc) as [m ->].
                 destruct (bool_decide _); [right; by eexists |].
                 destruct (Hplain _ Hc) as [E | (pr & E & _)]; [by left | right; by exists pr].
              ** destruct (Hplain _ Hc) as [E | (pr & E & _)]; [by left | right; by exists pr].
      * rewrite (Hinv c Hc). unfold normalizedAt.
        destruct (normalizedWrite criteriaRanges opt c) as [w |] eqn:Hwc; [| reflexivity].
        destruct (decide (c = criteria p)) as [-> | Hcp]; [congruence |].
        destruct (decide (c ∈ map criteria done)) as [Hin | Hnin].
        -- rewrite !bool_decide_eq_true_2; [reflexivity | | exact Hin].
           apply elem_of_app. by left.
        -- rewrite !bool_decide_eq_false_2; [reflexivity | | exact Hnin].
           intros [? | [? | ?%elem_of_nil]%elem_of_cons]%elem_of_app; done.
Qed.

Lemma normalizeOption_lookup criteriaRanges (opt : ValidOption) (priorities : list Priority)
  (p : Priority) :
  plainFeatures opt priorities -> p ∈ priorities ->
  getNestedValue (normalizedFeatures (normalizeOption criteriaRanges priorities opt))
                 (criteria p)
  = match normalizedWrite criteriaRanges opt (criteria p) with
    | Some v => Some v
    | None => getNestedValue (features (vo_option opt)) (criteria p)
    end.
Proof.
  intros Hplain Hp. unfold normalizeOption. cbn [normalizedFeatures].
  assert (Hw : forall c, c ∈ map criteria priorities ->
                 plainLeaf (getNestedValue (features (vo_option opt)) c)).
  { intros c (q & -> & Hq)%list_elem_of_fmap. by apply Hplain. }
  rewrite (normalize_fold criteriaRanges opt (map criteria priorities) Hw priorities []).
  - unfold normalizedAt. cbn [app].
    destruct (normalizedWrite _ _ _); [| reflexivity].
    rewrite bool_decide_eq_true_2; [reflexivity |].
    by apply (list_elem_of_fmap_2 criteria).
  - intros q Hq. by apply (list_elem_of_fmap_2 criteria).
  - by destruct (features (vo_option opt)) as [[| | [|] |] |].
  - intros c Hc. rewrite getNestedValue_clone, plainLeaf_clone by (by apply Hw).
    unfold normalizedAt. destruct (normalizedWrite _ _ _); [| reflexivity].
    rewrite bool_decide_eq_false_2; [reflexivity | apply not_elem_of_nil].
  - by apply (list_elem_of_fmap_2 criteria).
Qed.


Lemma normalized_in_unit_interval (q mn mx : Q) :
  mn <= q <= mx -> mn < mx ->
  exists x, ndiv (nsub (Fin q) (Fin mn)) (Fin (mx - mn)) = Fin x /\
            x == (q - mn) / (mx - mn) /\ 0 <= x <= 1.
Proof.
  intros [Hlo Hhi] Hlt. cbn [nsub ndiv].
  assert (E : Qeq_bool (mx - mn) 0 = false).
  { destruct (Qeq_bool (mx - mn) 0) eqn:E; [| reflexivity].
    apply Qeq_bool_iff in E. lra. }
  rewrite E. eexists. split; [reflexivity |]. split; [reflexivity |]. split.
  - apply Qle_shift_div_l; lra.
  - apply Qle_shift_div_r; lra.
Qed.






Lemma numberLeaf_plain (v : option JsVal) : numberLeaf v -> plainLeaf v.
Proof.
  intros [-> | (q & -> & _)]; [by left |]. right.
  exists (PNum (Fin q)). split; [reflexivity | discriminate].
Qed.

Lemma numberLeaf_scorable (v : option JsVal) : numberLeaf v -> scorableLeaf v.
Proof.
  intros [-> | (q & -> & _)]; [by left |]. right.
  exists (PNum (Fin q)), q. split; [reflexivity |]. split; [discriminate | reflexivity].
Qed.

Lemma numberData_plain (options : list ValidOption) (priorities : list Priority)
  (opt : ValidOption) :
  numberData options priorities -> opt ∈ options -> plainFeatures opt priorities.
Proof. intros [_ H] Hopt p Hp. by apply numberLeaf_plain, H. Qed.

Lemma numberData_scorable (options : list ValidOption) (priorities : list Priority) :
  numberData options priorities -> scorableFeatures options priorities.
Proof. intros [_ H] opt p Hopt Hp. by apply numberLeaf_scorable, H. Qed.



(** ** Finite totals *)

Lemma numericLeaf_plain (v : option JsVal) : numericLeaf v -> plainLeaf v.
Proof.
  intros [-> | (p & q & -> & Hq)]; [by left |]. right. exists p. split; [reflexivity |].
  intros ->. discriminate.
Qed.

Lemma score_fold_finite stats opt (ps : list Priority) :
  (forall p result, p ∈ ps -> calculateCriteriaScore opt p stats = Some result ->
     isFinite (res_score result)) ->
  forall cs rs T, exists cs' rs' T',
    fold_left (scoreStep stats opt) ps (cs, rs, Fin T) = (cs', rs', Fin T').
Proof.
  induction ps as [| p ps IH]; intros Hfin cs rs T; cbn [fold_left]; [by eauto |].
  destruct (calculateCriteriaScore opt p stats) as [result |] eqn:Hres.
  - rewrite (scoreStep_Some _ _ _ _ _ _ _ Hres).
    pose proof (Hfin p result ltac:(by left) Hres) as Hr.
    destruct (res_score result) as [q |]; [| done]. cbn [nmul nadd].
    apply IH. intros. eapply Hfin; [by right | done].
  - rewrite (scoreStep_None _ _ _ _ _ _ Hres).
    apply IH. intros. eapply Hfin; [by right | done].
Qed.

Lemma round2_finite (a : num) : isFinite a -> isFinite (round2 a).
Proof. by destruct a. Qed.

(** With numeric values at the priority criteria every total is a number. *)
Lemma numeric_features_finite_totals (options : list ValidOption)
  (priorities : list Priority) :
  numericFeatures options priorities ->
  finiteTotals (calculateWeightedScores options priorities).
Proof.
  intros Hnum. unfold finiteTotals. rewrite Forall_forall. intros so Hso.
  rewrite calculateWeightedScores_map in Hso.
  apply list_elem_of_fmap in Hso as (opt & -> & Hopt).
  set (n := normalizeOption (computeRanges options priorities) priorities opt).
  assert (Hplain : plainFeatures opt priorities).
  { intros p Hp. apply numericLeaf_plain. by apply Hnum. }
  destruct (score_fold_finite (calculateCriteriaStatistics options priorities) n priorities)
    with (cs := (∅ : gmap string CriterionScore)) (rs := @nil Reason) (T := 0)
    as (cs' & rs' & T' & Hfold).
  - intros p result Hp Hres. unfold calculateCriteriaScore in Hres.
    unfold n in Hres at 1. rewrite (normalizeOption_lookup _ _ _ _ Hplain Hp) in Hres.
    change (no_option n) with opt in Hres.
    destruct (Hnum opt p Hopt Hp) as [Hraw | (pr & q & Hraw & Hq)].
    { rewrite Hraw in Hres. unfold normalizedWrite in Hres. rewrite Hraw in Hres.
      discriminate. }
    unfold normalizedWrite in Hres. rewrite Hraw in Hres.
    change (ToNumber (anyOfFeature (Some (JPrim pr)))) with (primToNumber pr) in Hres.
    rewrite Hq in Hres.
    assert (Hnv : forall nv, nv = JPrim pr \/
                    (exists rg, 0 < r_range rg /\
                       nv = JPrim (PNum (ndiv (nsub (Fin q) (Fin (r_min rg)))
                                              (Fin (r_range rg))))) ->
                  isFinite (ToNumber (anyOfFeature (Some nv)))).
    { intros nv [-> | (rg & Hpos & ->)]; cbn [anyOfFeature ToNumber].
      - by rewrite Hq.
      - cbn [primToNumber nsub ndiv].
        assert (E : Qeq_bool (r_range rg) 0 = false).
        { destruct (Qeq_bool (r_range rg) 0) eqn:E; [| reflexivity].
          apply Qeq_bool_iff in E. lra. }
        by rewrite E. }
    assert (Hfinal : forall nv, isFinite (ToNumber (anyOfFeature (Some nv))) ->
              isFinite (round2 (if isMinimize p
                                then nsub (Fin 100) (nmul (ToNumber (anyOfFeature (Some nv))) (Fin 100))
                                else nmul (ToNumber (anyOfFeature (Some nv))) (Fin 100)))).
    { intros nv Hf. apply round2_finite.
      destruct (ToNumber (anyOfFeature (Some nv))); [| done]. by destruct (isMinimize p). }
    destruct (computeRanges options priorities !! criteria p) as [rg |].
    + destruct (Qlt_bool 0 (r_range rg)) eqn:Hpos.
      * injection Hres as <-.
        apply (Hfinal (JPrim (PNum (ndiv (nsub (Fin q) (Fin (r_min rg)))
                                         (Fin (r_range rg)))))).
        apply Hnv. right. exists rg. split; [by apply Qlt_bool_iff | reflexivity].
      * injection Hres as <-. apply (Hfinal (JPrim pr)). apply Hnv. by left.
    + injection Hres as <-. apply (Hfinal (JPrim pr)). apply Hnv. by left.
  - unfold scoreOption. fold n. rewrite Hfold. cbn [totalScore]. by apply round2_finite.
Qed.

(** C9 as stated fails: "Cost" contains "cost" up to case and is not shown
    as currency, and a performance value keeps its decimals. *)
Lemma format_rules_counterexample :
  includes (toLowerCase "Cost") "cost" = true /\
  formatDisplayValue (APrim (PNum (Fin 5))) "Cost" = "5.0" /\
  specFormatDisplayValue (APrim (PNum (Fin 5))) "Cost" = "$5.000" /\
  formatDisplayValue (APrim (PNum (Fin (25005 # 10)))) "performance" = "2,500.5" /\
  specFormatDisplayValue (APrim (PNum (Fin (25005 # 10)))) "performance" = "2,501" /\
  formatDisplayValue (APrim (PNum (Fin 5))) "Cost"
  <> specFormatDisplayValue (APrim (PNum (Fin 5))) "Cost".
Proof. vm_compute. repeat split. discriminate. Qed.

(** On names written in lower case, and integers under the performance
    rule, the code and the specification's wording agree. *)
Lemma format_agrees_on_lowercase_names (n : num) (criteria_ : string) :
  toLowerCase criteria_ = criteria_ ->
  (includes criteria_ "performance" || includes criteria_ "iops" = true ->
   Math_round n = n) ->
  specFormatDisplayValue (APrim (PNum n)) criteria_
  = formatDisplayValue (APrim (PNum n)) criteria_.
Proof.
  intros Hlow Hint. unfold specFormatDisplayValue, formatDisplayValue.
  cbv zeta. rewrite Hlow.
  destruct (includes criteria_ "cost" || includes criteria_ "price"); [reflexivity |].
  destruct (includes criteria_ "percent" || includes criteria_ "reliability"
            || includes criteria_ "uptime"); [reflexivity |].
  destruct (includes criteria_ "performance" || includes criteria_ "iops");
    [by rewrite Hint | reflexivity].
Qed.

(** ** Instances *)

Lemma scenarioB_ids_distinct : NoDup (map opt_id ScenarioB.options).
Proof. apply (bool_decide_unpack _). by vm_compute. Defined.

(** Scenario B: the option over the cost limit is reported and left out. *)
Lemma ranked_options_pass_required_constraints_witness :
  NoDup (map opt_id ScenarioB.options) /\
  (forall r, r ∈ rankedOptions ScenarioB.results ->
     passed (so_constraintCompliance (scored r)) = true) /\
  exists report,
    constraintResults ScenarioB.results !! "pricey" = Some report /\
    passed report = false /\
    length (constraintReasons report) = 1%nat.
Proof.
  split; [exact scenarioB_ids_distinct |].
  destruct (ranked_options_pass_required_constraints
              ScenarioB.options ScenarioB.constraints ScenarioA.priorities noSettings
              scenarioB_ids_distinct) as [Hranked Hmap].
  split.
  - intros r Hr. exact (proj1 (Hranked r Hr)).
  - destruct (Hmap ScenarioB.pricey) as (report & Hlook & Hreasons & Hfail).
    { right. right. left. }
    exists report. split; [exact Hlook |]. split.
    + apply Hfail. exists ScenarioB.costLimit.
      split; [left | split; reflexivity].
    + rewrite Hreasons. reflexivity.
Defined.

Lemma scenarioA_totals_finite :
  finiteTotals (scoredQualifying ScenarioA.options [] ScenarioA.priorities).
Proof. unfold finiteTotals. vm_compute. repeat constructor. Defined.

Lemma topOnly_positive : forall n, max_results topOnly = Some n -> (0 < n)%Z.
Proof. intros n [= <-]. reflexivity. Defined.

(** Scenario A cut to its first result. *)
Lemma ranking_is_stable_descending_order_witness :
  finiteTotals (scoredQualifying ScenarioA.options [] ScenarioA.priorities) /\
  (forall n, max_results topOnly = Some n -> (0 < n)%Z) /\
  map rank (rankOptions (scoredQualifying ScenarioA.options [] ScenarioA.priorities))
  = [1%nat; 2%nat] /\
  rankedOptions (scoreOptions ScenarioA.options [] ScenarioA.priorities topOnly)
  = take 1 (rankOptions (scoredQualifying ScenarioA.options [] ScenarioA.priorities)).
Proof.
  split; [exact scenarioA_totals_finite |]. split; [exact topOnly_positive |].
  destruct (ranking_is_stable_descending_order
              ScenarioA.options [] ScenarioA.priorities topOnly
              scenarioA_totals_finite topOnly_positive)
    as (_ & _ & _ & Hranks & Hcut & _ & _).
  split; [exact Hranks | exact Hcut].
Defined.

Lemma scenarioA_own : ownCriteria ScenarioA.priorities.
Proof.
  intros p Hp.
  apply elem_of_cons in Hp as [-> | Hp];
    [| apply elem_of_cons in Hp as [-> | Hp]; [| by apply elem_of_nil in Hp]];
    reflexivity.
Defined.

Lemma scenarioA_numberData : numberData ScenarioAValid.options ScenarioA.priorities.
Proof.
  split; [exact scenarioA_own |].
  intros opt p Hopt Hp. right.
  apply elem_of_cons in Hopt as [-> | Hopt];
    [| apply elem_of_cons in Hopt as [-> | Hopt]; [| by apply elem_of_nil in Hopt]];
    (apply elem_of_cons in Hp as [-> | Hp];
      [| apply elem_of_cons in Hp as [-> | Hp]; [| by apply elem_of_nil in Hp]]).
  - exists 100. split; [reflexivity | by vm_compute].
  - exists 80. split; [reflexivity | by vm_compute].
  - exists 150. split; [reflexivity | by vm_compute].
  - exists 90. split; [reflexivity | by vm_compute].
Defined.





Lemma noSettings_positive : forall n, max_results noSettings = Some n -> (0 < n)%Z.
Proof. intros n H. discriminate H. Defined.

Lemma gapExample_totals_safe :
  safeTotals (scoredQualifying GapExample.options [] GapExample.priorities).
Proof.
  unfold safeTotals. apply Forall_forall. intros s Hs. vm_compute in Hs.
  repeat (apply elem_of_cons in Hs as [-> | Hs]; [by vm_compute |]).
  by apply elem_of_nil in Hs.
Defined.

(** The confidence of the gap example lies between 0.5 and 1. *)
Lemma confidence_of_top_recommendation_witness :
  safeTotals (scoredQualifying GapExample.options [] GapExample.priorities) /\
  (forall n, max_results noSettings = Some n -> (0 < n)%Z) /\
  exists tr c,
    topRecommendation (res_summary GapExample.results) = Some tr /\
    confidence tr = Fin c /\ 1 # 2 <= c <= 1.
Proof.
  split; [exact gapExample_totals_safe |]. split; [exact noSettings_positive |].
  destruct (confidence_of_top_recommendation
              GapExample.options [] GapExample.priorities noSettings
              gapExample_totals_safe noSettings_positive) as [Hcase _].
  destruct (rankedOptions (scoreOptions GapExample.options [] GapExample.priorities noSettings))
    as [| top [| second rest]] eqn:E; try discriminate E.
  destruct Hcase as (tr & c & f & Htr & Hc & _ & _ & Hb).
  exists tr, c. split; [exact Htr |]. split; [exact Hc | exact Hb].
Defined.

Lemma roundingFirst_scored : roundingFirst ∈ RoundingExample.scoredOptions.
Proof. left. Defined.

Lemma roundingFirst_complete : noMissingData (reasons roundingFirst).
Proof. unfold noMissingData. vm_compute. repeat constructor; discriminate. Defined.

Lemma roundingExample_weights (p : Priority) :
  p ∈ RoundingExample.priorities -> Qabs (weight p) <= 1.
Proof.
  intros Hp. vm_compute in Hp.
  repeat (apply elem_of_cons in Hp as [-> | Hp]; [by vm_compute |]).
  by apply elem_of_nil in Hp.
Defined.

Lemma roundingFirst_moderate (r : Reason) (d : ReasonDetails) :
  r ∈ reasons roundingFirst -> details r = Some d -> moderateNum (d_score d).
Proof.
  intros Hr Hd. vm_compute in Hr.
  repeat (apply elem_of_cons in Hr as [-> | Hr];
            [vm_compute in Hd; injection Hd as <-; by vm_compute |]).
  by apply elem_of_nil in Hr.
Defined.

(** The rounding example stays within the bound for four priorities. *)
Lemma total_matches_contributions_within_rounding_witness :
  roundingFirst ∈ calculateWeightedScores RoundingExample.options RoundingExample.priorities /\
  noMissingData (reasons roundingFirst) /\
  totalScore roundingFirst = Fin (10002 # 100) /\
  (length RoundingExample.priorities <= 1000)%nat /\
  exists s : Q,
    sumContributions (reasons roundingFirst) = Fin s /\
    Qabs ((10002 # 100) - s)
    <= (2 + inject_Z (Z.of_nat (length RoundingExample.priorities))
        + sumAbsWeights RoundingExample.priorities) * (1 # 200).
Proof.
  assert (Hlen : (length RoundingExample.priorities <= 1000)%nat) by (vm_compute; lia).
  split; [exact roundingFirst_scored |]. split; [exact roundingFirst_complete |].
  split; [by vm_compute |]. split; [exact Hlen |].
  apply (total_matches_contributions_within_rounding
           RoundingExample.options RoundingExample.priorities roundingFirst (10002 # 100)
           roundingFirst_scored roundingFirst_complete);
    [by vm_compute | exact Hlen | exact roundingExample_weights
     | exact roundingFirst_moderate].
Defined.


(** A cost criterion renders as currency. *)
Lemma formatDisplayValue_rules_witness :
  includes "unit_cost" "cost" || includes "unit_cost" "price" = true /\
  formatDisplayValue (APrim (PNum (Fin 5))) "unit_cost" = "$" +:+ toFixed (Fin 5) 3.
Proof.
  split; [reflexivity |].
  exact (proj1 (formatDisplayValue_rules (Fin 5) "unit_cost") eq_refl).
Defined.


(** * Further properties *)

(** ** Dotted-path writes *)






(** ** Numeric helpers of utils.js *)

Lemma pow10_pos (d : nat) : 0 < pow10 d.
Proof.
  unfold pow10. change 0 with (inject_Z 0). rewrite <- Zlt_Qlt.
  apply Z.pow_pos_nonneg; lia.
Qed.

Lemma roundToDecimals_Fin (q : Q) (d : nat) :
  roundToDecimals (Fin q) d = Fin (Qround_half_up (q * pow10 d) / pow10 d).
Proof.
  unfold roundToDecimals. cbn [nmul Math_round ndiv].
  assert (E : Qeq_bool (pow10 d) 0 = false).
  { destruct (Qeq_bool (pow10 d) 0) eqn:E; [| reflexivity].
    apply Qeq_bool_iff in E. pose proof (pow10_pos d). lra. }
  by rewrite E.
Qed.

Lemma Qround_half_up_integer (z : Z) : Qround_half_up (inject_Z z) = inject_Z z.
Proof.
  unfold Qround_half_up. f_equal.
  assert (H1 : (z <= Qfloor (inject_Z z + (1 # 2)))%Z).
  { rewrite <- (Qfloor_Z z) at 1. apply Qfloor_resp_le. lra. }
  assert (H2 : (Qfloor (inject_Z z + (1 # 2)) < z + 1)%Z).
  {
    pose proof (Qfloor_le (inject_Z z + (1 # 2))) as Hle.
    rewrite Zlt_Qlt, inject_Z_plus. change (inject_Z 1) with 1. lra. }
  lia.
Qed.

(** X3. For a number of magnitude at most a million and at most six
    decimals, [roundToDecimals] moves the number by at most half a unit of
    the last kept decimal (0.51 of it with the rounding of the runtime),
    and rounding the result again changes nothing; NaN stays NaN. *)
Theorem roundToDecimals_properties (q : Q) (d : nat) :
  moderate q -> (d <= 6)%nat ->
  exists r,
    roundToDecimals (Fin q) d = Fin r /\
    Qabs (r - q) <= (51 # 100) / pow10 d /\
    num_eq (roundToDecimals (Fin r) d) (Fin r) /\
    roundToDecimals NaN d = NaN.
Proof.
  intros _ _.
  pose proof (pow10_pos d) as Hpos.
  set (z := Qfloor (q * pow10 d + (1 # 2))).
  exists (Qround_half_up (q * pow10 d) / pow10 d).
  assert (Hr : Qround_half_up (q * pow10 d) = inject_Z z) by reflexivity.
  assert (Hunit : inject_Z z / pow10 d * pow10 d == inject_Z z) by (field; lra).
  split; [apply roundToDecimals_Fin |]. split; [| split].
  - destruct (Qround_half_up_bounds (q * pow10 d)) as [Hlo Hhi].
    rewrite Hr in *.
    assert (E : inject_Z z / pow10 d - q == (inject_Z z - q * pow10 d) / pow10 d)
      by (field; lra).
    rewrite E. apply Qabs_Qle_condition. split.
    + apply Qle_shift_div_l; [exact Hpos |].
      assert (E2 : - ((51 # 100) / pow10 d) * pow10 d == - (51 # 100)) by (field; lra).
      rewrite E2. lra.
    + apply Qle_shift_div_r; [exact Hpos |].
      assert (E2 : (51 # 100) / pow10 d * pow10 d == 51 # 100) by (field; lra).
      rewrite E2. lra.
  - rewrite roundToDecimals_Fin. cbn [num_eq]. rewrite Hr.
    assert (E : Qround_half_up (inject_Z z / pow10 d * pow10 d) == inject_Z z).
    { rewrite (Qround_half_up_comp _ _ Hunit). by rewrite Qround_half_up_integer. }
    by rewrite E.
  - reflexivity.
Qed.

Lemma roundToDecimals_properties_witness :
  moderate (1234567 # 1000) /\ (2 <= 6)%nat /\
  exists r, roundToDecimals (Fin (1234567 # 1000)) 2 = Fin r /\
            Qabs (r - (1234567 # 1000)) <= (51 # 100) / pow10 2.
Proof.
  assert (Hm : moderate (1234567 # 1000)) by (by vm_compute).
  assert (Hd : (2 <= 6)%nat) by lia.
  split; [exact Hm |]. split; [exact Hd |].
  destruct (roundToDecimals_properties (1234567 # 1000) 2 Hm Hd) as (r & Hr & Hb & _).
  by exists r.
Defined.

(** X4. With [min <= max], [clamp] returns a number between the bounds, and
    the value itself when it already lies between them. *)
Theorem clamp_within_bounds (value lo hi : Q) :
  lo <= hi ->
  exists c, clamp (Fin value) (Fin lo) (Fin hi) = Fin c /\
            lo <= c <= hi /\ (lo <= value <= hi -> c == value).
Proof.
  intros H. unfold clamp. cbn [Math_max Math_min]. eexists. split; [reflexivity |].
  split; [split |].
  - apply Q.min_glb; [apply Q.le_max_r | exact H].
  - apply Q.le_min_r.
  - intros [H1 H2]. rewrite Q.max_l by exact H1. by rewrite Q.min_l.
Qed.

Lemma clamp_within_bounds_witness :
  0 <= 1 /\ exists c, clamp (Fin (3 # 2)) (Fin 0) (Fin 1) = Fin c /\ 0 <= c <= 1.
Proof.
  assert (H : 0 <= 1) by lra. split; [exact H |].
  destruct (clamp_within_bounds (3 # 2) 0 1 H) as (c & Hc & Hb & _).
  exists c. split; [exact Hc | exact Hb].
Defined.

Lemma fold_Qplus_bounds (xs : list Q) (lo hi : Q) :
  (forall x, x ∈ xs -> lo <= x <= hi) ->
  forall a,
    a + inject_Z (Z.of_nat (length xs)) * lo <= fold_left Qplus xs a /\
    fold_left Qplus xs a <= a + inject_Z (Z.of_nat (length xs)) * hi.
Proof.
  induction xs as [| x xs IH]; intros Hb a.
  - cbn [fold_left length]. change (inject_Z (Z.of_nat 0)) with 0. split; lra.
  - cbn [fold_left].
    destruct (IH (fun y Hy => Hb y (list_elem_of_further _ _ _ Hy)) (a + x)) as [H1 H2].
    destruct (Hb x (list_elem_of_here _ _)) as [Hx1 Hx2].
    assert (Hlen : inject_Z (Z.of_nat (length (x :: xs)))
                   == 1 + inject_Z (Z.of_nat (length xs))).
    { cbn [length]. rewrite Nat2Z.inj_succ, <- Z.add_1_r, inject_Z_plus.
      change (inject_Z 1) with 1. ring. }
    rewrite Hlen. split; lra.
Qed.

Lemma mean_between (v : Q) (vs : list Q) :
  Qlist_min v vs <= Qlist_sum (v :: vs) / inject_Z (Z.of_nat (length (v :: vs)))
  /\ Qlist_sum (v :: vs) / inject_Z (Z.of_nat (length (v :: vs))) <= Qlist_max v vs.
Proof.
  assert (Hpos : 0 < inject_Z (Z.of_nat (length (v :: vs)))).
  { change 0 with (inject_Z 0). rewrite <- Zlt_Qlt. cbn [length]. lia. }
  destruct (fold_Qplus_bounds (v :: vs) (Qlist_min v vs) (Qlist_max v vs)
              (fun x Hx => Qlist_bounds v vs x Hx) 0) as [H1 H2].
  unfold Qlist_sum. split.
  - apply Qle_shift_div_l; [exact Hpos |]. lra.
  - apply Qle_shift_div_r; [exact Hpos |]. lra.
Qed.

(** X5. [average] ignores NaN entries: it is 0 when no number is left;
    otherwise, for at most 1000 numbers of magnitude at most a million, it
    lies between the least and the greatest of the numbers, up to the
    rounding of the runtime. *)
Theorem average_between_extremes (numbers : list num) :
  (length numbers <= 1000)%nat ->
  (forall q, Fin q ∈ numbers -> moderate q) ->
  match validNumbers numbers with
  | [] => average numbers = Fin 0
  | v :: vs =>
      exists a, average numbers = Fin a /\
                Qlist_min v vs - slack <= a <= Qlist_max v vs + slack
  end.
Proof.
  intros _ _. unfold average. destruct numbers as [| n ns]; [reflexivity |].
  destruct (validNumbers (n :: ns)) as [| v vs]; [reflexivity |].
  eexists. split; [reflexivity |].
  pose proof (mean_between v vs) as [H1 H2].
  assert (Hs : 0 <= slack) by (by vm_compute). split; lra.
Qed.

Lemma average_between_extremes_witness :
  (length [Fin 1; NaN; Fin 2] <= 1000)%nat /\
  (forall q, Fin q ∈ [Fin 1; NaN; Fin 2] -> moderate q) /\
  exists a, average [Fin 1; NaN; Fin 2] = Fin a /\ 1 - slack <= a <= 2 + slack.
Proof.
  assert (Hlen : (length [Fin 1; NaN; Fin 2] <= 1000)%nat) by (cbn [length]; lia).
  assert (Hm : forall q, Fin q ∈ [Fin 1; NaN; Fin 2] -> moderate q).
  { intros q Hq.
    repeat (apply elem_of_cons in Hq as [Hq | Hq];
              [first [discriminate Hq | injection Hq as ->; by vm_compute] |]).
    by apply elem_of_nil in Hq. }
  split; [exact Hlen |]. split; [exact Hm |].
  exact (average_between_extremes [Fin 1; NaN; Fin 2] Hlen Hm).
Defined.

Lemma sortWith_ascending (l : list Q) :
  sortWith (fun a b => Fin (a - b)) l = stableSort (keyDesc Qopp) l.
Proof.
  unfold sortWith. apply stableSort_ext. intros x y _ _.
  unfold ngt, nlt, keyDesc.
  destruct (Qlt_bool 0 (x - y)) eqn:E.
  - apply Qlt_bool_iff in E. symmetry. apply Qlt_bool_iff. lra.
  - apply Qlt_bool_false in E. symmetry. apply Qlt_bool_false. lra.
Qed.

Lemma sortWith_ascending_elem (l : list Q) (x : Q) :
  x ∈ sortWith (fun a b => Fin (a - b)) l <-> x ∈ l.
Proof. unfold sortWith. by rewrite stableSort_perm. Qed.

Lemma sortWith_ascending_length (l : list Q) :
  length (sortWith (fun a b => Fin (a - b)) l) = length l.
Proof. unfold sortWith. apply Permutation_length, stableSort_perm. Qed.

Lemma nth_sorted_bounds (v : Q) (vs : list Q) (i : nat) :
  (i < length (v :: vs))%nat ->
  Qlist_min v vs <= nth i (sortWith (fun a b => Fin (a - b)) (v :: vs)) 0 <= Qlist_max v vs.
Proof.
  intros Hi. apply Qlist_bounds. apply sortWith_ascending_elem.
  apply list_elem_of_In, nth_In. by rewrite sortWith_ascending_length.
Qed.

(** X6. [median] ignores NaN entries: it is 0 when no number is left, and
    otherwise, the numbers being of safe magnitude, lies between the least
    and the greatest of them. *)
Theorem median_between_extremes (numbers : list num) :
  (forall q, Fin q ∈ numbers -> safe q) ->
  match validNumbers numbers with
  | [] => median numbers = Fin 0
  | v :: vs =>
      exists m, median numbers = Fin m /\ Qlist_min v vs <= m <= Qlist_max v vs
  end.
Proof.
  intros _. unfold median. destruct numbers as [| n ns]; [reflexivity |].
  destruct (validNumbers (n :: ns)) as [| v vs] eqn:Hv; [reflexivity |].
  cbv zeta.
  pose proof (sortWith_ascending_length (v :: vs)) as Hlen.
  pose proof (nth_sorted_bounds v vs) as Hb.
  remember (sortWith (fun a b => Fin (a - b)) (v :: vs)) as sorted eqn:Hs.
  destruct sorted as [| s ss]; [discriminate Hlen |].
  rewrite Hlen.
  assert (Hmid : (length (v :: vs) / 2 < length (v :: vs))%nat).
  { apply Nat.div_lt; cbn [length]; lia. }
  pose proof (Hb _ Hmid) as [H1 H2].
  destruct (Nat.even (length (v :: vs))).
  - assert (Hpre : (length (v :: vs) / 2 - 1 < length (v :: vs))%nat) by lia.
    pose proof (Hb _ Hpre) as [H3 H4].
    eexists. split; [reflexivity |].
    set (a := nth (length (v :: vs) / 2 - 1) _ 0) in *.
    set (b := nth (length (v :: vs) / 2) _ 0) in *.
    assert (E : (a + b) / 2 == (a + b) * (1 # 2)) by field.
    rewrite E. split; lra.
  - eexists. split; [reflexivity |]. by split.
Qed.

Lemma median_between_extremes_witness :
  (forall q, Fin q ∈ [Fin 3; NaN; Fin 1; Fin 2] -> safe q) /\
  exists m, median [Fin 3; NaN; Fin 1; Fin 2] = Fin m /\ 1 <= m <= 3.
Proof.
  assert (Hs : forall q, Fin q ∈ [Fin 3; NaN; Fin 1; Fin 2] -> safe q).
  { intros q Hq.
    repeat (apply elem_of_cons in Hq as [Hq | Hq];
              [first [discriminate Hq | injection Hq as ->; by vm_compute] |]).
    by apply elem_of_nil in Hq. }
  split; [exact Hs |].
  exact (median_between_extremes [Fin 3; NaN; Fin 1; Fin 2] Hs).
Defined.

(** ** sanitizeString *)

Lemma removeAngles_chars (s : string) (c : ascii) :
  In c (list_ascii_of_string (removeAngles s)) ->
  In c (list_ascii_of_string s) /\ c <> "<"%char /\ c <> ">"%char.
Proof.
  induction s as [| a t IH]; simpl; [tauto |].
  destruct (Ascii.eqb a "<") eqn:E1; simpl.
  - intros H. destruct (IH H) as (? & ? & ?). auto.
  - destruct (Ascii.eqb a ">") eqn:E2; simpl.
    + intros H. destruct (IH H) as (? & ? & ?). auto.
    + intros [<- | H].
      * split; [by left |]. apply Ascii.eqb_neq in E1, E2. by split.
      * destruct (IH H) as (? & ? & ?). auto.
Qed.

Lemma dropSpaces_In (l : list ascii) (c : ascii) : In c (dropSpaces l) -> In c l.
Proof.
  induction l as [| a t IH]; simpl; [tauto |].
  destruct (isSpace a); [intros H; right; by apply IH | tauto].
Qed.

Lemma trim_chars (s : string) (c : ascii) :
  In c (list_ascii_of_string (trim s)) -> In c (list_ascii_of_string s).
Proof.
  unfold trim, trimChars. rewrite list_ascii_of_string_of_list_ascii.
  intros H. apply in_rev, dropSpaces_In, in_rev in H. by apply dropSpaces_In.
Qed.

Lemma substring0_chars (m : nat) :
  forall s c, In c (list_ascii_of_string (String.substring 0 m s)) ->
              In c (list_ascii_of_string s).
Proof.
  induction m as [| m IH]; intros [| a t] c; simpl; try tauto.
  intros [<- | H]; [by left | right; by apply IH].
Qed.

Lemma substring0_length (m : nat) :
  forall s, (String.length (String.substring 0 m s) <= m)%nat.
Proof.
  induction m as [| m IH]; intros [| a t]; simpl; try lia.
  specialize (IH t). lia.
Qed.

(** X7. Whatever it is given, [sanitizeString] returns a text of at most
    1000 characters that contains neither [<] nor [>], made of characters
    of the input; a value that is not a string gives the empty text. *)
Theorem sanitizeString_safe (str : JsAny) :
  (String.length (sanitizeString str) <= 1000)%nat /\
  (forall c, In c (list_ascii_of_string (sanitizeString str)) ->
             c <> "<"%char /\ c <> ">"%char /\
             exists s, str = APrim (PStr s) /\ In c (list_ascii_of_string s)) /\
  ((forall s, str <> APrim (PStr s)) -> sanitizeString str = "").
Proof.
  split; [| split].
  - destruct str as [| [| | |s] | |]; simpl; try lia. apply substring0_length.
  - intros c Hc. destruct str as [| [| | |s] | |]; simpl in Hc; try tauto.
    apply substring0_chars, trim_chars, removeAngles_chars in Hc as (Hin & H1 & H2).
    split; [exact H1 |]. split; [exact H2 |]. by exists s.
  - intros H. destruct str as [| [| | |s] | |]; try reflexivity. by destruct (H s).
Qed.

(** ** Constraint evaluation *)

(** X8. A constraint on a path of own properties at which the attribute
    is absent or null fails whatever its operator ([neq] included), and so
    does a constraint whose operator is not one of the eight supported;
    when such a constraint is required the option does not pass. *)
Theorem evaluateConstraint_fails_closed
  (opt : DecisionOption) (c : Constraint) (constraints : list Constraint) :
  (ownPath (c_criteria c) /\
   isNullish (getNestedValue (features opt) (c_criteria c)) = true) \/
  operator c ∉ supportedOperators ->
  evaluateConstraint opt c = false /\
  (c ∈ constraints -> isRequired c = true -> passed (complianceOf opt constraints) = false).
Proof.
  intros H.
  assert (Hev : evaluateConstraint opt c = false).
  { unfold evaluateConstraint. destruct H as [[_ H] | H].
    - destruct (getNestedValue _ _) as [[[| | |] |] |]; try reflexivity; discriminate H.
    - destruct (getNestedValue _ _) as [[[| | |] |] |]; try reflexivity;
        repeat match goal with
               | |- context [String.eqb (operator c) ?s] =>
                   destruct (String.eqb_spec (operator c) s) as [E | _];
                   [exfalso; apply H; rewrite E; unfold supportedOperators; set_solver |]
               end; reflexivity. }
  split; [exact Hev |]. intros Hin Hreq.
  destruct (passed (complianceOf opt constraints)) eqn:Hp; [| reflexivity].
  rewrite (proj1 (complianceOf_passed opt constraints) Hp c Hin Hreq) in Hev. discriminate.
Qed.

Lemma evaluateConstraint_fails_closed_witness :
  ((ownPath "performance" /\
    isNullish (getNestedValue (features MissingExample.bare) "performance") = true) \/
   "neq" ∉ supportedOperators) /\
  evaluateConstraint MissingExample.bare
    {| c_criteria := "performance"; operator := "neq"; c_value := CPrim (PNum (Fin 5));
       required := None |} = false.
Proof.
  split; [by left |].
  apply (evaluateConstraint_fails_closed MissingExample.bare
           {| c_criteria := "performance"; operator := "neq";
              c_value := CPrim (PNum (Fin 5)); required := None |} []).
  by left.
Defined.

Lemma nlt_nge_finite (a b : Q) : nlt (Fin a) (Fin b) = negb (nge (Fin a) (Fin b)).
Proof.
  unfold nge, nle, nlt. destruct (Qlt_bool a b) eqn:E.
  - apply Qlt_bool_iff in E. destruct (Qle_bool b a) eqn:E2; [| reflexivity].
    apply Qle_bool_iff in E2. lra.
  - apply Qlt_bool_false in E. apply Qle_bool_iff in E. by rewrite E.
Qed.

(** X9. For an attribute that is present and not null: [neq] holds exactly
    when [eq] fails; when attribute and operand both convert to numbers,
    [lt] is the opposite of [gte], [gt] the opposite of [lte], and [lt]
    implies [lte]; when either converts to NaN all four comparisons fail. *)
Theorem evaluateConstraint_operator_laws (opt : DecisionOption) (c : Constraint) :
  let holds op := evaluateConstraint opt (withOperator c op) in
  let value := getNestedValue (features opt) (c_criteria c) in
  isNullish value = false ->
  holds "neq" = negb (holds "eq") /\
  (forall a b, ToNumber (anyOfFeature value) = Fin a ->
               ToNumber (anyOfOperand (c_value c)) = Fin b ->
     holds "lt" = negb (holds "gte") /\ holds "gt" = negb (holds "lte") /\
     (holds "lt" = true -> holds "lte" = true)) /\
  (ToNumber (anyOfFeature value) = NaN \/ ToNumber (anyOfOperand (c_value c)) = NaN ->
   holds "lt" = false /\ holds "lte" = false /\ holds "gt" = false /\ holds "gte" = false).
Proof.
  intros holds value Hpresent. subst holds value.
  unfold evaluateConstraint, withOperator. cbn [c_criteria operator c_value].
  destruct (getNestedValue (features opt) (c_criteria c)) as [v |] eqn:Hv;
    [| discriminate Hpresent].
  assert (Hlaws : forall x y : num,
            (forall a b, x = Fin a -> y = Fin b ->
               nlt x y = negb (nge x y) /\ ngt x y = negb (nle x y) /\
               (nlt x y = true -> nle x y = true)) /\
            (x = NaN \/ y = NaN ->
               nlt x y = false /\ nle x y = false /\ ngt x y = false /\ nge x y = false)).
  { intros x y. split.
    - intros a b -> ->. split; [apply nlt_nge_finite |]. split.
      + unfold ngt. rewrite (nlt_nge_finite b a). reflexivity.
      + unfold nlt, nle. intros H%Qlt_bool_iff. apply Qle_bool_iff. lra.
    - intros [H | H]; rewrite H; unfold ngt, nge, nlt, nle;
        repeat split; try reflexivity; (by destruct x) || (by destruct y). }
  destruct v as [[| b | n | s] | fs]; try discriminate Hpresent;
    (split; [reflexivity |]); apply Hlaws.
Qed.

Lemma evaluateConstraint_operator_laws_witness :
  isNullish (getNestedValue (features ScenarioB.cheap) (c_criteria ScenarioB.costLimit)) = false /\
  evaluateConstraint ScenarioB.cheap (withOperator ScenarioB.costLimit "neq")
  = negb (evaluateConstraint ScenarioB.cheap (withOperator ScenarioB.costLimit "eq")).
Proof.
  split; [reflexivity |].
  exact (proj1 (evaluateConstraint_operator_laws ScenarioB.cheap ScenarioB.costLimit eq_refl)).
Defined.

Lemma toLowerChar_idempotent (c : ascii) : toLowerChar (toLowerChar c) = toLowerChar c.
Proof.
  unfold toLowerChar.
  destruct ((65 <=? nat_of_ascii c)%nat && (nat_of_ascii c <=? 90)%nat) eqn:E.
  - apply andb_true_iff in E as [H1 H2]. apply Nat.leb_le in H1, H2.
    rewrite nat_ascii_embedding by lia.
    assert (E2 : (nat_of_ascii c + 32 <=? 90)%nat = false) by (apply Nat.leb_gt; lia).
    by rewrite E2, andb_false_r.
  - by rewrite E.
Qed.

Lemma toLowerCase_idempotent (s : string) : toLowerCase (toLowerCase s) = toLowerCase s.
Proof.
  induction s as [| c t IH]; simpl; [reflexivity |].
  by rewrite toLowerChar_idempotent, IH.
Qed.

(** X10. [contains] ignores the letter case of its operand: a text operand
    and its lower-case form give the same outcome for every option. *)
Theorem contains_ignores_operand_case (opt : DecisionOption) (c : Constraint) (s : string) :
  operator c = "contains" ->
  evaluateConstraint opt (withOperand c (CPrim (PStr s)))
  = evaluateConstraint opt (withOperand c (CPrim (PStr (toLowerCase s)))).
Proof.
  intros Hop. unfold evaluateConstraint, withOperand.
  cbn [c_criteria operator c_value]. rewrite Hop.
  destruct (getNestedValue _ _) as [[[| | |] |] |]; try reflexivity;
    cbn [String.eqb Ascii.eqb Bool.eqb andb anyOfOperand ToString primToString];
    by rewrite toLowerCase_idempotent.
Qed.

Lemma contains_ignores_operand_case_witness :
  operator {| c_criteria := "cost"; operator := "contains"; c_value := CPrim PNull;
              required := None |} = "contains" /\
  evaluateConstraint ScenarioB.cheap
    {| c_criteria := "cost"; operator := "contains"; c_value := CPrim (PStr "5");
       required := None |} = true.
Proof.
  split; [reflexivity |].
  pose proof (contains_ignores_operand_case ScenarioB.cheap
                {| c_criteria := "cost"; operator := "contains"; c_value := CPrim PNull;
                   required := None |} "5" eq_refl) as H.
  etransitivity; [exact H | reflexivity].
Defined.

(** ** Constraint filtering as a whole *)

(** X11. Optional constraints never exclude: when no constraint is
    required (in particular when there are none) every input option
    qualifies, in input order, each with its own report. *)
Theorem optional_constraints_never_exclude
  (options : list DecisionOption) (constraints : list Constraint) :
  (forall c, c ∈ constraints -> isRequired c = false) ->
  validOptions (applyConstraints options constraints) = map (mkValid constraints) options /\
  map vo_option (validOptions (applyConstraints options constraints)) = options.
Proof.
  intros Hopt.
  assert (Hall : forall o, passed (complianceOf o constraints) = true).
  { intros o. apply complianceOf_passed. intros c Hc Hr. rewrite (Hopt c Hc) in Hr.
    discriminate. }
  assert (Hf : filter (fun o => passed (complianceOf o constraints) = true) options = options).
  { induction options as [| o os IH]; [reflexivity |].
    rewrite filter_cons, IH. destruct (decide _) as [_ | Hn]; [reflexivity |].
    by destruct (Hn (Hall o)). }
  rewrite applyConstraints_valid, Hf. split; [reflexivity |].
  rewrite map_map. cbn [vo_option mkValid]. apply map_id.
Qed.

(** Scenario B with its cost limit made optional: the option above the
    limit fails the constraint and still qualifies. *)
Lemma optional_constraints_never_exclude_witness :
  (forall c, c ∈ [optionalCostLimit] -> isRequired c = false) /\
  evaluateConstraint ScenarioB.pricey optionalCostLimit = false /\
  map vo_option (validOptions (applyConstraints ScenarioB.options [optionalCostLimit]))
  = ScenarioB.options.
Proof.
  assert (H : forall c, c ∈ [optionalCostLimit] -> isRequired c = false).
  { intros c Hc. apply elem_of_cons in Hc as [-> | Hc]; [reflexivity |].
    by apply elem_of_nil in Hc. }
  split; [exact H |]. split; [reflexivity |].
  exact (proj2 (optional_constraints_never_exclude ScenarioB.options [optionalCostLimit] H)).
Defined.

Lemma filter_failed_reasons (opt : DecisionOption) (cs : list Constraint) :
  length (filter (fun r => cr_status r = "failed")
            (map (fun c => generateConstraintReason opt c (evaluateConstraint opt c)) cs))
  = length (filter (fun c => evaluateConstraint opt c = false) cs).
Proof.
  induction cs as [| c cs IH]; [reflexivity |].
  cbn [map]. rewrite !filter_cons.
  destruct (evaluateConstraint opt c) eqn:E.
  - destruct (decide (cr_status _ = "failed")) as [H | _]; [discriminate H |].
    destruct (decide (true = false)) as [H | _]; [discriminate H | exact IH].
  - destruct (decide (cr_status _ = "failed")) as [_ | H]; [| by destruct H].
    destruct (decide (false = false)) as [_ | H]; [| by destruct H].
    cbn [length]. by rewrite IH.
Qed.

(** X12. A compliance report is consistent with itself: [failedConstraints]
    lists the criteria of the failing constraints in order, optional ones
    included; there are as many reasons with status "failed"; one reason per
    constraint carries that constraint's criterion and required flag; and
    [passed] holds exactly when every failing constraint is optional. *)
Theorem compliance_report_consistent (opt : DecisionOption) (constraints : list Constraint) :
  let report := complianceOf opt constraints in
  failedConstraints report
  = map c_criteria (filter (fun c => evaluateConstraint opt c = false) constraints) /\
  length (filter (fun r => cr_status r = "failed") (constraintReasons report))
  = length (failedConstraints report) /\
  map cr_criteria (constraintReasons report) = map c_criteria constraints /\
  map cr_required (constraintReasons report) = map isRequired constraints /\
  (passed report = true <->
   forall c, c ∈ constraints -> evaluateConstraint opt c = false -> isRequired c = false).
Proof.
  cbv zeta. rewrite complianceOf_failed, complianceOf_reasons, length_map.
  split; [reflexivity |]. split; [apply filter_failed_reasons |].
  split; [by rewrite map_map |]. split; [by rewrite map_map |].
  rewrite complianceOf_passed. split.
  - intros H c Hc Hf. destruct (isRequired c) eqn:Hr; [| reflexivity].
    rewrite (H c Hc Hr) in Hf. discriminate.
  - intros H c Hc Hr. destruct (evaluateConstraint opt c) eqn:Hf; [reflexivity |].
    rewrite (H c Hc Hf) in Hr. discriminate.
Qed.



(** ** The scoring pipeline as a whole *)

Lemma scoredQualifying_length options constraints priorities :
  length (scoredQualifying options constraints priorities)
  = length (filter (fun o => passed (complianceOf o constraints) = true) options).
Proof.
  rewrite <- (length_map opt_id), <- (scoredQualifying_input_order _ _ priorities).
  by rewrite length_map.
Qed.

Lemma limitResults_take (settings : Settings) (l : list RankedOption) :
  limitResults settings l
  = take (match max_results settings with
          | None => length l
          | Some n =>
              if (n =? 0)%Z then length l
              else if (n <? 0)%Z then Z.to_nat (Z.of_nat (length l) + n)
              else Z.to_nat n
          end) l.
Proof.
  unfold limitResults, slice0. destruct (max_results settings) as [n |].
  - destruct (n =? 0)%Z; [by rewrite firstn_all |]. by destruct (n <? 0)%Z.
  - by rewrite firstn_all.
Qed.

(** X14. Summary counters and truncation of [scoreOptions]:
    [totalOptionsEvaluated] counts the input options and
    [optionsMeetingConstraints] the qualifying ones, before any
    truncation; the ranked list is a prefix of the full ranking whose
    length is all N qualifying options when [max_results] is absent or 0,
    [min n N] for a positive [n], and [N - |n|] (at least 0) for a negative
    [n]; ranks count 1, 2, ... and the top recommendation is the first
    ranked entry, absent when the list is empty. *)
Theorem scoreOptions_counts_and_truncation
  (options : list DecisionOption) (constraints : list Constraint)
  (priorities : list Priority) (settings : Settings) :
  let res := scoreOptions options constraints priorities settings in
  let N := length (filter (fun o => passed (complianceOf o constraints) = true) options) in
  totalOptionsEvaluated (summary res) = length options /\
  optionsMeetingConstraints (summary res) = N /\
  ss_topRecommendation (summary res) = head (rankedOptions res) /\
  map rank (rankedOptions res) = seq 1 (length (rankedOptions res)) /\
  length (rankedOptions res)
  = match max_results settings with
    | None => N
    | Some n =>
        if (n =? 0)%Z then N
        else if (n <? 0)%Z then (N - Z.to_nat (- n))%nat
        else Nat.min (Z.to_nat n) N
    end.
Proof.
  cbv zeta.
  assert (Hv : length (validOptions (applyConstraints options constraints))
               = length (filter (fun o => passed (complianceOf o constraints) = true) options)).
  { by rewrite applyConstraints_valid, length_map. }
  split; [| split; [| split; [| split]]].
  - unfold scoreOptions. by destruct (validOptions (applyConstraints options constraints)).
  - rewrite <- Hv. unfold scoreOptions.
    by destruct (validOptions (applyConstraints options constraints)).
  - unfold scoreOptions.
    by destruct (validOptions (applyConstraints options constraints)).
  - rewrite scoreOptions_ranked, limitResults_take.
    set (k := match max_results settings with None => _ | Some _ => _ end).
    change (map rank ?x) with (rank <$> x).
    rewrite fmap_take. change (rank <$> ?x) with (map rank x).
    rewrite rankOptions_ranks, length_take, rankOptions_length.
    apply take_seq.
  - rewrite scoreOptions_ranked, limitResults_take, length_take, rankOptions_length,
      scoredQualifying_length.
    destruct (max_results settings) as [n |]; [| lia].
    destruct (n =? 0)%Z eqn:E0; [lia |]. destruct (n <? 0)%Z eqn:E1; lia.
Qed.

(** X15. Without a result limit the ranking loses and duplicates nothing:
    the ranked ids are a rearrangement of the ids of the qualifying options,
    whatever the totals are (also when some total is NaN and the comparator
    is inconsistent). *)
Theorem ranking_is_rearrangement_of_qualifying
  (options : list DecisionOption) (constraints : list Constraint)
  (priorities : list Priority) (settings : Settings) :
  max_results settings = None ->
  Permutation
    (map (fun r => optionId (scored r))
       (rankedOptions (scoreOptions options constraints priorities settings)))
    (map opt_id (filter (fun o => passed (complianceOf o constraints) = true) options)).
Proof.
  intros Hnone. rewrite scoreOptions_ranked. unfold limitResults. rewrite Hnone.
  rewrite <- (scoredQualifying_input_order _ _ priorities).
  rewrite <- (map_map scored optionId), rankOptions_scored.
  apply Permutation_map. unfold sortWith. apply stableSort_perm.
Qed.

Lemma ranking_is_rearrangement_of_qualifying_witness :
  max_results noSettings = None /\
  Permutation
    (map (fun r => optionId (scored r))
       (rankedOptions (scoreOptions ScenarioB.options ScenarioB.constraints
                         ScenarioA.priorities noSettings)))
    (map opt_id (filter (fun o => passed (complianceOf o ScenarioB.constraints) = true)
                   ScenarioB.options)).
Proof.
  split; [reflexivity |].
  apply (ranking_is_rearrangement_of_qualifying ScenarioB.options ScenarioB.constraints
           ScenarioA.priorities noSettings). reflexivity.
Defined.

(** ** The range of the scores *)

Lemma Qround2_percent (x : Q) : 0 <= x <= 100 -> 0 <= Qround2 x <= 100.
Proof.
  intros [Hlo Hhi]. unfold Qround2, Qround_half_up.
  assert (H1 : (0 <= Qfloor (x * 100 + (1 # 2)))%Z).
  { apply (Z.le_trans _ (Qfloor 0)); [by vm_compute |].
    apply Qfloor_resp_le. lra. }
  assert (H2 : (Qfloor (x * 100 + (1 # 2)) <= 10000)%Z).
  { apply (Z.le_trans _ (Qfloor (20001 # 2))); [| by vm_compute].
    apply Qfloor_resp_le. lra. }
  set (z := Qfloor (x * 100 + (1 # 2))) in *.
  assert (E : inject_Z z / 100 == inject_Z z * (1 # 100)) by field.
  rewrite E.
  assert (H1' : inject_Z 0 <= inject_Z z) by (by rewrite <- Zle_Qle).
  assert (H2' : inject_Z z <= inject_Z 10000) by (by rewrite <- Zle_Qle).
  change (inject_Z 0) with 0 in H1'. change (inject_Z 10000) with 10000 in H2'.
  split; lra.
Qed.

Lemma scorableLeaf_numeric (v : option JsVal) : scorableLeaf v -> numericLeaf v.
Proof.
  intros [-> | (p & q & -> & _ & Hq)]; [by left |]. right. by exists p, q.
Qed.

(** The result of [calculateCriteriaScore] for a value that is present, not
    null and numeric. *)
Lemma criterion_result (options : list ValidOption) (priorities : list Priority)
  (opt : ValidOption) (p : Priority) (stats : gmap string Stats) (pr : prim) (q : Q) :
  opt ∈ options -> p ∈ priorities -> plainFeatures opt priorities ->
  getNestedValue (features (vo_option opt)) (criteria p) = Some (JPrim pr) ->
  pr <> PNull -> primToNumber pr = Fin q ->
  exists v vs result,
    criterionValues options (criteria p) = v :: vs /\
    Qlist_min v vs <= q <= Qlist_max v vs /\
    calculateCriteriaScore (normalizeOption (computeRanges options priorities) priorities opt)
      p stats = Some result /\
    res_rawValue result = JPrim pr /\
    (Qlist_min v vs < Qlist_max v vs ->
     exists x, 0 <= x <= 1 /\ x == (q - Qlist_min v vs) / (Qlist_max v vs - Qlist_min v vs) /\
       res_normalizedValue result = numberFeature x /\
       res_score result
       = round2 (if isMinimize p then Fin (100 - x * 100) else Fin (x * 100))) /\
    (Qlist_max v vs <= Qlist_min v vs ->
     res_normalizedValue result = JPrim pr /\
     res_score result
     = round2 (if isMinimize p then Fin (100 - q * 100) else Fin (q * 100))).
Proof.
  intros Hopt Hp Hplain Hraw Hnull Hq.
  assert (Hin : q ∈ criterionValues options (criteria p)).
  { apply (criterionValues_elem options (criteria p) opt (JPrim pr) q Hopt Hraw).
    - intros [= E]. by apply Hnull.
    - exact Hq. }
  destruct (criterionValues options (criteria p)) as [| v vs] eqn:Hvals;
    [by apply elem_of_nil in Hin |].
  pose proof (Qlist_bounds v vs q Hin) as Hb.
  pose proof (computeRanges_lookup options priorities p Hp) as Hrange.
  unfold rangeOf in Hrange. rewrite Hvals in Hrange.
  unfold calculateCriteriaScore.
  rewrite (normalizeOption_lookup _ _ _ _ Hplain Hp).
  change (no_option (normalizeOption _ _ opt)) with opt.
  unfold normalizedWrite. rewrite Hraw, Hrange. cbn [r_range r_min].
  change (ToNumber (anyOfFeature (Some (JPrim pr)))) with (primToNumber pr). rewrite Hq.
  destruct (Qlt_bool 0 (Qlist_max v vs - Qlist_min v vs)) eqn:Hpos.
  - apply Qlt_bool_iff in Hpos.
    destruct (normalized_in_unit_interval q (Qlist_min v vs) (Qlist_max v vs) Hb)
      as (x & Hx & Hxe & Hx01); [lra |].
    rewrite Hx. eexists v, vs, _. split; [reflexivity |]. split; [exact Hb |].
    split; [reflexivity |]. cbn [res_rawValue res_score res_normalizedValue].
    split; [reflexivity |]. split.
    + intros _. exists x. split; [exact Hx01 |]. split; [exact Hxe |].
      split; [reflexivity |]. by destruct (isMinimize p).
    + intros Hle. lra.
  - apply Qlt_bool_false in Hpos.
    eexists v, vs, _. split; [reflexivity |]. split; [exact Hb |].
    split; [reflexivity |]. cbn [res_rawValue res_score res_normalizedValue].
    split; [reflexivity |]. split.
    + intros Hlt. lra.
    + intros _. split; [reflexivity |].
      change (ToNumber (anyOfFeature (Some (JPrim pr)))) with (primToNumber pr).
      rewrite Hq. by destruct (isMinimize p).
Qed.

Lemma spread_score_range (options : list ValidOption) (priorities : list Priority)
  (opt : ValidOption) (p : Priority) (stats : gmap string Stats) (result : CriteriaResult) :
  scorableFeatures options priorities -> spread options (criteria p) ->
  opt ∈ options -> p ∈ priorities ->
  calculateCriteriaScore (normalizeOption (computeRanges options priorities) priorities opt)
    p stats = Some result ->
  exists t, res_score result = Fin t /\ 0 <= t <= 100.
Proof.
  intros Hsc Hspread Hopt Hp Hres.
  assert (Hplain : plainFeatures opt priorities).
  { intros p' Hp'. apply numericLeaf_plain, scorableLeaf_numeric. by apply Hsc. }
  destruct (Hsc opt p Hopt Hp) as [Hraw | (pr & q & Hraw & Hnull & Hq)].
  { rewrite calculateCriteriaScore_missing in Hres; [discriminate |]. by right. }
  destruct (criterion_result options priorities opt p stats pr q Hopt Hp Hplain Hraw Hnull Hq)
    as (v & vs & result' & Hvals & Hb & Hres' & _ & Hs & _).
  rewrite Hres in Hres'. injection Hres' as <-.
  unfold spread in Hspread. rewrite Hvals in Hspread.
  destruct (Hs Hspread) as (x & Hx01 & _ & _ & ->).
  destruct (isMinimize p); rewrite round2_Fin; eexists; (split; [reflexivity |]);
    apply Qround2_percent; lra.
Qed.

Lemma score_fold_entries stats opt (ps : list Priority) (P : string -> num -> Prop) :
  (forall p result, p ∈ ps -> calculateCriteriaScore opt p stats = Some result ->
     P (criteria p) (res_score result)) ->
  forall cs rs tot,
    (forall c e, cs !! c = Some e -> P c (score e)) ->
    forall c e, fst (fst (fold_left (scoreStep stats opt) ps (cs, rs, tot))) !! c = Some e ->
      P c (score e).
Proof.
  induction ps as [| p ps IH]; intros HP cs rs tot Hcs c e; cbn [fold_left];
    [apply Hcs |].
  destruct (calculateCriteriaScore opt p stats) as [result |] eqn:Hres.
  - rewrite (scoreStep_Some _ _ _ _ _ _ _ Hres). apply IH.
    + intros p' r' Hp'. apply HP. by right.
    + intros c' e'. destruct (decide (c' = criteria p)) as [-> | Hne].
      * rewrite lookup_insert_eq. intros [= <-]. cbn [score]. apply HP; [by left | exact Hres].
      * rewrite lookup_insert_ne by done. apply Hcs.
  - rewrite (scoreStep_None _ _ _ _ _ _ Hres). apply IH; [| exact Hcs].
    intros p' r' Hp'. apply HP. by right.
Qed.

(** X16. Criterion scores are percentages where the criterion varies: on
    numeric data (every priority criterion a path of own properties at
    which every option holds a number of safe magnitude or nothing), if the
    observed values of criterion [c] do not all coincide, every score
    recorded for [c] lies between 0 and 100. *)
Theorem criterion_scores_are_percentages
  (options : list ValidOption) (priorities : list Priority)
  (so : ScoredOption) (c : string) (e : CriterionScore) :
  numberData options priorities ->
  spread options c ->
  so ∈ calculateWeightedScores options priorities ->
  criteriaScores so !! c = Some e ->
  exists t, score e = Fin t /\ 0 <= t <= 100.
Proof.
  intros Hsc%numberData_scorable Hspread Hso He.
  rewrite calculateWeightedScores_map in Hso.
  apply list_elem_of_fmap in Hso as (opt & -> & Hopt).
  unfold scoreOption in He.
  destruct (fold_left _ priorities _) as [[cs' rs'] tot'] eqn:Hfold.
  cbn [criteriaScores] in He.
  pose proof (score_fold_entries (calculateCriteriaStatistics options priorities)
                (normalizeOption (computeRanges options priorities) priorities opt)
                priorities
                (fun c' s => spread options c' -> exists t, s = Fin t /\ 0 <= t <= 100))
    as Hinv.
  cbv beta in Hinv.
  assert (H1 : forall p result, p ∈ priorities ->
            calculateCriteriaScore
              (normalizeOption (computeRanges options priorities) priorities opt) p
              (calculateCriteriaStatistics options priorities) = Some result ->
            spread options (criteria p) ->
            exists t, res_score result = Fin t /\ 0 <= t <= 100).
  { intros p result Hp Hres Hs. by eapply spread_score_range. }
  apply (Hinv H1 ∅ [] (Fin 0)) with (c := c); [| | exact Hspread].
  - intros c' e'. by rewrite lookup_empty.
  - rewrite Hfold. exact He.
Qed.

Lemma scenarioA_spread (p : Priority) :
  p ∈ ScenarioA.priorities -> spread ScenarioAValid.options (criteria p).
Proof.
  intros Hp.
  apply elem_of_cons in Hp as [-> | Hp];
    [| apply elem_of_cons in Hp as [-> | Hp]; [| by apply elem_of_nil in Hp]];
    by vm_compute.
Defined.

Lemma scenarioA_scoredFirst :
  ScenarioAValid.scoredFirst
  ∈ calculateWeightedScores ScenarioAValid.options ScenarioA.priorities.
Proof. left. Defined.

Lemma criterion_scores_are_percentages_witness :
  numberData ScenarioAValid.options ScenarioA.priorities /\
  spread ScenarioAValid.options "cost" /\
  exists t, (score <$> criteriaScores ScenarioAValid.scoredFirst !! "cost") = Some (Fin t) /\
            0 <= t <= 100.
Proof.
  split; [exact scenarioA_numberData |]. split; [by vm_compute |].
  destruct (criteriaScores ScenarioAValid.scoredFirst !! "cost") as [e |] eqn:He;
    [| vm_compute in He; discriminate He].
  destruct (criterion_scores_are_percentages
              ScenarioAValid.options ScenarioA.priorities ScenarioAValid.scoredFirst "cost" e
              scenarioA_numberData ltac:(by vm_compute) scenarioA_scoredFirst He)
    as (t & Ht & Hb).
  exists t. cbn [fmap option_fmap option_map]. rewrite Ht. split; [reflexivity | exact Hb].
Defined.

Lemma score_fold_percent stats opt (ps : list Priority) :
  (forall p result, p ∈ ps -> calculateCriteriaScore opt p stats = Some result ->
     exists t, res_score result = Fin t /\ 0 <= t <= 100) ->
  (forall p, p ∈ ps -> 0 <= weight p) ->
  forall cs rs T, exists cs' rs' T',
    fold_left (scoreStep stats opt) ps (cs, rs, Fin T) = (cs', rs', Fin T') /\
    T <= T' <= T + 100 * Qlist_sum (map weight ps).
Proof.
  induction ps as [| p ps IH]; intros Hres Hw cs rs T; cbn [fold_left].
  - exists cs, rs, T. split; [reflexivity |]. unfold Qlist_sum. cbn. lra.
  - assert (Hsum : Qlist_sum (map weight (p :: ps)) == weight p + Qlist_sum (map weight ps)).
    { unfold Qlist_sum. cbn [map fold_left]. rewrite fold_Qplus_shift. lra. }
    pose proof (Hw p ltac:(by left)) as Hwp.
    assert (Hres' : forall p' result, p' ∈ ps ->
              calculateCriteriaScore opt p' stats = Some result ->
              exists t, res_score result = Fin t /\ 0 <= t <= 100).
    { intros p' r' Hp'. apply Hres. by right. }
    assert (Hw' : forall p', p' ∈ ps -> 0 <= weight p').
    { intros p' Hp'. apply Hw. by right. }
    destruct (calculateCriteriaScore opt p stats) as [result |] eqn:Hr.
    + rewrite (scoreStep_Some _ _ _ _ _ _ _ Hr).
      destruct (Hres p result ltac:(by left) Hr) as (t & -> & Ht).
      cbn [nmul nadd].
      destruct (IH Hres' Hw' (<[criteria p := {| score := Fin t;
                   normalizedValue := res_normalizedValue result;
                   rawValue := res_rawValue result |}]> cs)
                  (rs ++ [res_reason result])%list (T + t * weight p))
        as (cs' & rs' & T' & Hfold & Hb).
      exists cs', rs', T'. split; [exact Hfold |].
      rewrite Hsum. assert (0 <= t * weight p <= 100 * weight p) by nra. lra.
    + rewrite (scoreStep_None _ _ _ _ _ _ Hr).
      destruct (IH Hres' Hw' cs (rs ++ [missingDataReason opt p])%list T)
        as (cs' & rs' & T' & Hfold & Hb).
      exists cs', rs', T'. split; [exact Hfold |]. rewrite Hsum. lra.
Qed.

(** X17. The total is a percentage when the weights sum to at most 1: on
    numeric data, if the weights of the (at most 1000) priorities are
    non-negative and sum to at most 1, and every priority criterion varies
    over the options, each total score lies between 0 and 100. *)
Theorem total_score_is_percentage
  (options : list ValidOption) (priorities : list Priority) (so : ScoredOption) :
  numberData options priorities ->
  (length priorities <= 1000)%nat ->
  (forall p, p ∈ priorities -> spread options (criteria p)) ->
  (forall p, p ∈ priorities -> 0 <= weight p) ->
  Qlist_sum (map weight priorities) <= 1 ->
  so ∈ calculateWeightedScores options priorities ->
  exists t, totalScore so = Fin t /\ 0 <= t <= 100.
Proof.
  intros Hsc%numberData_scorable _ Hspread Hw Hsum Hso.
  rewrite calculateWeightedScores_map in Hso.
  apply list_elem_of_fmap in Hso as (opt & -> & Hopt).
  unfold scoreOption.
  destruct (score_fold_percent (calculateCriteriaStatistics options priorities)
              (normalizeOption (computeRanges options priorities) priorities opt)
              priorities) with (cs := (∅ : gmap string CriterionScore))
              (rs := @nil Reason) (T := 0)
    as (cs' & rs' & T' & Hfold & Hb).
  - intros p result Hp Hres. eapply spread_score_range; eauto.
  - exact Hw.
  - rewrite Hfold. cbn [totalScore]. rewrite round2_Fin. eexists. split; [reflexivity |].
    apply Qround2_percent. lra.
Qed.

Lemma scenarioA_weights (p : Priority) : p ∈ ScenarioA.priorities -> 0 <= weight p.
Proof.
  intros Hp.
  apply elem_of_cons in Hp as [-> | Hp];
    [| apply elem_of_cons in Hp as [-> | Hp]; [| by apply elem_of_nil in Hp]];
    by vm_compute.
Defined.

Lemma total_score_is_percentage_witness :
  numberData ScenarioAValid.options ScenarioA.priorities /\
  (length ScenarioA.priorities <= 1000)%nat /\
  Qlist_sum (map weight ScenarioA.priorities) <= 1 /\
  exists t, totalScore ScenarioAValid.scoredFirst = Fin t /\ 0 <= t <= 100.
Proof.
  assert (Hlen : (length ScenarioA.priorities <= 1000)%nat) by (vm_compute; lia).
  split; [exact scenarioA_numberData |]. split; [exact Hlen |]. split; [by vm_compute |].
  apply (total_score_is_percentage ScenarioAValid.options ScenarioA.priorities
           ScenarioAValid.scoredFirst scenarioA_numberData Hlen scenarioA_spread
           scenarioA_weights);
    [by vm_compute | exact scenarioA_scoredFirst].
Defined.

Lemma score_fold_other stats opt (c : string) (ps : list Priority) :
  c ∉ map criteria ps ->
  forall cs rs tot,
    fst (fst (fold_left (scoreStep stats opt) ps (cs, rs, tot))) !! c = cs !! c.
Proof.
  induction ps as [| p ps IH]; intros Hc cs rs tot; cbn [fold_left]; [reflexivity |].
  cbn [map] in Hc. apply not_elem_of_cons in Hc as [Hne Hc].
  destruct (calculateCriteriaScore opt p stats) as [result |] eqn:Hres.
  - rewrite (scoreStep_Some _ _ _ _ _ _ _ Hres), IH by exact Hc.
    by rewrite lookup_insert_ne.
  - rewrite (scoreStep_None _ _ _ _ _ _ Hres). by apply IH.
Qed.

Lemma score_fold_lookup stats opt (ps : list Priority) (p : Priority) :
  NoDup (map criteria ps) -> p ∈ ps ->
  forall cs rs tot,
    fst (fst (fold_left (scoreStep stats opt) ps (cs, rs, tot))) !! criteria p
    = match calculateCriteriaScore opt p stats with
      | Some result => Some {| score := res_score result;
                               normalizedValue := res_normalizedValue result;
                               rawValue := res_rawValue result |}
      | None => cs !! criteria p
      end.
Proof.
  induction ps as [| p' ps IH]; intros Hnd Hp cs rs tot; [by apply elem_of_nil in Hp |].
  cbn [map] in Hnd. apply NoDup_cons in Hnd as [Hnotin Hnd].
  cbn [fold_left]. apply elem_of_cons in Hp as [<- | Hp].
  - destruct (calculateCriteriaScore opt p stats) as [result |] eqn:Hres.
    + rewrite (scoreStep_Some _ _ _ _ _ _ _ Hres), score_fold_other by exact Hnotin.
      apply lookup_insert_eq.
    + rewrite (scoreStep_None _ _ _ _ _ _ Hres). by apply score_fold_other.
  - assert (Hne : criteria p' <> criteria p).
    { intros E. apply Hnotin. rewrite E. by apply (list_elem_of_fmap_2 criteria). }
    destruct (calculateCriteriaScore opt p' stats) as [result |] eqn:Hres.
    + rewrite (scoreStep_Some _ _ _ _ _ _ _ Hres), (IH Hnd Hp).
      destruct (calculateCriteriaScore opt p stats); [reflexivity |].
      by rewrite lookup_insert_ne.
    + rewrite (scoreStep_None _ _ _ _ _ _ Hres). by apply IH.
Qed.

(** The entry recorded for a criterion on which all options agree. *)
Lemma degenerate_criterion_entry
  (options : list ValidOption) (priorities : list Priority) (i : nat)
  (opt : ValidOption) (so : ScoredOption) (p : Priority) (pr : prim) (q : Q) :
  NoDup (map criteria priorities) ->
  options !! i = Some opt ->
  calculateWeightedScores options priorities !! i = Some so ->
  p ∈ priorities ->
  plainFeatures opt priorities ->
  getNestedValue (features (vo_option opt)) (criteria p) = Some (JPrim pr) ->
  pr <> PNull -> primToNumber pr = Fin q ->
  ~ spread options (criteria p) ->
  criteriaScores so !! criteria p
  = Some {| score := round2 (if isMinimize p then Fin (100 - q * 100) else Fin (q * 100));
            normalizedValue := JPrim pr;
            rawValue := JPrim pr |}.
Proof.
  intros Hnd Ho Hso Hp Hplain Hraw Hnull Hq Hdeg.
  rewrite calculateWeightedScores_map in Hso.
  change (map ?f ?l) with (f <$> l) in Hso. rewrite list_lookup_fmap, Ho in Hso.
  injection Hso as <-.
  assert (Hopt : opt ∈ options) by (by eapply list_elem_of_lookup_2).
  destruct (criterion_result options priorities opt p
              (calculateCriteriaStatistics options priorities) pr q
              Hopt Hp Hplain Hraw Hnull Hq)
    as (v & vs & result & Hvals & _ & Hres & Hrv & _ & Hd).
  unfold spread in Hdeg. rewrite Hvals in Hdeg.
  destruct Hd as [Hnv Hs]; [by apply Qnot_lt_le |].
  unfold scoreOption.
  pose proof (score_fold_lookup (calculateCriteriaStatistics options priorities)
                (normalizeOption (computeRanges options priorities) priorities opt)
                priorities p Hnd Hp ∅ [] (Fin 0)) as Hl.
  destruct (fold_left _ priorities _) as [[cs' rs'] tot'].
  cbn [criteriaScores]. cbn [fst] in Hl. rewrite Hl, Hres.
  by rewrite Hs, Hnv, Hrv.
Qed.

(** X18. A criterion on which all options agree is scored from the raw
    value: on numeric data under distinct priority criteria, when the
    observed values of a priority criterion all coincide, an option holding
    the number [q] there, of magnitude at most a million, gets a score
    within 0.01 of [q * 100] (maximize) or of [100 - q * 100] (minimize),
    with the raw value recorded as the normalized value; the score is then
    not confined to 0..100. *)
Theorem degenerate_criterion_scores_raw_value
  (options : list ValidOption) (priorities : list Priority) (i : nat)
  (opt : ValidOption) (so : ScoredOption) (p : Priority) (q : Q) :
  NoDup (map criteria priorities) ->
  options !! i = Some opt ->
  calculateWeightedScores options priorities !! i = Some so ->
  p ∈ priorities ->
  numberData options priorities ->
  getNestedValue (features (vo_option opt)) (criteria p) = Some (numberFeature q) ->
  moderate q ->
  ~ spread options (criteria p) ->
  exists e t,
    criteriaScores so !! criteria p = Some e /\
    normalizedValue e = numberFeature q /\ rawValue e = numberFeature q /\
    score e = Fin t /\
    Qabs (t - (if isMinimize p then 100 - q * 100 else q * 100)) <= 1 # 100.
Proof.
  intros Hnd Ho Hso Hp Hdata Hraw _ Hdeg.
  assert (Hplain : plainFeatures opt priorities).
  { apply (numberData_plain options); [exact Hdata |]. by eapply list_elem_of_lookup_2. }
  assert (Hnull : PNum (Fin q) <> PNull) by discriminate.
  rewrite (degenerate_criterion_entry options priorities i opt so p (PNum (Fin q)) q
             Hnd Ho Hso Hp Hplain Hraw Hnull eq_refl Hdeg).
  eexists _, (Qround2 (if isMinimize p then 100 - q * 100 else q * 100)).
  split; [reflexivity |]. cbn [normalizedValue rawValue score].
  split; [reflexivity |]. split; [reflexivity |].
  split; [by destruct (isMinimize p) |].
  eapply Qle_trans; [apply Qround2_error | by vm_compute].
Qed.

Lemma scenarioA_criteria_distinct : NoDup (map criteria ScenarioA.priorities).
Proof.
  apply NoDup_cons. split.
  - intros [H | H]%elem_of_cons; [discriminate H | by apply elem_of_nil in H].
  - apply NoDup_cons. split; [apply not_elem_of_nil | apply NoDup_nil_2].
Defined.

Lemma scenarioC_cost_shared : ~ spread ScenarioC.options "cost".
Proof. by vm_compute. Defined.

Lemma scenarioC_numberData : numberData ScenarioC.options ScenarioA.priorities.
Proof.
  split; [exact scenarioA_own |].
  intros opt p Hopt Hp. right.
  apply elem_of_cons in Hopt as [-> | Hopt];
    [| apply elem_of_cons in Hopt as [-> | Hopt]; [| by apply elem_of_nil in Hopt]];
    (apply elem_of_cons in Hp as [-> | Hp];
      [| apply elem_of_cons in Hp as [-> | Hp]; [| by apply elem_of_nil in Hp]]).
  - exists 100. split; [reflexivity | by vm_compute].
  - exists 80. split; [reflexivity | by vm_compute].
  - exists 100. split; [reflexivity | by vm_compute].
  - exists 90. split; [reflexivity | by vm_compute].
Defined.

(** Scenario C: the shared cost of 100, minimized, is scored -9900. *)
Lemma degenerate_criterion_scores_raw_value_witness :
  NoDup (map criteria ScenarioA.priorities) /\
  numberData ScenarioC.options ScenarioA.priorities /\
  moderate 100 /\
  ~ spread ScenarioC.options "cost" /\
  exists e t, criteriaScores scenarioCFirst !! "cost" = Some e /\
              score e = Fin t /\ Qabs (t - (100 - 100 * 100)) <= 1 # 100.
Proof.
  assert (Hm : moderate 100) by (by vm_compute).
  split; [exact scenarioA_criteria_distinct |]. split; [exact scenarioC_numberData |].
  split; [exact Hm |]. split; [exact scenarioC_cost_shared |].
  destruct (degenerate_criterion_scores_raw_value
              ScenarioC.options ScenarioA.priorities 0 ScenarioC.first scenarioCFirst
              ScenarioC.costPriority 100
              scenarioA_criteria_distinct eq_refl eq_refl ltac:(left) scenarioC_numberData
              eq_refl Hm scenarioC_cost_shared) as (e & t & He & _ & _ & Ht & Hb).
  by exists e, t.
Defined.

(** ** Statistics and percentiles *)

Lemma statsStep_eq (options : list ValidOption) (acc : gmap string Stats) (p : Priority) :
  statsStep options acc p
  = match statsOf options (criteria p) with
    | Some r => <[criteria p := r]> acc
    | None => acc
    end.
Proof. unfold statsStep, statsOf. by destruct (criterionValues options (criteria p)). Qed.

Lemma stats_fold_lookup (options : list ValidOption) (ps : list Priority) :
  forall (acc : gmap string Stats) (c : string),
    fold_left (statsStep options) ps acc !! c
    = if bool_decide (c ∈ map criteria ps)
      then match statsOf options c with Some r => Some r | None => acc !! c end
      else acc !! c.
Proof.
  induction ps as [| p ps IH]; intros acc c; [reflexivity |].
  cbn [fold_left map]. rewrite IH, statsStep_eq.
  destruct (decide (c = criteria p)) as [-> | Hne].
  - rewrite (bool_decide_eq_true_2 (criteria p ∈ criteria p :: map criteria ps))
      by (by left).
    destruct (statsOf options (criteria p)) as [r |] eqn:Hr.
    + by destruct (bool_decide _); rewrite ?lookup_insert_eq.
    + by destruct (bool_decide _).
  - assert (Hl : match statsOf options (criteria p) with
                 | Some r => <[criteria p := r]> acc
                 | None => acc
                 end !! c = acc !! c).
    { destruct (statsOf options (criteria p)); [| reflexivity].
      by rewrite lookup_insert_ne. }
    rewrite Hl.
    destruct (decide (c ∈ map criteria ps)) as [Hin | Hnin].
    + rewrite !bool_decide_eq_true_2; [reflexivity | by right | exact Hin].
    + rewrite !bool_decide_eq_false_2; [reflexivity | | exact Hnin].
      intros [? | ?]%elem_of_cons; done.
Qed.

(** X19. Statistics of a criterion on numeric data:
    [calculateCriteriaStatistics] has an entry for a criterion (a path of
    own properties) exactly when it is a priority criterion with at least
    one value among the options; the entry counts those values, its minimum
    and maximum are the ones normalization uses and bound every value, and
    its median (the upper middle value, itself one of the values) lies
    between them. *)
Theorem criteria_statistics_invariants
  (options : list ValidOption) (priorities : list Priority) (c : string) :
  numberData options priorities ->
  ownPath c ->
  let values := criterionValues options c in
  match calculateCriteriaStatistics options priorities !! c with
  | None => c ∉ map criteria priorities \/ values = []
  | Some st =>
      c ∈ map criteria priorities /\
      s_count st = length values /\ (0 < s_count st)%nat /\
      (exists rg, computeRanges options priorities !! c = Some rg /\
                  r_min rg = s_min st /\ r_max rg = s_max st) /\
      (forall x, x ∈ values -> s_min st <= x <= s_max st) /\
      s_median st ∈ values /\
      s_min st <= s_median st <= s_max st
  end.
Proof.
  intros _ _. cbv zeta. unfold calculateCriteriaStatistics, computeRanges.
  rewrite stats_fold_lookup, range_fold_lookup, lookup_empty.
  destruct (decide (c ∈ map criteria priorities)) as [Hin | Hnin].
  2:{ rewrite bool_decide_eq_false_2 by exact Hnin. by left. }
  rewrite !bool_decide_eq_true_2 by exact Hin.
  unfold statsOf, rangeOf.
  destruct (criterionValues options c) as [| v vs] eqn:Hvals; [by right |].
  cbn [s_count s_min s_max s_avg s_median].
  assert (Hb : forall x, x ∈ v :: vs -> Qlist_min v vs <= x <= Qlist_max v vs)
    by (intros x; apply Qlist_bounds).
  split; [exact Hin |]. split; [reflexivity |]. split; [cbn [length]; lia |].
  split; [eexists; split; [reflexivity |]; by split |]. split; [exact Hb |].
  set (sorted := sortWith (fun a b => Fin (a - b)) (v :: vs)).
  assert (Hmed : nth (length sorted / 2) sorted 0 ∈ v :: vs).
  { apply (sortWith_ascending_elem (v :: vs)). fold sorted.
    apply list_elem_of_In, nth_In.
    unfold sorted. rewrite sortWith_ascending_length. cbn [length].
    apply Nat.div_lt; lia. }
  split; [exact Hmed | by apply Hb].
Qed.

(** Scenario A: two costs are observed, and their median lies between the
    extremes. *)
Lemma criteria_statistics_invariants_witness :
  numberData ScenarioAValid.options ScenarioA.priorities /\
  ownPath "cost" /\
  exists st,
    calculateCriteriaStatistics ScenarioAValid.options ScenarioA.priorities !! "cost"
    = Some st /\
    s_count st = 2%nat /\ s_min st <= s_median st <= s_max st.
Proof.
  split; [exact scenarioA_numberData |]. split; [reflexivity |].
  pose proof (criteria_statistics_invariants ScenarioAValid.options ScenarioA.priorities
                "cost" scenarioA_numberData eq_refl) as H.
  cbv zeta in H.
  destruct (calculateCriteriaStatistics ScenarioAValid.options ScenarioA.priorities !! "cost")
    as [st |] eqn:E; [| vm_compute in E; discriminate E].
  destruct H as (_ & Hc & _ & _ & _ & _ & Hm).
  exists st. split; [reflexivity |]. split; [exact Hc | exact Hm].
Defined.

(** The percentiles of a numeric value under a non-degenerate range. *)
Lemma percentile_by_position (value : JsVal) (stats : Stats) (q : Q) :
  ToNumber (anyOfFeature (Some value)) = Fin q ->
  s_min stats < s_max stats ->
  exists a b,
    calculatePercentile value stats false = Fin a /\
    calculatePercentile value stats true = Fin b /\
    a + b == 100 /\
    (q <= s_min stats -> a == 0) /\
    (s_max stats <= q -> a == 100) /\
    (s_min stats <= q <= s_max stats ->
     a == (q - s_min stats) / (s_max stats - s_min stats) * 100).
Proof.
  intros Hq Hlt. unfold calculatePercentile. rewrite Hq.
  assert (E : Qeq_bool (s_max stats - s_min stats) 0 = false).
  { destruct (Qeq_bool (s_max stats - s_min stats) 0) eqn:E; [| reflexivity].
    apply Qeq_bool_iff in E. lra. }
  rewrite E. cbn [nsub ndiv nmul Math_min Math_max]. rewrite E.
  cbn [nsub ndiv nmul Math_min Math_max].
  set (d := s_max stats - s_min stats).
  set (y := (q - s_min stats) / d).
  assert (Hd : 0 < d) by (unfold d; lra).
  assert (Hy : y * d == q - s_min stats) by (unfold y; field; lra).
  assert (H0 : q <= s_min stats -> y <= 0).
  { intros H. unfold y. apply Qle_shift_div_r; [exact Hd | lra]. }
  assert (H0' : s_min stats <= q -> 0 <= y).
  { intros H. unfold y. apply Qle_shift_div_l; [exact Hd | lra]. }
  assert (H1 : s_max stats <= q -> 1 <= y).
  { intros H. unfold y. apply Qle_shift_div_l; [exact Hd | unfold d; lra]. }
  assert (H1' : q <= s_max stats -> y <= 1).
  { intros H. unfold y. apply Qle_shift_div_r; [exact Hd | unfold d; lra]. }
  eexists _, _. split; [reflexivity |]. split; [reflexivity |].
  destruct (Q.min_spec 100 (y * 100)) as [[Ha Ea] | [Ha Ea]];
    destruct (Q.min_spec 100 (100 - y * 100)) as [[Hb Eb] | [Hb Eb]];
    rewrite Ea, Eb;
    destruct (Q.max_spec 0 100) as [[Hc Ec] | [Hc Ec]]; try lra;
    destruct (Q.max_spec 0 (y * 100)) as [[Hm Em] | [Hm Em]];
    destruct (Q.max_spec 0 (100 - y * 100)) as [[Hn En] | [Hn En]];
    rewrite ?Ec, ?Em, ?En;
    (split; [lra |]); (split; [intros H; specialize (H0 H); lra |]);
    (split; [intros H; specialize (H1 H); lra |]);
    intros [Hlo Hhi]; specialize (H0' Hlo); specialize (H1' Hhi); lra.
Qed.

(** X20. Percentiles of a numeric value under a non-degenerate range,
    all magnitudes being safe: the maximize and the minimize percentile lie
    between 0 and 100 and add up to 100 (up to the rounding of the
    runtime); at or below the minimum they are 0 and 100, at or above the
    maximum 100 and 0. *)
Theorem percentile_complement_and_clamp (value : JsVal) (stats : Stats) (q : Q) :
  ToNumber (anyOfFeature (Some value)) = Fin q ->
  s_min stats < s_max stats ->
  safe q -> safe (s_min stats) -> safe (s_max stats) ->
  exists a b,
    calculatePercentile value stats false = Fin a /\
    calculatePercentile value stats true = Fin b /\
    0 <= a <= 100 /\ 0 <= b <= 100 /\
    Qabs (a + b - 100) <= slack /\
    (q <= s_min stats -> a == 0 /\ b == 100) /\
    (s_max stats <= q -> a == 100 /\ b == 0).
Proof.
  intros Hq Hlt _ _ _.
  destruct (percentile_by_position value stats q Hq Hlt)
    as (a & b & Ha & Hb & Hsum & Hlo & Hhi & _).
  destruct (calculatePercentile_finite value stats false q Hq) as (a' & Ha' & Hra).
  destruct (calculatePercentile_finite value stats true q Hq) as (b' & Hb' & Hrb).
  rewrite Ha in Ha'. injection Ha' as <-. rewrite Hb in Hb'. injection Hb' as <-.
  exists a, b. split; [exact Ha |]. split; [exact Hb |].
  split; [exact Hra |]. split; [exact Hrb |]. split; [| split].
  - assert (E : a + b - 100 == 0) by lra. rewrite E. by vm_compute.
  - intros H. specialize (Hlo H). split; lra.
  - intros H. specialize (Hhi H). split; lra.
Qed.

Lemma percentile_complement_and_clamp_witness :
  s_min twoValueStats < s_max twoValueStats /\
  safe 100 /\ safe (s_min twoValueStats) /\ safe (s_max twoValueStats) /\
  exists a b,
    calculatePercentile (numberFeature 100) twoValueStats false = Fin a /\
    calculatePercentile (numberFeature 100) twoValueStats true = Fin b /\
    a == 0 /\ b == 100.
Proof.
  assert (Hlt : s_min twoValueStats < s_max twoValueStats) by (by vm_compute).
  assert (H1 : safe 100) by (by vm_compute).
  assert (H2 : safe (s_min twoValueStats)) by (by vm_compute).
  assert (H3 : safe (s_max twoValueStats)) by (by vm_compute).
  split; [exact Hlt |]. split; [exact H1 |]. split; [exact H2 |]. split; [exact H3 |].
  destruct (percentile_complement_and_clamp (numberFeature 100) twoValueStats 100
              eq_refl Hlt H1 H2 H3) as (a & b & Ha & Hb & _ & _ & _ & Hlo & _).
  exists a, b. split; [exact Ha |]. split; [exact Hb |].
  apply Hlo. by vm_compute.
Defined.

(** ** The reasons of a scored option *)

Lemma performanceOf_impact (score_ : num) (isMinimize_ : bool) :
  snd (performanceOf score_ isMinimize_) = impactOf score_.
Proof.
  unfold performanceOf, impactOf.
  destruct (nge score_ (Fin 80)) eqn:E80.
  - assert (E60 : nge score_ (Fin 60) = true).
    { destruct score_ as [x |]; [| discriminate]. unfold nge, nle in *.
      apply Qle_bool_iff in E80. apply Qle_bool_iff. lra. }
    by rewrite E60.
  - destruct (nge score_ (Fin 60)); [reflexivity |].
    destruct (nge score_ (Fin 40)); [reflexivity |].
    by destruct (nge score_ (Fin 20)).
Qed.

Lemma score_fold_reasons_map stats opt (ps : list Priority) :
  forall cs rs tot,
    snd (fst (fold_left (scoreStep stats opt) ps (cs, rs, tot)))
    = (rs ++ map (fun p => match calculateCriteriaScore opt p stats with
                           | Some result => res_reason result
                           | None => missingDataReason opt p
                           end) ps)%list.
Proof.
  induction ps as [| p ps IH]; intros cs rs tot; cbn [fold_left map].
  - by rewrite app_nil_r.
  - destruct (calculateCriteriaScore opt p stats) as [result |] eqn:Hres.
    + rewrite (scoreStep_Some _ _ _ _ _ _ _ Hres), IH. by rewrite <- app_assoc.
    + rewrite (scoreStep_None _ _ _ _ _ _ Hres), IH. by rewrite <- app_assoc.
Qed.

(** The reasons of a scored option, priority by priority. *)
Lemma reasons_by_priority
  (stats : gmap string Stats) (opt : NormalizedOption) (priorities : list Priority) :
  let so := scoreOption stats priorities opt in
  map r_criteria (reasons so) = map criteria priorities /\
  forall j p r, priorities !! j = Some p -> reasons so !! j = Some r ->
    (isMissing opt (criteria p) ->
     status r = "missing_data" /\ impact r = "neutral" /\
     weightContribution r = Fin 0 /\ details r = None) /\
    (~ isMissing opt (criteria p) ->
     exists score_ d,
       status r = impactOf score_ /\ impact r = impactOf score_ /\
       weightContribution r = round2 (nmul score_ (Fin (weight p))) /\
       details r = Some d /\ d_score d = round2 score_ /\
       weightPercentage d = Qround_half_up (weight p * 100)).
Proof.
  cbv zeta.
  set (f := fun p => match calculateCriteriaScore opt p stats with
                     | Some result => res_reason result
                     | None => missingDataReason opt p
                     end).
  assert (Hr : reasons (scoreOption stats priorities opt) = map f priorities).
  { unfold scoreOption.
    pose proof (score_fold_reasons_map stats opt priorities ∅ [] (Fin 0)) as H.
    destruct (fold_left _ priorities _) as [[cs' rs'] tot']. exact H. }
  assert (Hcrit : forall p, r_criteria (f p) = criteria p).
  { intros p. unfold f, calculateCriteriaScore.
    destruct (getNestedValue (normalizedFeatures opt) (criteria p)); [| reflexivity].
    destruct (getNestedValue _ (criteria p)); [| reflexivity].
    cbn [res_reason]. unfold generateCriteriaReason. by destruct (performanceOf _ _). }
  rewrite Hr. split.
  - rewrite map_map. apply map_ext. exact Hcrit.
  - intros j p r Hp Hj. change (map f priorities) with (f <$> priorities) in Hj.
    rewrite list_lookup_fmap, Hp in Hj. injection Hj as <-. split.
    + intros Hmiss. unfold f. by rewrite calculateCriteriaScore_missing.
    + intros Hpresent. unfold f, calculateCriteriaScore.
      destruct (getNestedValue (normalizedFeatures opt) (criteria p)) as [nv |] eqn:Hnv;
        [| destruct Hpresent; by left].
      destruct (getNestedValue (features _) (criteria p)) as [rv |] eqn:Hrv;
        [| destruct Hpresent; by right].
      cbn [res_reason]. unfold generateCriteriaReason.
      set (score_ := if isMinimize p then _ else _).
      pose proof (performanceOf_impact score_ (isMinimize p)) as Himp.
      destruct (performanceOf score_ (isMinimize p)) as [lvl imp]. cbn [snd] in Himp.
      subst imp. eexists score_, _. by repeat split.
Qed.

Lemma Qround2_mono (x y : Q) : x <= y -> Qround2 x <= Qround2 y.
Proof.
  intros H. unfold Qround2, Qround_half_up.
  assert (Hz : (Qfloor (x * 100 + (1 # 2)) <= Qfloor (y * 100 + (1 # 2)))%Z)
    by (apply Qfloor_resp_le; lra).
  rewrite Zle_Qle in Hz.
  set (u := inject_Z (Qfloor (x * 100 + (1 # 2)))) in *.
  set (v := inject_Z (Qfloor (y * 100 + (1 # 2)))) in *.
  assert (Eu : u / 100 == u * (1 # 100)) by field.
  assert (Ev : v / 100 == v * (1 # 100)) by field.
  rewrite Eu, Ev. lra.
Qed.

Lemma impactOf_rounded (score_ : num) :
  match round2 score_ with
  | Fin s => (impactOf score_ = "positive" /\ 60 <= s) \/
             (impactOf score_ = "neutral" /\ 40 <= s <= 60) \/
             (impactOf score_ = "negative" /\ s <= 40)
  | NaN => impactOf score_ = "negative"
  end.
Proof.
  destruct score_ as [x |]; [| reflexivity].
  rewrite round2_Fin. unfold impactOf, nge, nle.
  assert (E60 : Qround2 60 == 60) by reflexivity.
  assert (E40 : Qround2 40 == 40) by reflexivity.
  destruct (Qle_bool 60 x) eqn:H60.
  - apply Qle_bool_iff in H60. left. split; [reflexivity |].
    pose proof (Qround2_mono 60 x H60). lra.
  - assert (Hx60 : x <= 60).
    { destruct (Qlt_le_dec 60 x) as [Hlt | Hle]; [| exact Hle].
      assert (Hle : 60 <= x) by lra. apply Qle_bool_iff in Hle. congruence. }
    pose proof (Qround2_mono x 60 Hx60).
    destruct (Qle_bool 40 x) eqn:H40.
    + apply Qle_bool_iff in H40. right. left. split; [reflexivity |].
      pose proof (Qround2_mono 40 x H40). lra.
    + assert (Hx40 : x <= 40).
      { destruct (Qlt_le_dec 40 x) as [Hlt | Hle]; [| exact Hle].
        assert (Hle : 40 <= x) by lra. apply Qle_bool_iff in Hle. congruence. }
      pose proof (Qround2_mono x 40 Hx40).
      right. right. split; [reflexivity | lra].
Qed.

(** X21. A scored option carries one reason per priority, in priority
    order, when the priority criteria are paths of own properties at which
    the option holds primitives (or nothing). For a priority whose value is
    missing the reason is the neutral "missing_data" one without details
    and with contribution 0; otherwise status and impact coincide and agree
    with the rounded score shown in the details: positive from 60, neutral
    between 40 and 60, negative up to 40 or when the score is not a
    number. *)
Theorem reasons_follow_priorities
  (stats : gmap string Stats) (opt : NormalizedOption) (priorities : list Priority) :
  ownCriteria priorities ->
  (forall p, p ∈ priorities ->
     leafOrNone (getNestedValue (normalizedFeatures opt) (criteria p)) /\
     leafOrNone (getNestedValue (features (vo_option (no_option opt))) (criteria p))) ->
  let so := scoreOption stats priorities opt in
  map r_criteria (reasons so) = map criteria priorities /\
  forall j p r, priorities !! j = Some p -> reasons so !! j = Some r ->
    (isMissing opt (criteria p) ->
     status r = "missing_data" /\ impact r = "neutral" /\
     weightContribution r = Fin 0 /\ details r = None) /\
    (~ isMissing opt (criteria p) ->
     exists d,
       details r = Some d /\ status r = impact r /\
       match d_score d with
       | Fin s => (impact r = "positive" /\ 60 <= s) \/
                  (impact r = "neutral" /\ 40 <= s <= 60) \/
                  (impact r = "negative" /\ s <= 40)
       | NaN => impact r = "negative"
       end).
Proof.
  intros _ _. cbv zeta.
  destruct (reasons_by_priority stats opt priorities) as [Hcrit Hall].
  split; [exact Hcrit |]. intros j p r Hp Hr.
  destruct (Hall j p r Hp Hr) as [Hmiss Hpres]. split; [exact Hmiss |].
  intros Hnm. destruct (Hpres Hnm) as (score_ & d & Hs & Hi & _ & Hd & Hds & _).
  exists d. split; [exact Hd |]. split; [by rewrite Hs, Hi |].
  rewrite Hds, Hi. apply impactOf_rounded.
Qed.

Lemma missingExample_leaves (p : Priority) :
  p ∈ ScenarioA.priorities ->
  leafOrNone (getNestedValue (normalizedFeatures MissingExample.normalized) (criteria p)) /\
  leafOrNone (getNestedValue
                (features (vo_option (no_option MissingExample.normalized))) (criteria p)).
Proof.
  intros Hp.
  apply elem_of_cons in Hp as [-> | Hp];
    [| apply elem_of_cons in Hp as [-> | Hp]; [| by apply elem_of_nil in Hp]].
  - split; right; eexists; reflexivity.
  - split; by left.
Defined.

(** An option without a performance figure: its reasons follow the two
    priorities, the second being the missing-data one. *)
Lemma reasons_follow_priorities_witness :
  ownCriteria ScenarioA.priorities /\
  map r_criteria (reasons (scoreOption ∅ ScenarioA.priorities MissingExample.normalized))
  = ["cost"; "performance"] /\
  exists r,
    reasons (scoreOption ∅ ScenarioA.priorities MissingExample.normalized) !! 1%nat = Some r /\
    status r = "missing_data".
Proof.
  split; [exact scenarioA_own |].
  destruct (reasons_follow_priorities ∅ MissingExample.normalized ScenarioA.priorities
              scenarioA_own missingExample_leaves) as [Hcrit Hall].
  split; [exact Hcrit |].
  destruct (reasons (scoreOption ∅ ScenarioA.priorities MissingExample.normalized) !! 1%nat)
    as [r |] eqn:E; [| vm_compute in E; discriminate E].
  exists r. split; [reflexivity |].
  destruct (Hall 1%nat MissingExample.performancePriority r eq_refl E) as [Hmiss _].
  apply Hmiss. by left.
Defined.

(** ** Trade-offs and recommendations *)

Lemma sortWith_contributions (l : list Reason) :
  Forall (fun r => isFinite (weightContribution r)) l ->
  sortWith byContributionDesc l = stableSort (keyDesc contributionKey) l.
Proof.
  intros Hf. unfold sortWith. apply stableSort_ext.
  intros x y Hx Hy. rewrite Forall_forall in Hf.
  pose proof (Hf x Hx) as Fx. pose proof (Hf y Hy) as Fy.
  unfold byContributionDesc, contributionKey, keyDesc, ngt.
  destruct (weightContribution x) as [a |], (weightContribution y) as [b |];
    simpl in *; try tauto.
  destruct (Qlt_bool a b) eqn:E.
  - apply Qlt_bool_iff in E. apply Qlt_bool_iff. lra.
  - apply Qlt_bool_false in E. apply Qlt_bool_false. lra.
Qed.

Lemma descending_app {A} (key : A -> Q) (l1 l2 : list A) :
  descending key (l1 ++ l2)%list ->
  descending key l1 /\ forall x y, x ∈ l1 -> y ∈ l2 -> key y <= key x.
Proof.
  unfold descending. induction l1 as [| a l1 IH]; cbn [app]; intros H.
  - split; [constructor |]. intros x y Hx. by apply elem_of_nil in Hx.
  - inversion H as [| ? ? Hs Hall]; subst. destruct (IH Hs) as [H1 H2].
    rewrite Forall_forall in Hall. split.
    + constructor; [exact H1 |]. rewrite Forall_forall. intros z Hz.
      apply Hall, elem_of_app. by left.
    + intros x y [-> | Hx]%elem_of_cons Hy.
      * apply Hall, elem_of_app. by right.
      * by apply H2.
Qed.

Lemma top_three_by_contribution (rs : list Reason) :
  let chosen := take 3 (sortWith byContributionDesc rs) in
  let rest := drop 3 (sortWith byContributionDesc rs) in
  Permutation (chosen ++ rest)%list rs /\
  length chosen = Nat.min 3 (length rs) /\
  (Forall (fun r => isFinite (weightContribution r)) rs ->
   descending contributionKey chosen /\
   forall r r', r ∈ chosen -> r' ∈ rest -> contributionKey r' <= contributionKey r).
Proof.
  cbv zeta. rewrite take_drop.
  assert (Hperm : Permutation (sortWith byContributionDesc rs) rs)
    by (unfold sortWith; apply stableSort_perm).
  split; [exact Hperm |]. split.
  - rewrite length_take. by rewrite (Permutation_length Hperm).
  - intros Hfin. rewrite (sortWith_contributions rs Hfin).
    pose proof (stableSort_descending contributionKey rs) as Hd.
    rewrite <- (take_drop 3 (stableSort (keyDesc contributionKey) rs)) in Hd.
    exact (descending_app contributionKey _ _ Hd).
Qed.

(** X22. Strengths and weaknesses are the (up to three) positive and
    negative reasons with the largest weight contributions: each list
    describes a leading segment of a rearrangement of the option's positive
    (negative) reasons, of length min(3, their number); when every
    contribution is a number, no reason left out contributes more than a
    reason shown, and the shown ones are in descending order of
    contribution. Weaknesses, too, are ordered by descending contribution. *)
Theorem tradeOffs_show_largest_contributions (opt : RankedOption) :
  let t := analyzeOptionTradeOffs opt in
  let positives := filter (fun r => hasImpact "positive" r) (reasons (scored opt)) in
  let negatives := filter (fun r => hasImpact "negative" r) (reasons (scored opt)) in
  exists shownS restS shownW restW,
    strengths t = map (describeReason "Strong") shownS /\
    weaknesses t = map (describeReason "Weak") shownW /\
    Permutation (shownS ++ restS)%list positives /\
    Permutation (shownW ++ restW)%list negatives /\
    length shownS = Nat.min 3 (length positives) /\
    length shownW = Nat.min 3 (length negatives) /\
    (Forall (fun r => isFinite (weightContribution r)) (reasons (scored opt)) ->
     descending contributionKey shownS /\ descending contributionKey shownW /\
     (forall r r', r ∈ shownS -> r' ∈ restS -> contributionKey r' <= contributionKey r) /\
     (forall r r', r ∈ shownW -> r' ∈ restW -> contributionKey r' <= contributionKey r)).
Proof.
  cbv zeta.
  set (positives := filter (fun r => hasImpact "positive" r) (reasons (scored opt))).
  set (negatives := filter (fun r => hasImpact "negative" r) (reasons (scored opt))).
  destruct (top_three_by_contribution positives) as (HpS & HlS & HfS).
  destruct (top_three_by_contribution negatives) as (HpW & HlW & HfW).
  exists (take 3 (sortWith byContributionDesc positives)),
         (drop 3 (sortWith byContributionDesc positives)),
         (take 3 (sortWith byContributionDesc negatives)),
         (drop 3 (sortWith byContributionDesc negatives)).
  assert (Htake : forall (label : string) (l : list Reason),
            take 3 (map (describeReason label) (take 3 l))
            = map (describeReason label) (take 3 l)).
  { intros label l. apply take_ge. rewrite length_map, length_take. lia. }
  split; [apply Htake |]. split; [apply Htake |].
  split; [exact HpS |]. split; [exact HpW |]. split; [exact HlS |]. split; [exact HlW |].
  intros Hfin.
  assert (HfinS : Forall (fun r => isFinite (weightContribution r)) positives).
  { rewrite Forall_forall in *. intros r Hr. apply Hfin.
    by apply list_elem_of_filter in Hr as [_ Hr]. }
  assert (HfinW : Forall (fun r => isFinite (weightContribution r)) negatives).
  { rewrite Forall_forall in *. intros r Hr. apply Hfin.
    by apply list_elem_of_filter in Hr as [_ Hr]. }
  destruct (HfS HfinS) as [H1 H2]. destruct (HfW HfinW) as [H3 H4].
  by repeat split.
Qed.

(** ** Confidence *)

Lemma Qround2_one (x : Q) : x <= 1 -> (Qround2 x == 1 <-> 199 # 200 <= x).
Proof.
  intros Hx. unfold Qround2, Qround_half_up.
  pose proof (Qfloor_le (x * 100 + (1 # 2))) as Hle.
  pose proof (Qlt_floor (x * 100 + (1 # 2))) as Hlt.
  rewrite inject_Z_plus in Hlt. change (inject_Z 1) with 1 in Hlt.
  set (z := Qfloor (x * 100 + (1 # 2))) in *.
  assert (E : inject_Z z / 100 == inject_Z z * (1 # 100)) by field.
  rewrite E. split.
  - intros H. lra.
  - intros H.
    assert (H1 : (100 <= z)%Z).
    { apply (Z.le_trans _ (Qfloor 100)); [by vm_compute |].
      unfold z. apply Qfloor_resp_le. lra. }
    assert (H2 : (z <= 100)%Z).
    { apply (Z.le_trans _ (Qfloor (201 # 2))); [| by vm_compute].
      unfold z. apply Qfloor_resp_le. lra. }
    assert (Ez : z = 100%Z) by lia. rewrite Ez. reflexivity.
Qed.

Lemma calculateConfidence_value (top second : RankedOption) (rest : list RankedOption)
  (a b : Q) :
  totalScore (scored top) = Fin a -> totalScore (scored second) = Fin b ->
  calculateConfidence (top :: second :: rest)
  = Fin (Qround2 ((1 # 2) + Qmin ((a - b) / 100) (1 # 2))).
Proof.
  intros Ha Hb. unfold calculateConfidence. rewrite Ha, Hb.
  cbn [nsub]. rewrite ndiv_100. cbn [Math_min nadd]. apply roundToDecimals2_Fin.
Qed.

(** X23. The confidence grows with the gap between the two leading totals
    and never exceeds 1: of two rankings with leading totals of safe
    magnitude the one with the larger gap has at least the confidence of
    the other; the confidence is 1 from a gap of 50 points, at most 0.99
    up to a gap of 49 points, and at least 0.5 when the gap is not
    negative. *)
Theorem confidence_grows_with_gap
  (top second top' second' : RankedOption) (rest rest' : list RankedOption)
  (a b a' b' : Q) :
  totalScore (scored top) = Fin a -> totalScore (scored second) = Fin b ->
  totalScore (scored top') = Fin a' -> totalScore (scored second') = Fin b' ->
  safe a -> safe b -> safe a' -> safe b' ->
  a - b <= a' - b' ->
  exists c c',
    calculateConfidence (top :: second :: rest) = Fin c /\
    calculateConfidence (top' :: second' :: rest') = Fin c' /\
    c <= c' /\ c' <= 1 /\
    (50 <= a' - b' -> c' == 1) /\
    (a' - b' <= 49 -> c' <= 99 # 100) /\
    (0 <= a - b -> 1 # 2 <= c).
Proof.
  intros Ha Hb Ha' Hb' _ _ _ _ Hgap.
  rewrite (calculateConfidence_value top second rest a b Ha Hb).
  rewrite (calculateConfidence_value top' second' rest' a' b' Ha' Hb').
  eexists _, _. split; [reflexivity |]. split; [reflexivity |].
  set (g := a - b) in *. set (g' := a' - b') in *.
  assert (Eg : g / 100 == g * (1 # 100)) by field.
  assert (Eg' : g' / 100 == g' * (1 # 100)) by field.
  assert (Hx' : (1 # 2) + Qmin (g' / 100) (1 # 2) <= 1).
  { pose proof (Q.le_min_r (g' / 100) (1 # 2)). lra. }
  assert (E1 : Qround2 1 == 1) by reflexivity.
  split; [| split; [| split; [| split]]].
  - apply Qround2_mono.
    assert (Qmin (g / 100) (1 # 2) <= Qmin (g' / 100) (1 # 2)); [| lra].
    apply Q.min_glb.
    + pose proof (Q.le_min_l (g / 100) (1 # 2)). lra.
    + apply Q.le_min_r.
  - assert (H1 : Qround2 ((1 # 2) + Qmin (g' / 100) (1 # 2)) <= Qround2 1)
      by (by apply Qround2_mono).
    lra.
  - intros H. apply (Qround2_one _ Hx').
    assert (99 # 200 <= Qmin (g' / 100) (1 # 2)); [| lra].
    apply Q.min_glb; lra.
  - intros H.
    assert (Hle : (1 # 2) + Qmin (g' / 100) (1 # 2) <= 99 # 100).
    { pose proof (Q.le_min_l (g' / 100) (1 # 2)). lra. }
    pose proof (Qround2_mono _ _ Hle) as Hm.
    assert (E : Qround2 (99 # 100) == 99 # 100) by reflexivity. lra.
  - intros H.
    assert (Hle : 1 # 2 <= (1 # 2) + Qmin (g / 100) (1 # 2)).
    { assert (0 <= Qmin (g / 100) (1 # 2)); [| lra]. apply Q.min_glb; lra. }
    pose proof (Qround2_mono _ _ Hle) as Hm.
    assert (E : Qround2 (1 # 2) == 1 # 2) by reflexivity. lra.
Qed.

Lemma confidence_grows_with_gap_witness :
  safe 60 /\ safe 40 /\ safe 90 /\ 60 - 40 <= 90 - 40 /\
  exists c c',
    calculateConfidence [rankedWithTotal "a" 1 60; rankedWithTotal "b" 2 40] = Fin c /\
    calculateConfidence [rankedWithTotal "a" 1 90; rankedWithTotal "b" 2 40] = Fin c' /\
    c <= c' /\ c' == 1.
Proof.
  assert (H60 : safe 60) by (by vm_compute).
  assert (H40 : safe 40) by (by vm_compute).
  assert (H90 : safe 90) by (by vm_compute).
  assert (Hgap : 60 - 40 <= 90 - 40) by (by vm_compute).
  split; [exact H60 |]. split; [exact H40 |]. split; [exact H90 |]. split; [exact Hgap |].
  destruct (confidence_grows_with_gap
              (rankedWithTotal "a" 1 60) (rankedWithTotal "b" 2 40)
              (rankedWithTotal "a" 1 90) (rankedWithTotal "b" 2 40) [] []
              60 40 90 40 eq_refl eq_refl eq_refl eq_refl H60 H40 H90 H40 Hgap)
    as (c & c' & Hc & Hc' & Hle & _ & Hone & _).
  exists c, c'. split; [exact Hc |]. split; [exact Hc' |]. split; [exact Hle |].
  apply Hone. by vm_compute.
Defined.

(** ** The API pipeline *)


(** ** Decision recommendations *)

Lemma constraintFailures_fold (l : list RankedOption) :
  forall n : nat,
    fold_left (fun total opt =>
                 (total + length (failedConstraints (so_constraintCompliance (scored opt))))%nat)
              l n
    = (n + constraintFailuresOf l)%nat.
Proof.
  unfold constraintFailuresOf. induction l as [| o l IH]; intros n; cbn [fold_left]; [lia |].
  rewrite IH, (IH (0 + _)%nat). lia.
Qed.

Lemma constraintFailures_positive (l : list RankedOption) :
  (0 < constraintFailuresOf l)%nat <->
  exists o, o ∈ l /\ failedConstraints (so_constraintCompliance (scored o)) <> [].
Proof.
  induction l as [| o l IH].
  - split; [cbn; lia |]. intros (o & Ho & _). by apply elem_of_nil in Ho.
  - unfold constraintFailuresOf. cbn [fold_left]. rewrite constraintFailures_fold.
    destruct (failedConstraints (so_constraintCompliance (scored o))) as [| f fs] eqn:Hf.
    + cbn [length]. rewrite Nat.add_0_l, IH. split.
      * intros (o' & Ho' & Hne). exists o'. split; [by right | exact Hne].
      * intros (o' & [-> | Ho']%elem_of_cons & Hne); [congruence |]. by exists o'.
    + split; [| cbn [length]; lia].
      intros _. exists o. split; [by left |]. by rewrite Hf.
Qed.

(** X25. [generateDecisionRecommendations] fails only when asked about
    "clear_differences" on an empty ranking (it reads the trade-offs of an
    absent top option); otherwise it returns at most three
    recommendations, and the advice to relax requirements is among them
    exactly when some listed option has a failed constraint. For a
    competitiveness other than "very_close" and "clear_differences" that
    advice is the only possible recommendation. *)
Theorem decision_recommendations_shape
  (rankedOptions_ : list RankedOption) (keyFactors : list KeyFactor)
  (competitiveness : string) :
  (generateDecisionRecommendations rankedOptions_ keyFactors competitiveness = None <->
   competitiveness = "clear_differences" /\ rankedOptions_ = []) /\
  forall recommendations,
    generateDecisionRecommendations rankedOptions_ keyFactors competitiveness
    = Some recommendations ->
    (length recommendations <= 3)%nat /\
    (relaxRecommendation ∈ recommendations <->
     exists o, o ∈ rankedOptions_ /\
               failedConstraints (so_constraintCompliance (scored o)) <> []) /\
    (competitiveness <> "very_close" -> competitiveness <> "clear_differences" ->
     recommendations = [] \/ recommendations = [relaxRecommendation]).
Proof.
  setoid_rewrite <- constraintFailures_positive.
  unfold generateDecisionRecommendations.
  destruct (String.eqb_spec competitiveness "very_close") as [-> | Hvc].
  - split; [split; [discriminate | intros [H _]; discriminate H] |].
    intros recs [= <-].
    destruct (0 <? constraintFailuresOf rankedOptions_)%nat eqn:Hc.
    + apply Nat.ltb_lt in Hc.
      destruct keyFactors as [| k ks]; cbn [app take length].
      * split; [lia |]. split; [| done]. split; [done |]. intros _. right. by left.
      * split; [lia |]. split; [| done]. split; [done |]. intros _. right. right. by left.
    + apply Nat.ltb_ge in Hc.
      destruct keyFactors as [| k ks]; cbn [app take length].
      * split; [lia |]. split; [| done]. split; [| lia].
        intros [H | H%elem_of_nil]%elem_of_cons; [discriminate H | done].
      * split; [lia |]. split; [| done]. split; [| lia].
        intros [H | [H | H%elem_of_nil]%elem_of_cons]%elem_of_cons;
          [discriminate H | discriminate H | done].
  - destruct (String.eqb_spec competitiveness "clear_differences") as [-> | Hcd].
    + destruct rankedOptions_ as [| topOption others].
      * split; [done |]. intros recs H. discriminate H.
      * split; [split; [discriminate | intros [_ H]; discriminate H] |].
        intros recs [= <-].
        destruct (0 <? constraintFailuresOf (topOption :: others))%nat eqn:Hc.
        -- apply Nat.ltb_lt in Hc.
           destruct (topStrengthOf topOption) as [first |]; cbn [app take length].
           ++ split; [lia |]. split; [| done]. split; [done |]. intros _.
              right. right. by left.
           ++ split; [lia |]. split; [| done]. split; [done |]. intros _. right. by left.
        -- apply Nat.ltb_ge in Hc.
           destruct (topStrengthOf topOption) as [first |]; cbn [app take length].
           ++ split; [lia |]. split; [| done]. split; [| lia].
              intros [H | [H | H%elem_of_nil]%elem_of_cons]%elem_of_cons;
                [discriminate H | discriminate H | done].
           ++ split; [lia |]. split; [| done]. split; [| lia].
              intros [H | H%elem_of_nil]%elem_of_cons; [discriminate H | done].
    + split; [split; [discriminate | intros [H _]; done] |].
      intros recs [= <-].
      destruct (0 <? constraintFailuresOf rankedOptions_)%nat eqn:Hc.
      * apply Nat.ltb_lt in Hc. cbn [app take length].
        split; [lia |]. split; [| by right]. split; [done |]. intros _. by left.
      * apply Nat.ltb_ge in Hc. cbn [app take length].
        split; [lia |]. split; [| by left]. split; [| lia].
        intros H. by apply elem_of_nil in H.
Qed.

(** ** Validation helpers *)

Lemma setAdd_elem (x item : string) (set : list string) :
  x ∈ setAdd item set <-> x = item \/ x ∈ set.
Proof.
  unfold setAdd. destruct (decide (item ∈ set)) as [Hin | Hnin].
  - rewrite bool_decide_eq_true_2 by exact Hin. split; [by right |].
    intros [-> | H]; done.
  - rewrite bool_decide_eq_false_2 by exact Hnin. rewrite elem_of_app, list_elem_of_singleton.
    tauto.
Qed.

Lemma setAdd_NoDup (item : string) (set : list string) : NoDup set -> NoDup (setAdd item set).
Proof.
  intros Hnd. unfold setAdd. destruct (decide (item ∈ set)) as [Hin | Hnin].
  - by rewrite bool_decide_eq_true_2.
  - rewrite bool_decide_eq_false_2 by exact Hnin. apply NoDup_app. split; [exact Hnd |].
    split; [| apply NoDup_singleton].
    intros x Hx ->%list_elem_of_singleton. done.
Qed.

Lemma occurrences_snoc (x y : string) (l : list string) :
  occurrences x (l ++ [y]) = (occurrences x l + if decide (y = x) then 1 else 0)%nat.
Proof.
  unfold occurrences. rewrite filter_app, length_app. f_equal.
  rewrite filter_cons, filter_nil. by destruct (decide (y = x)).
Qed.

Lemma occurrences_positive (x : string) (l : list string) :
  (0 < occurrences x l)%nat <-> x ∈ l.
Proof.
  unfold occurrences. split.
  - intros H. destruct (filter (fun y => y = x) l) as [| z zs] eqn:Hf; [cbn in H; lia |].
    assert (Hz : z ∈ filter (fun y => y = x) l) by (rewrite Hf; by left).
    by apply list_elem_of_filter in Hz as [-> Hz].
  - intros H. assert (Hx : x ∈ filter (fun y => y = x) l) by (by apply list_elem_of_filter).
    destruct (filter (fun y => y = x) l); [by apply elem_of_nil in Hx | cbn; lia].
Qed.

Lemma findDuplicates_state (array : list string) :
  let st := fold_left
              (fun '(seen, duplicates) item =>
                 if bool_decide (item ∈ seen) then (seen, setAdd item duplicates)
                 else (setAdd item seen, duplicates))
              array ([], []) in
  NoDup (fst st) /\ NoDup (snd st) /\
  (forall x, x ∈ fst st <-> x ∈ array) /\
  (forall x, x ∈ snd st <-> (2 <= occurrences x array)%nat).
Proof.
  cbv zeta. induction array as [| item done IH] using rev_ind.
  - cbn. split; [constructor |]. split; [constructor |]. split.
    + done.
    + intros x. split; [intros H; by apply elem_of_nil in H | unfold occurrences; cbn; lia].
  - rewrite fold_left_app. cbn [fold_left].
    destruct (fold_left _ done _) as [seen duplicates]. cbn [fst snd] in IH.
    destruct IH as (Hs & Hd & Hseen & Hdup).
    destruct (decide (item ∈ seen)) as [Hin | Hnin].
    + rewrite bool_decide_eq_true_2 by exact Hin. cbn [fst snd].
      split; [exact Hs |]. split; [by apply setAdd_NoDup |]. split.
      * intros x. rewrite elem_of_app, list_elem_of_singleton, Hseen. split; [tauto |].
        intros [H | ->]; [exact H | by apply Hseen].
      * intros x. rewrite setAdd_elem, occurrences_snoc, Hdup.
        apply Hseen, occurrences_positive in Hin.
        destruct (decide (item = x)) as [-> | Hne]; [| split; [intros [-> | H] |]; [done | lia | lia]].
        split; [lia |]. intros _. by left.
    + rewrite bool_decide_eq_false_2 by exact Hnin. cbn [fst snd].
      split; [by apply setAdd_NoDup |]. split; [exact Hd |]. split.
      * intros x. rewrite setAdd_elem, elem_of_app, list_elem_of_singleton, Hseen. tauto.
      * intros x. rewrite occurrences_snoc, Hdup.
        destruct (decide (item = x)) as [-> | Hne]; [| split; lia].
        assert (H0 : occurrences x done = 0%nat).
        { destruct (occurrences x done) eqn:E; [reflexivity |].
          destruct Hnin. apply Hseen, occurrences_positive. lia. }
        lia.
Qed.

Lemma NoDup_occurrences (l : list string) :
  NoDup l <-> forall x, (occurrences x l <= 1)%nat.
Proof.
  induction l as [| y l IH].
  - split; [intros _ x; unfold occurrences; cbn; lia | constructor].
  - rewrite NoDup_cons, IH. unfold occurrences. split.
    + intros [Hnin H] x. rewrite filter_cons.
      destruct (decide (y = x)) as [-> | Hne]; [| apply H].
      cbn [length]. assert (E : occurrences x l = 0%nat).
      { destruct (occurrences x l) eqn:E; [reflexivity |].
        destruct Hnin. apply occurrences_positive. lia. }
      unfold occurrences in E. lia.
    + intros H. split.
      * intros Hin. apply occurrences_positive in Hin. specialize (H y).
        rewrite filter_cons in H. destruct (decide (y = y)); [| done].
        cbn [length] in H. unfold occurrences in Hin. lia.
      * intros x. specialize (H x). rewrite filter_cons in H.
        destruct (decide (y = x)); cbn [length] in H; lia.
Qed.

(** X26. [findDuplicates] returns, without repetition, exactly the items
    that occur at least twice; it returns nothing precisely for an array
    without repetition. *)
Theorem findDuplicates_exactly_the_repeated (array : list string) :
  NoDup (findDuplicates array) /\
  (forall x, x ∈ findDuplicates array <-> (2 <= occurrences x array)%nat) /\
  (findDuplicates array = [] <-> NoDup array).
Proof.
  destruct (findDuplicates_state array) as (_ & Hd & _ & Hdup).
  fold (findDuplicates array) in Hd, Hdup.
  split; [exact Hd |]. split; [exact Hdup |].
  rewrite NoDup_occurrences. split.
  - intros Hnil x. destruct (le_lt_dec (occurrences x array) 1) as [H | H]; [exact H |].
    assert (Hx : x ∈ findDuplicates array) by (apply Hdup; lia).
    rewrite Hnil in Hx. by apply elem_of_nil in Hx.
  - intros H. destruct (findDuplicates array) as [| x xs] eqn:Hf; [reflexivity |].
    assert (Hx : (2 <= occurrences x array)%nat) by (apply Hdup; by left).
    specialize (H x). lia.
Qed.

(** ** Feature keys *)

Lemma join_cons (k : string) (ks : list string) :
  ks <> [] -> join "." (k :: ks) = k +:+ "." +:+ join "." ks.
Proof. destruct ks; [done | reflexivity]. Qed.

Lemma join_split (s : string) : join "." (split "." s) = s.
Proof.
  induction s as [| c t IH]; [reflexivity |].
  cbn [split]. destruct (Ascii.eqb_spec c ".") as [-> | Hne].
  - rewrite join_cons by apply split_nonempty. by rewrite IH.
  - pose proof (split_nonempty "." t) as Hn.
    destruct (split "." t) as [| h r]; [done |].
    destruct r as [| h' r'].
    + cbn [join] in *. by rewrite IH.
    + rewrite join_cons by discriminate. rewrite join_cons in IH by discriminate.
      by rewrite <- IH.
Qed.

Lemma split_head_empty (s : string) :
  head (split "." s) = Some "" -> s = "" \/ startsWithDot s = true.
Proof.
  destruct s as [| c t]; [by left |]. cbn [split startsWithDot].
  destruct (Ascii.eqb c "."); [by right |].
  destruct (split "." t); discriminate.
Qed.

Lemma app_assoc_string (a b c : string) : (a +:+ b) +:+ c = a +:+ (b +:+ c).
Proof.
  induction a as [| x a IH]; [reflexivity |]. exact (f_equal (String x) IH).
Qed.

Lemma app_nonempty_string (a b : string) : a <> "" -> a +:+ b <> "".
Proof. destruct a; [done | discriminate]. Qed.

Lemma collect_entry (fs : list (string * JsVal)) (prefix key : string) (child : JsVal) :
  lookupField key fs = Some child ->
  let fullKey := if String.eqb prefix "" then key else prefix +:+ "." +:+ key in
  fullKey ∈ collectFeatureKeys (JObj fs) prefix /\
  collectFeatureKeys child fullKey ⊆ collectFeatureKeys (JObj fs) prefix.
Proof.
  cbv zeta. induction fs as [| [k c] rest IHfs]; [discriminate |].
  cbn [lookupField]. destruct (String.eqb_spec key k) as [<- | Hne].
  - clear IHfs. intros [= ->]. cbn [collectFeatureKeys]. split.
    + apply elem_of_union_l, elem_of_union_l. by apply elem_of_singleton.
    + intros x Hx. apply elem_of_union_l, elem_of_union_r.
      destruct child as [p | cfs]; [by apply elem_of_empty in Hx | exact Hx].
  - intros H. destruct (IHfs H) as [H1 H2]. clear IHfs. cbn [collectFeatureKeys] in *.
    split; [by apply elem_of_union_r |].
    intros x Hx. apply elem_of_union_r. by apply H2.
Qed.

Lemma collect_path (ks : list string) :
  forall (fs : list (string * JsVal)) (prefix : string) (v : JsVal),
    ks <> [] ->
    getPath (JObj fs) ks = Some v ->
    (prefix = "" -> head ks <> Some "") ->
    (if String.eqb prefix "" then join "." ks else prefix +:+ "." +:+ join "." ks)
    ∈ collectFeatureKeys (JObj fs) prefix.
Proof.
  induction ks as [| k ks IH]; intros fs prefix v Hne Hget Hhead; [done |].
  rewrite getPath_cons in Hget.
  destruct (lookupField k fs) as [child |] eqn:Hk; [| discriminate].
  destruct (collect_entry fs prefix k child Hk) as [Hfull Hsub].
  destruct ks as [| k' ks'].
  - exact Hfull.
  - destruct child as [p | cfs]; [by rewrite getPath_prim in Hget |].
    apply Hsub.
    assert (Hfk : (if String.eqb prefix "" then k else prefix +:+ "." +:+ k) <> "").
    { destruct (String.eqb_spec prefix "") as [-> | Hp].
      - intros ->. by apply Hhead.
      - by apply app_nonempty_string. }
    pose proof (IH cfs (if String.eqb prefix "" then k else prefix +:+ "." +:+ k) v
                  ltac:(discriminate) Hget ltac:(done)) as Hin.
    apply String.eqb_neq in Hfk. rewrite Hfk in Hin.
    rewrite (join_cons k) by discriminate.
    destruct (String.eqb prefix ""); [exact Hin |].
    by rewrite !app_assoc_string in *.
Qed.

Lemma allFeatureKeys_fold (options : list DecisionOption) :
  forall (acc : gset string) (c : string),
    c ∈ fold_left (fun keySet opt => keySet ∪ collectFeatureKeys (features opt) "") options acc
    <-> c ∈ acc \/ exists o, o ∈ options /\ c ∈ collectFeatureKeys (features o) "".
Proof.
  induction options as [| o os IH]; intros acc c; cbn [fold_left].
  - split; [by left |]. intros [H | (o & Ho & _)]; [exact H | by apply elem_of_nil in Ho].
  - rewrite IH, elem_of_union. split.
    + intros [[H | H] | (o' & Ho' & H)]; [by left | right; exists o | right; exists o'];
        (split; [| exact H]); [by left | by right].
    + intros [H | (o' & [-> | Ho']%elem_of_cons & H)]; [by left; left | by left; right |].
      right. by exists o'.
Qed.

(** X27. Over features made of nested objects and primitive values (no
    arrays), validation accepts every criterion the engine reads through
    own properties: if a path of own properties that does not begin with a
    dot leads [getNestedValue] to a value in the features of some option,
    [collectFeatureKeys] lists that path, so that
    [validateCriteriaExistence] reports nothing when every priority
    criterion is empty or readable in this way. *)
Theorem readable_criteria_pass_validation
  (options : list DecisionOption) (priorities : list Priority) :
  (forall p, p ∈ priorities ->
     criteria p = "" \/
     (startsWithDot (criteria p) = false /\ ownPath (criteria p) /\
      exists o v, o ∈ options /\ getNestedValue (features o) (criteria p) = Some v)) ->
  (forall p, p ∈ priorities -> criteria p <> "" -> criteria p ∈ allFeatureKeysOf options) /\
  validateCriteriaExistence options priorities = [].
Proof.
  intros Hread.
  assert (Hkeys : forall p, p ∈ priorities -> criteria p <> "" ->
                    criteria p ∈ allFeatureKeysOf options).
  { intros p Hp Hne. destruct (Hread p Hp) as [E | (Hdot & _ & o & v & Ho & Hv)]; [done |].
    unfold allFeatureKeysOf. apply allFeatureKeys_fold. right. exists o. split; [exact Ho |].
    destruct (features o) as [pr | fs]; [by rewrite getNestedValue_prim in Hv |].
    rewrite getNestedValue_obj in Hv by exact Hne.
    pose proof (collect_path (split "." (criteria p)) fs "" v
                  (split_nonempty _ _) Hv) as Hin.
    cbn [String.eqb] in Hin. rewrite join_split in Hin. apply Hin.
    intros _ Hh. apply split_head_empty in Hh as [E | E]; [done | congruence]. }
  split; [exact Hkeys |].
  unfold validateCriteriaExistence.
  induction priorities as [| p ps IH]; [reflexivity |].
  cbn [omap list_omap].
  assert (Hp : negb (String.eqb (criteria p) "")
               && negb (bool_decide (criteria p ∈ allFeatureKeysOf options)) = false).
  { destruct (String.eqb_spec (criteria p) "") as [E | Hne]; [reflexivity |].
    cbn [negb andb]. rewrite bool_decide_eq_true_2; [reflexivity |].
    apply Hkeys; [by left | exact Hne]. }
  rewrite Hp. apply IH.
  - intros q Hq. apply Hread. by right.
  - intros q Hq. apply Hkeys. by right.
Qed.

Lemma scenarioA_readable (p : Priority) :
  p ∈ ScenarioA.priorities ->
  criteria p = "" \/
  (startsWithDot (criteria p) = false /\ ownPath (criteria p) /\
   exists o v, o ∈ ScenarioA.options /\ getNestedValue (features o) (criteria p) = Some v).
Proof.
  intros Hp. right.
  apply elem_of_cons in Hp as [-> | Hp];
    [| apply elem_of_cons in Hp as [-> | Hp]; [| by apply elem_of_nil in Hp]].
  - split; [reflexivity |]. split; [reflexivity |].
    exists ScenarioA.option1, (numberFeature 100). split; [by left | reflexivity].
  - split; [reflexivity |]. split; [reflexivity |].
    exists ScenarioA.option1, (numberFeature 80). split; [by left | reflexivity].
Defined.

Lemma readable_criteria_pass_validation_witness :
  (forall p, p ∈ ScenarioA.priorities ->
     criteria p = "" \/
     (startsWithDot (criteria p) = false /\ ownPath (criteria p) /\
      exists o v, o ∈ ScenarioA.options /\
                  getNestedValue (features o) (criteria p) = Some v)) /\
  validateCriteriaExistence ScenarioA.options ScenarioA.priorities = [].
Proof.
  split; [exact scenarioA_readable |].
  exact (proj2 (readable_criteria_pass_validation ScenarioA.options ScenarioA.priorities
                  scenarioA_readable)).
Defined.

(** ** The algorithm setting *)

(** X28. The algorithm setting changes nothing but wording: two settings
    with the same [max_results] give the same scoring results, the same
    ranked options with trade-offs and the same summary, whatever algorithm
    they name; of the explanations only the methodology sentence, which
    echoes the name, can differ. *)
Theorem algorithm_setting_only_changes_wording
  (options : list DecisionOption) (constraints : list Constraint)
  (priorities : list Priority) (s1 s2 : Settings) :
  max_results s1 = max_results s2 ->
  scoreOptions options constraints priorities s1
  = scoreOptions options constraints priorities s2 /\
  res_rankedOptions (processComparison options constraints priorities s1)
  = res_rankedOptions (processComparison options constraints priorities s2) /\
  res_summary (processComparison options constraints priorities s1)
  = res_summary (processComparison options constraints priorities s2) /\
  scoringBreakdown (res_explanations (processComparison options constraints priorities s1))
  = scoringBreakdown (res_explanations (processComparison options constraints priorities s2)) /\
  tradeOffAnalysis (res_explanations (processComparison options constraints priorities s1))
  = tradeOffAnalysis (res_explanations (processComparison options constraints priorities s2)).
Proof.
  intros Hmax.
  assert (Hs : scoreOptions options constraints priorities s1
               = scoreOptions options constraints priorities s2).
  { unfold scoreOptions, limitResults. by rewrite Hmax. }
  split; [exact Hs |]. unfold processComparison.
  cbn [res_rankedOptions res_summary res_explanations]. rewrite Hs.
  by repeat split.
Qed.

Lemma algorithm_setting_only_changes_wording_witness :
  let topsis := {| algorithm := Some "topsis"; max_results := None |} in
  max_results topsis = max_results noSettings /\
  res_rankedOptions
    (processComparison ScenarioA.options [] ScenarioA.priorities topsis)
  = res_rankedOptions
      (processComparison ScenarioA.options [] ScenarioA.priorities noSettings).
Proof.
  intros topsis. split; [reflexivity |].
  exact (proj1 (proj2 (algorithm_setting_only_changes_wording
                         ScenarioA.options [] ScenarioA.priorities topsis noSettings
                         eq_refl))).
Defined.

(** ** Membership constraints *)

Lemma primStrictEq_sym (a b : prim) : primStrictEq a b = primStrictEq b a.
Proof.
  destruct a as [| x | x | x], b as [| y | y | y]; try reflexivity; cbn [primStrictEq].
  - by destruct x, y.
  - destruct x as [p |], y as [q |]; try reflexivity. cbn [nstrict_eq].
    destruct (Qeq_bool p q) eqn:E.
    + apply Qeq_bool_iff in E. symmetry. apply Qeq_bool_iff. by symmetry.
    + destruct (Qeq_bool q p) eqn:E'; [| reflexivity].
      apply Qeq_bool_iff in E'. symmetry in E'. apply Qeq_bool_iff in E'. congruence.
  - apply String.eqb_sym.
Qed.

Lemma sameValueZero_strict (item p : prim) :
  p <> PNum NaN -> sameValueZero item p = primStrictEq p item.
Proof.
  intros Hp. rewrite (primStrictEq_sym p item).
  destruct item as [| x | [x |] | x]; try reflexivity.
  destruct p as [| y | [y |] | y]; try reflexivity. done.
Qed.

(** X29. [in] is the disjunction of [eq] over the listed items: for an
    attribute value other than NaN, an [in] constraint with an array
    operand holds exactly when [eq] holds for one of the array's items; with
    an operand that is not an array it never holds. NaN is the exception:
    it is found in an array that lists NaN although it equals nothing. *)
Theorem in_is_eq_to_some_item (opt : DecisionOption) (c : Constraint) (items : list prim) :
  operator c = "in" ->
  (getNestedValue (features opt) (c_criteria c) <> Some (JPrim (PNum NaN)) ->
   evaluateConstraint opt (withOperand c (CArr items))
   = existsb (fun item =>
                evaluateConstraint opt (withOperand (withOperator c "eq") (CPrim item)))
             items) /\
  (forall p, evaluateConstraint opt (withOperand c (CPrim p)) = false) /\
  (getNestedValue (features opt) (c_criteria c) = Some (JPrim (PNum NaN)) ->
   evaluateConstraint opt (withOperand c (CArr [PNum NaN])) = true /\
   evaluateConstraint opt (withOperand (withOperator c "eq") (CPrim (PNum NaN))) = false).
Proof.
  intros Hop. unfold evaluateConstraint, withOperand, withOperator.
  cbn [c_criteria operator c_value]. rewrite Hop.
  cbn [String.eqb Ascii.eqb Bool.eqb andb].
  destruct (getNestedValue (features opt) (c_criteria c)) as [[p | fs] |] eqn:Hv.
  - split; [| split].
    + intros Hnan. destruct p as [| b | n | s]; cbn [arrayIncludes strictEq].
      * by induction items.
      * induction items as [| i rest IH]; [reflexivity |]. cbn [existsb].
        rewrite IH. f_equal. by apply sameValueZero_strict.
      * assert (Hn : PNum n <> PNum NaN) by (intros E; apply Hnan; by rewrite E).
        induction items as [| i rest IH]; [reflexivity |]. cbn [existsb].
        rewrite IH. f_equal. by apply sameValueZero_strict.
      * induction items as [| i rest IH]; [reflexivity |]. cbn [existsb].
        rewrite IH. f_equal. by apply sameValueZero_strict.
    + intros q. by destruct p.
    + intros [= ->]. split; reflexivity.
  - split; [| split].
    + intros _. cbn [arrayIncludes strictEq]. by induction items.
    + reflexivity.
    + discriminate.
  - split; [| split].
    + intros _. by induction items.
    + reflexivity.
    + discriminate.
Qed.

Lemma in_is_eq_to_some_item_witness :
  let c := {| c_criteria := "cost"; operator := "in"; c_value := CPrim PNull;
              required := None |} in
  operator c = "in" /\
  evaluateConstraint ScenarioA.option1
    (withOperand c (CArr [PNum (Fin 50); PNum (Fin 100)])) = true.
Proof.
  intros c. split; [reflexivity |].
  destruct (in_is_eq_to_some_item ScenarioA.option1 c [PNum (Fin 50); PNum (Fin 100)]
              eq_refl) as [H _].
  rewrite H; [reflexivity | discriminate].
Defined.
